(** * React-Redux bindings: selector pipeline, connect wrapper, useSelector hook

    A shallow embedding of the JavaScript sources

    - the final-props selector (the pure and impure compositions of the
      selector pipeline),
    - [src/components/createConnect.js] (the declarative wrapper),
    - the [useSelector] hook (the direct flavor),

    together with the helpers they import ([shallowEqual], [isPlainObject],
    [Subscription], the [invariant] package and the store contract).

    JavaScript values are modelled with their identity: an object is a
    reference into a heap, so that [===] (reference identity) and shallow
    equality (same keys, identical values) are different relations, as they
    are in the code. *)

From Stdlib Require Import ZArith Ascii String.
From stdpp Require Import gmap strings list fin_maps.

Local Open Scope string_scope.
Local Open Scope list_scope.
Local Open Scope nat_scope.

(** ** JavaScript values *)

(** Numbers: only the distinctions the code relies on are kept, namely that
    [NaN] is not [===] to itself and that [+0] and [-0] are [===] but not
    [Object.is]-identical. [Int 0] is [+0]. *)
Inductive number :=
| NaN
| NegZero
| Int (z : Z).

Inductive value :=
| VUndefined
| VNull
| VBool (b : bool)
| VNum (n : number)
| VStr (s : string)
| VRef (l : nat).

Global Instance number_eq_dec : EqDecision number.
Proof. solve_decision. Defined.

Global Instance value_eq_dec : EqDecision value.
Proof. solve_decision. Defined.

(** A heap object: its own enumerable properties, and whether it is a plain
    object (created by an object literal) rather than an array, a function
    or a class instance. *)
Record object := { plain : bool; props : gmap string value }.

(** [Object.is(a, b)]: identity of values; on the model it is equality. *)
Definition object_is (a b : value) : bool := bool_decide (a = b).

Definition is_zero (n : number) : bool :=
  match n with
  | NegZero => true
  | Int z => bool_decide (z = 0%Z)
  | NaN => false
  end.

(** [a === b]. *)
Definition strict_eq (a b : value) : bool :=
  match a, b with
  | VNum NaN, _ | _, VNum NaN => false
  | VNum x, VNum y => (is_zero x && is_zero y) || bool_decide (x = y)
  | _, _ => bool_decide (a = b)
  end.

(** [a !== b]. *)
Definition strict_neq (a b : value) : bool := negb (strict_eq a b).

(** [Boolean(v)], the test of [if (v)] and of [!v]. *)
Definition truthy (v : value) : bool :=
  match v with
  | VUndefined | VNull => false
  | VBool b => b
  | VNum n => match n with NaN | NegZero => false | Int z => negb (bool_decide (z = 0%Z)) end
  | VStr s => negb (bool_decide (s = EmptyString))
  | VRef _ => true
  end.

(** Modelled from the spec: [utils/shallowEqual] is imported by the sources
    but is not among them. Section 4.1: true if [a] and [b] are
    reference-identical, or if both are non-null key-value mappings with the
    same set of keys and, for every key, [Object.is]-identical values. No
    recursion into nested structures. *)
Definition shallowEqual (h : gmap nat object) (a b : value) : bool :=
  if object_is a b then true
  else match a, b with
       | VRef la, VRef lb =>
           match h !! la, h !! lb with
           | Some oa, Some ob =>
               bool_decide (dom (props oa) = dom (props ob))
               && bool_decide (map_Forall (λ k v, props ob !! k = Some v) (props oa))
           | _, _ => false
           end
       | _, _ => false
       end.

(** Modelled from the spec: [utils/isPlainObject] is imported by
    [createConnect.js] but is not among the sources. The spec calls its
    positive instances "plain key-value mappings". *)
Definition isPlainObject (h : gmap nat object) (v : value) : bool :=
  match v with
  | VRef l => match h !! l with Some o => plain o | None => false end
  | _ => false
  end.

(** ** Exceptions and the effect monad *)

(** A thrown object, as the sources read it: the texts of its [message] and
    [stack] properties. For an [Error] these are its message and the stack
    text the engine attached to it. *)
Record error := { message : string; stack : string }.

(** The values that are not objects. *)
Inductive primitive :=
| PUndefined
| PNull
| PBool (b : bool)
| PNum (n : number)
| PStr (s : string).

Definition primitive_value (p : primitive) : value :=
  match p with
  | PUndefined => VUndefined
  | PNull => VNull
  | PBool b => VBool b
  | PNum n => VNum n
  | PStr s => VStr s
  end.

(** What a [throw] statement throws. JavaScript lets any value be thrown:
    an object (an [Error], usually) or a primitive, [0], [null] and
    [undefined] included. *)
Inductive thrown :=
| ThrownObject (e : error)
| ThrownPrimitive (p : primitive).

Coercion ThrownObject : error >-> thrown.

(** [Boolean(t)] for a thrown value: every object is truthy. *)
Definition thrown_truthy (t : thrown) : bool :=
  match t with
  | ThrownObject _ => true
  | ThrownPrimitive p => truthy (primitive_value p)
  end.

Inductive completion (A : Type) :=
| Return (a : A)
| Throw (e : thrown).
Arguments Return {A} a.
Arguments Throw {A} e.

(** A JavaScript computation over a world [W]: it may read and change the
    world, and either returns or throws. User-supplied functions (selectors,
    [mapStateToProps], [mergeProps], ...) are of this kind: nothing in the
    sources forces them to be pure. *)
Definition JS (W A : Type) : Type := W → completion A * W.

Global Instance JS_ret {W} : MRet (JS W) := λ A a w, (Return a, w).

Global Instance JS_bind {W} : MBind (JS W) := λ A B f m w,
  match m w with
  | (Return a, w') => f a w'
  | (Throw e, w') => (Throw e, w')
  end.

Definition throw {W A} (e : error) : JS W A := λ w, (Throw e, w).

(** [new Error(msg)]; [stack_trace] is the stack text the engine attaches
    to it. *)
Definition new_Error (stack_trace : string → string) (msg : string) : error :=
  {| message := msg; stack := stack_trace msg |}.

(** ** Facts about the value model *)

Lemma object_is_eq a b : object_is a b = true ↔ a = b.
Proof. unfold object_is. apply bool_decide_eq_true. Qed.

Lemma shallowEqual_refl h a : shallowEqual h a a = true.
Proof. unfold shallowEqual, object_is. by rewrite bool_decide_true. Qed.

(** Shallow equality only goes beyond identity on two object references. *)
Lemma shallowEqual_falsy h a b :
  truthy a = false → shallowEqual h a b = true → a = b.
Proof.
  unfold shallowEqual. destruct (object_is a b) eqn:E.
  - intros _ _. by apply object_is_eq.
  - destruct a; try discriminate; destruct b; discriminate.
Qed.

Lemma shallowEqual_falsy_r h a b :
  truthy b = false → shallowEqual h a b = true → a = b.
Proof.
  unfold shallowEqual. destruct (object_is a b) eqn:E.
  - intros _ _. by apply object_is_eq.
  - destruct a; try discriminate; destruct b; discriminate.
Qed.

(** Shallow equality, spelled out: identity, or two objects of the heap
    with the same properties. *)
Lemma shallowEqual_spec h a b :
  shallowEqual h a b = true
  ↔ a = b ∨ ∃ la lb oa ob,
      a = VRef la ∧ b = VRef lb ∧ h !! la = Some oa ∧ h !! lb = Some ob
      ∧ props oa = props ob.
Proof.
  unfold shallowEqual. destruct (object_is a b) eqn:E.
  - apply object_is_eq in E. split; [by left|done].
  - assert (a ≠ b) as Hne by (intros Heq; apply object_is_eq in Heq; congruence).
    split.
    + intros H. right. destruct a as [| | | | |la]; try done. destruct b as [| | | | |lb]; try done.
      destruct (h !! la) as [oa|] eqn:Ha; [|done]. destruct (h !! lb) as [ob|] eqn:Hb; [|done].
      apply andb_true_iff in H as [Hdom Hall].
      apply bool_decide_eq_true in Hdom. apply bool_decide_eq_true in Hall.
      exists la, lb, oa, ob. repeat split; try done.
      apply map_eq. intros k. destruct (props oa !! k) as [v|] eqn:Hk.
      * symmetry. by apply (Hall k v).
      * symmetry. apply not_elem_of_dom. rewrite <- Hdom. by apply not_elem_of_dom.
    + intros [?|(la & lb & oa & ob & -> & -> & Ha & Hb & Hp)]; [done|].
      rewrite Ha, Hb. apply andb_true_iff. split; apply bool_decide_eq_true.
      * by rewrite Hp.
      * rewrite Hp. by intros k v Hk.
Qed.

Lemma shallowEqual_sym h a b : shallowEqual h a b = true → shallowEqual h b a = true.
Proof.
  rewrite !shallowEqual_spec. intros [->|(la & lb & oa & ob & -> & -> & Ha & Hb & Hp)].
  - by left.
  - right. by exists lb, la, ob, oa.
Qed.

Lemma shallowEqual_trans h a b c :
  shallowEqual h a b = true → shallowEqual h b c = true → shallowEqual h a c = true.
Proof.
  rewrite !shallowEqual_spec.
  intros [->|(la & lb & oa & ob & -> & -> & Ha & Hb & Hp)]; [done|].
  intros [<-|(lb' & lc & ob' & oc & [= <-] & -> & Hb' & Hc & Hp')].
  - right. by exists la, lb, oa, ob.
  - right. exists la, lc, oa, oc. repeat split; try done. congruence.
Qed.

(** Objects that are never changed stay shallow-equal in a heap that only
    grows. *)
Lemma shallowEqual_grows h h' a b :
  h ⊆ h' → shallowEqual h a b = true → shallowEqual h' a b = true.
Proof.
  intros Hsub. rewrite !shallowEqual_spec.
  intros [->|(la & lb & oa & ob & -> & -> & Ha & Hb & Hp)]; [by left|].
  right. exists la, lb, oa, ob. repeat split; try done; by eapply lookup_weaken.
Qed.

(** What is shallow-equal to a truthy value is truthy. *)
Lemma shallowEqual_truthy h a b :
  shallowEqual h a b = true → truthy a = true → truthy b = true.
Proof.
  rewrite shallowEqual_spec. intros [->|(la & lb & oa & ob & -> & -> & _)]; done.
Qed.

Lemma strict_eq_refl a : truthy a = true → strict_eq a a = true.
Proof.
  destruct a as [| |b|[| |z]|s|l]; simpl; try done; intros _;
    try (by rewrite bool_decide_true).
  rewrite (bool_decide_true (Int z = Int z)) by done. apply orb_true_r.
Qed.

(** ** The final-props selector ([createPureFinalPropsSelector] and friends) *)

Module FinalPropsSelector.
Section Selectors.
(** The world the user-supplied stages run in, and the heap it holds. *)
Context {U : Type}.
Variable heap_of : U → gmap nat object.

(** Instrumented world: the user's world and a count of the calls made to
    [mergeProps]. The counter is not in the source; it is what makes
    "merge is (not) invoked" a statement about a run. *)
Record world := { user : U; mergeCalls : nat }.

(** A stage: a user function of [(state, props, dispatch)] (for the merge
    stage: of [(stateProps, dispatchProps, ownProps)]). *)
Definition stage : Type := value → value → value → JS U value.

Record options := {
  getState : stage;
  getDispatch : stage;
  getOwnProps : stage;
  mergeProps : stage;
  pure : bool
}.

(** Calling a user stage leaves the counter alone ... *)
Definition call (f : JS U value) : JS world value := λ w,
  let '(r, u) := f (user w) in (r, {| user := u; mergeCalls := mergeCalls w |}).

(** ... except for [mergeProps], whose every call is counted. *)
Definition call_merge (f : JS U value) : JS world value := λ w,
  let '(r, u) := f (user w) in (r, {| user := u; mergeCalls := S (mergeCalls w) |}).

Definition shallowEqualM (a b : value) : JS world bool := λ w,
  (Return (shallowEqual (heap_of (user w)) a b), w).

(** [impureSelector]: the arguments of [mergeProps] are evaluated left to
    right. *)
Definition impureSelector (o : options) (state props dispatch : value) : JS world value :=
  s ← call (getState o state props dispatch);
  d ← call (getDispatch o state props dispatch);
  p ← call (getOwnProps o state props dispatch);
  call_merge (mergeProps o s d p).

(** The five closure variables of [createPureFinalPropsSelector]. *)
Record memo := {
  lastOwn : value;
  lastState : value;
  lastDispatch : value;
  lastMerged : value;
  lastResult : value
}.

(** [let lastOwn = undefined ... let lastResult = undefined] *)
Definition createPureFinalPropsSelector : memo :=
  {| lastOwn := VUndefined; lastState := VUndefined; lastDispatch := VUndefined;
     lastMerged := VUndefined; lastResult := VUndefined |}.

(** The three input stages of one invocation, in the order of the source:
    own props, state, dispatch. *)
Definition inputs (o : options) (state props dispatch : value) : JS world (value * value * value) :=
  nextOwn ← call (getOwnProps o state props dispatch);
  nextState ← call (getState o state props dispatch);
  nextDispatch ← call (getDispatch o state props dispatch);
  mret (nextOwn, nextState, nextDispatch).

(** The body of [pureSelector] after the three inputs are known. A throw
    of [mergeProps] leaves every closure variable as it was: the
    assignments all come after the call. *)
Definition pureSelector_body (o : options) (m : memo) (nextOwn nextState nextDispatch : value)
  : JS world (value * memo) :=
  '(lastMerged', lastResult') ←
    (if strict_neq (lastOwn m) nextOwn
        || strict_neq (lastState m) nextState
        || strict_neq (lastDispatch m) nextDispatch
     then
       nextMerged ← call_merge (mergeProps o nextState nextDispatch nextOwn);
       eq ← shallowEqualM (lastMerged m) nextMerged;
       mret (nextMerged,
             if negb (truthy (lastMerged m)) || negb eq
             then nextMerged else lastResult m)
     else mret (lastMerged m, lastResult m));
  mret (lastResult',
        {| lastOwn := nextOwn; lastState := nextState; lastDispatch := nextDispatch;
           lastMerged := lastMerged'; lastResult := lastResult' |}).

Definition pureSelector (o : options) (m : memo) (state props dispatch : value)
  : JS world (value * memo) :=
  '(nextOwn, nextState, nextDispatch) ← inputs o state props dispatch;
  pureSelector_body o m nextOwn nextState nextDispatch.

(** [createFinalPropsSelector]: [options.pure] chooses the composition. *)
Definition finalPropsSelector (o : options) (m : memo) (state props dispatch : value)
  : JS world (value * memo) :=
  if pure o then pureSelector o m state props dispatch
  else r ← impureSelector o state props dispatch; mret (r, m).

(** The memo states a pure selector goes through: the initial one, and
    the one left by any invocation that returned. *)
Inductive reachable (o : options) : memo → Prop :=
| reachable_init : reachable o createPureFinalPropsSelector
| reachable_step m state props dispatch w r m' w' :
    reachable o m →
    pureSelector o m state props dispatch w = (Return (r, m'), w') →
    reachable o m'.

(** *** Running one invocation *)

(** Whether one of the three input references differs ([!==]) from the one
    kept from the previous invocation: the condition of line 24. *)
Definition inputs_changed (m : memo) (nextOwn nextState nextDispatch : value) : bool :=
  strict_neq (lastOwn m) nextOwn
  || strict_neq (lastState m) nextState
  || strict_neq (lastDispatch m) nextDispatch.

(** The value returned when merge was invoked and produced [nextMerged]:
    lines 26-28. *)
Definition next_result (h : gmap nat object) (m : memo) (nextMerged : value) : value :=
  if negb (truthy (lastMerged m)) || negb (shallowEqual h (lastMerged m) nextMerged)
  then nextMerged else lastResult m.

Ltac run_js :=
  unfold pureSelector, pureSelector_body, inputs, impureSelector, call, call_merge,
    shallowEqualM, inputs_changed, next_result, mbind, mret, JS_bind, JS_ret in *;
  simpl in *.

Lemma inputs_mergeCalls o state props dispatch w ins w1 :
  inputs o state props dispatch w = (Return ins, w1) →
  mergeCalls w1 = mergeCalls w.
Proof.
  run_js.
  destruct (getOwnProps o state props dispatch (user w)) as [[a|e] u1]; [|done].
  simpl. destruct (getState o state props dispatch u1) as [[b|e] u2]; [|done].
  simpl. destruct (getDispatch o state props dispatch u2) as [[c|e] u3]; [|done].
  by intros [= <- <-].
Qed.

Lemma pureSelector_inputs o m state props dispatch w nextOwn nextState nextDispatch w1 :
  inputs o state props dispatch w = (Return (nextOwn, nextState, nextDispatch), w1) →
  pureSelector o m state props dispatch w
  = pureSelector_body o m nextOwn nextState nextDispatch w1.
Proof. intros H. unfold pureSelector, mbind, JS_bind. by rewrite H. Qed.

Lemma pureSelector_returns o m state props dispatch w r m' w' :
  pureSelector o m state props dispatch w = (Return (r, m'), w') →
  ∃ nextOwn nextState nextDispatch w1,
    inputs o state props dispatch w = (Return (nextOwn, nextState, nextDispatch), w1)
    ∧ pureSelector_body o m nextOwn nextState nextDispatch w1 = (Return (r, m'), w').
Proof.
  unfold pureSelector, mbind, JS_bind.
  destruct (inputs o state props dispatch w) as [[[[a b] c]|e] w1] eqn:E; [|done].
  intros H. by exists a, b, c, w1.
Qed.

(** No input reference changed: merge is skipped and the world is untouched. *)
Lemma body_unchanged o m nextOwn nextState nextDispatch w :
  inputs_changed m nextOwn nextState nextDispatch = false →
  pureSelector_body o m nextOwn nextState nextDispatch w
  = (Return (lastResult m,
             {| lastOwn := nextOwn; lastState := nextState; lastDispatch := nextDispatch;
                lastMerged := lastMerged m; lastResult := lastResult m |}), w).
Proof. run_js. by intros ->. Qed.

(** Some input reference changed and [mergeProps] returned. *)
Lemma body_changed o m nextOwn nextState nextDispatch w nextMerged u :
  inputs_changed m nextOwn nextState nextDispatch = true →
  mergeProps o nextState nextDispatch nextOwn (user w) = (Return nextMerged, u) →
  pureSelector_body o m nextOwn nextState nextDispatch w
  = (Return (next_result (heap_of u) m nextMerged,
             {| lastOwn := nextOwn; lastState := nextState; lastDispatch := nextDispatch;
                lastMerged := nextMerged;
                lastResult := next_result (heap_of u) m nextMerged |}),
     {| user := u; mergeCalls := S (mergeCalls w) |}).
Proof. run_js. intros -> ->. done. Qed.

(** Some input reference changed and [mergeProps] threw. *)
Lemma body_changed_throw o m nextOwn nextState nextDispatch w e u :
  inputs_changed m nextOwn nextState nextDispatch = true →
  mergeProps o nextState nextDispatch nextOwn (user w) = (Throw e, u) →
  pureSelector_body o m nextOwn nextState nextDispatch w
  = (Throw e, {| user := u; mergeCalls := S (mergeCalls w) |}).
Proof. run_js. intros -> ->. done. Qed.

(** What an invocation that returned has left in the memo. *)
Lemma body_returns o m nextOwn nextState nextDispatch w r m' w' :
  pureSelector_body o m nextOwn nextState nextDispatch w = (Return (r, m'), w') →
  lastOwn m' = nextOwn ∧ lastState m' = nextState ∧ lastDispatch m' = nextDispatch
  ∧ lastResult m' = r
  ∧ (if inputs_changed m nextOwn nextState nextDispatch
     then mergeProps o nextState nextDispatch nextOwn (user w) = (Return (lastMerged m'), user w')
          ∧ mergeCalls w' = S (mergeCalls w)
          ∧ r = next_result (heap_of (user w')) m (lastMerged m')
     else lastMerged m' = lastMerged m ∧ r = lastResult m ∧ w' = w).
Proof.
  destruct (inputs_changed m nextOwn nextState nextDispatch) eqn:E.
  - destruct (mergeProps o nextState nextDispatch nextOwn (user w)) as [[nm|e] u] eqn:M.
    + rewrite (body_changed _ _ _ _ _ _ _ _ E M). intros [= <- <- <-]. by simpl.
    + rewrite (body_changed_throw _ _ _ _ _ _ _ _ E M). done.
  - rewrite (body_unchanged _ _ _ _ _ _ E). intros [= <- <- <-]. by simpl.
Qed.

(** The invariant behind line 26: while the last merged value is falsy, it
    is also the value handed out. With it, the test [!lastMerged] never
    makes the returned value differ from what shallow equality alone would
    give. *)
Lemma reachable_falsy_merged o m :
  reachable o m → truthy (lastMerged m) = false → lastResult m = lastMerged m.
Proof.
  induction 1 as [|m state props dispatch w r m' w' Hm IH Hrun]; [done|].
  apply pureSelector_returns in Hrun as (a & b & c & w1 & _ & Hbody).
  apply body_returns in Hbody as (_ & _ & _ & Hr & Hcase).
  destruct (inputs_changed m a b c).
  - destruct Hcase as (_ & _ & ->). intros Hf. rewrite Hr.
    unfold next_result.
    destruct (truthy (lastMerged m)) eqn:T; simpl; [|done].
    destruct (shallowEqual _ (lastMerged m) (lastMerged m')) eqn:S; simpl; [|done].
    apply shallowEqual_falsy_r in S; [|done]. congruence.
  - destruct Hcase as (-> & -> & _). rewrite Hr. intros Hf. by apply IH.
Qed.

Lemma next_result_reachable o m nextMerged h :
  reachable o m →
  next_result h m nextMerged
  = if shallowEqual h (lastMerged m) nextMerged then lastResult m else nextMerged.
Proof.
  intros Hm. unfold next_result.
  destruct (truthy (lastMerged m)) eqn:T; simpl.
  - by destruct (shallowEqual h (lastMerged m) nextMerged).
  - destruct (shallowEqual h (lastMerged m) nextMerged) eqn:S; [|done].
    apply shallowEqual_falsy in S; [|done].
    rewrite (reachable_falsy_merged o m Hm T). done.
Qed.

(** *** The properties of the pure composition *)

(** C2 (as the code has it): take two consecutive invocations of the pure
    final-props selector. If the own-props, state-derivation and
    dispatch-derivation stages of the second return values that are each
    identical ([===]) to what they returned in the first, then the second
    invocation does not call [mergeProps] and returns the very value the
    first returned. Identity of references is what the code tests; shallow
    equality of the stage results is not enough (see the counterexample
    below). *)
Theorem pure_output_stability o m0 w0
    state1 props1 dispatch1 own1 st1 di1 wi1 r1 m1 w1
    state2 props2 dispatch2 own2 st2 di2 w2 :
  inputs o state1 props1 dispatch1 w0 = (Return (own1, st1, di1), wi1) →
  pureSelector o m0 state1 props1 dispatch1 w0 = (Return (r1, m1), w1) →
  inputs o state2 props2 dispatch2 w1 = (Return (own2, st2, di2), w2) →
  strict_eq own1 own2 = true →
  strict_eq st1 st2 = true →
  strict_eq di1 di2 = true →
  ∃ m2, pureSelector o m1 state2 props2 dispatch2 w1 = (Return (r1, m2), w2)
        ∧ mergeCalls w2 = mergeCalls w1
        ∧ lastResult m2 = r1.
Proof.
  intros Hin1 Hrun1 Hin2 Eo Es Ed.
  rewrite (pureSelector_inputs _ _ _ _ _ _ _ _ _ _ Hin1) in Hrun1.
  apply body_returns in Hrun1 as (Ho & Hs & Hd & Hr & _).
  rewrite (pureSelector_inputs _ _ _ _ _ _ _ _ _ _ Hin2).
  rewrite body_unchanged.
  - rewrite Hr. eexists. split; [done|]. split; [|done].
    by apply inputs_mergeCalls in Hin2.
  - unfold inputs_changed, strict_neq. by rewrite Ho, Hs, Hd, Eo, Es, Ed.
Qed.


(** *** Runs over objects that are never changed

    The memo states a pure selector goes through, each with the world it
    was left in, when neither the stages nor the code that runs between two
    invocations changes or removes an object of the heap: the heap only
    grows. *)
Inductive growing_run (o : options) : memo → world → Prop :=
| growing_init w : growing_run o createPureFinalPropsSelector w
| growing_idle m w w' :
    growing_run o m w →
    heap_of (user w) ⊆ heap_of (user w') →
    growing_run o m w'
| growing_step m state props dispatch w r m' w' :
    growing_run o m w →
    pureSelector o m state props dispatch w = (Return (r, m'), w') →
    heap_of (user w) ⊆ heap_of (user w') →
    growing_run o m' w'.


(** *** The first invocation *)

Lemma inputs_changed_init nextOwn nextState nextDispatch :
  inputs_changed createPureFinalPropsSelector nextOwn nextState nextDispatch
  = negb (bool_decide (nextOwn = VUndefined ∧ nextState = VUndefined
                       ∧ nextDispatch = VUndefined)).
Proof.
  assert (∀ x, strict_neq VUndefined x = negb (bool_decide (x = VUndefined))) as H.
  { intros x. unfold strict_neq. f_equal.
    destruct x as [| | |[| |z]| |]; simpl; try done. }
  unfold inputs_changed. simpl. rewrite !H.
  destruct (decide (nextOwn = VUndefined)) as [E1|E1];
    destruct (decide (nextState = VUndefined)) as [E2|E2];
    destruct (decide (nextDispatch = VUndefined)) as [E3|E3];
    rewrite ?(bool_decide_true _ E1), ?(bool_decide_false _ E1),
      ?(bool_decide_true _ E2), ?(bool_decide_false _ E2),
      ?(bool_decide_true _ E3), ?(bool_decide_false _ E3); simpl;
    (rewrite bool_decide_true by done) || (rewrite bool_decide_false by (by intros (? & ? & ?)));
    done.
Qed.

(** X2: the very first invocation of a pure selector calls [mergeProps]
    and returns what it returned, unless the three stages all return
    [undefined]: the closure variables start as [undefined], so such
    results count as unchanged, [mergeProps] is not called and [undefined]
    is returned. *)
Theorem first_invocation_merges_unless_all_undefined o state props dispatch w
    nextOwn nextState nextDispatch w1 :
  inputs o state props dispatch w = (Return (nextOwn, nextState, nextDispatch), w1) →
  if bool_decide (nextOwn = VUndefined ∧ nextState = VUndefined ∧ nextDispatch = VUndefined)
  then pureSelector o createPureFinalPropsSelector state props dispatch w
       = (Return (VUndefined, createPureFinalPropsSelector), w1)
       ∧ mergeCalls w1 = mergeCalls w
  else ∀ nextMerged u,
      mergeProps o nextState nextDispatch nextOwn (user w1) = (Return nextMerged, u) →
      pureSelector o createPureFinalPropsSelector state props dispatch w
      = (Return (nextMerged,
                 {| lastOwn := nextOwn; lastState := nextState; lastDispatch := nextDispatch;
                    lastMerged := nextMerged; lastResult := nextMerged |}),
         {| user := u; mergeCalls := S (mergeCalls w) |}).
Proof.
  intros Hin. rewrite (pureSelector_inputs _ _ _ _ _ _ _ _ _ _ Hin).
  pose proof (inputs_mergeCalls _ _ _ _ _ _ _ Hin) as Hcalls.
  pose proof (inputs_changed_init nextOwn nextState nextDispatch) as Hch.
  case_bool_decide as E; simpl in Hch.
  - destruct E as (-> & -> & ->). by rewrite (body_unchanged _ _ _ _ _ _ Hch).
  - intros nextMerged u Hmerge.
    by rewrite (body_changed _ _ _ _ _ _ _ _ Hch Hmerge), Hcalls.
Qed.

(** The same pipeline with [options.pure] set to [b]. *)
Definition with_pure (o : options) (b : bool) : options :=
  {| getState := getState o; getDispatch := getDispatch o; getOwnProps := getOwnProps o;
     mergeProps := mergeProps o; pure := b |}.

(** The value returned (or the error thrown) and the world left, without
    the closure variables. *)
Definition outcome (r : completion (value * memo) * world) : completion value * world :=
  match r with
  | (Return (v, _), w) => (Return v, w)
  | (Throw e, w) => (Throw e, w)
  end.

(** X3: [options.pure] does not change what the first call of the selector
    made by [createFinalPropsSelector] gives. When the three input stages
    are pure functions of their arguments (they return the same value in
    every world and leave the world as it is) and do not all return
    [undefined], the first invocation gives, with [pure] set or not, the
    same value or the same error of [mergeProps], the same world, and one
    call of [mergeProps]. The pure and the impure selector evaluate the
    stages in a different order, which such stages cannot observe. *)
Theorem pure_first_invocation_agrees_with_impure o state props dispatch w own st di :
  (∀ u, getOwnProps o state props dispatch u = (Return own, u)) →
  (∀ u, getState o state props dispatch u = (Return st, u)) →
  (∀ u, getDispatch o state props dispatch u = (Return di, u)) →
  ¬ (own = VUndefined ∧ st = VUndefined ∧ di = VUndefined) →
  outcome (finalPropsSelector (with_pure o true) createPureFinalPropsSelector
             state props dispatch w)
  = outcome (finalPropsSelector (with_pure o false) createPureFinalPropsSelector
               state props dispatch w)
  ∧ (outcome (finalPropsSelector (with_pure o false) createPureFinalPropsSelector
                state props dispatch w)).2
    = {| user := (mergeProps o st di own (user w)).2; mergeCalls := S (mergeCalls w) |}.
Proof.
  intros Hown Hst Hdi Hsome. unfold finalPropsSelector. simpl.
  assert (inputs (with_pure o true) state props dispatch w = (Return (own, st, di), w)) as Hin.
  { unfold inputs, call, mbind, mret, JS_bind, JS_ret. simpl.
    rewrite Hown. simpl. rewrite Hst. simpl. rewrite Hdi. by destruct w. }
  assert (impureSelector (with_pure o false) state props dispatch w
          = call_merge (mergeProps o st di own) w) as Himpure.
  { unfold impureSelector, call, mbind, JS_bind. simpl.
    rewrite Hst. simpl. rewrite Hdi. simpl. rewrite Hown. by destruct w. }
  rewrite (pureSelector_inputs _ _ _ _ _ _ _ _ _ _ Hin).
  pose proof (inputs_changed_init own st di) as Hch.
  rewrite bool_decide_false in Hch by done. simpl in Hch.
  unfold mbind at 1 2, JS_bind at 1 2. rewrite Himpure. unfold call_merge.
  destruct (mergeProps o st di own (user w)) as [[nextMerged|e] u] eqn:Hmerge.
  - by rewrite (body_changed (with_pure o true) _ _ _ _ _ _ _ Hch Hmerge).
  - by rewrite (body_changed_throw (with_pure o true) _ _ _ _ _ _ _ Hch Hmerge).
Qed.

End Selectors.

(** *** A concrete pipeline *)

(** Plain objects: [1] and [2] are two distinct objects with the same
    content [{a: 1}]; [3] is [{}]; [4] is [{dispatch: <5>}]; [6] is
    [{s: <1>}] and [7] is [{s: <2>}]. *)
Definition example_heap : gmap nat object :=
  <[1 := {| plain := true; props := {["a" := VNum (Int 1)]} |}]>
  (<[2 := {| plain := true; props := {["a" := VNum (Int 1)]} |}]>
  (<[3 := {| plain := true; props := ∅ |}]>
  (<[4 := {| plain := true; props := {["dispatch" := VRef 5]} |}]>
  (<[6 := {| plain := true; props := {["s" := VRef 1]} |}]>
  (<[7 := {| plain := true; props := {["s" := VRef 2]} |}]> ∅))))).

(** [stateProps => ({ s: stateProps })] on the two state objects of the
    example: the wrappers of [1] and [2] are the objects [6] and [7]. *)
Definition example_wrap (stateProps : value) : value :=
  match stateProps with
  | VRef 1 => VRef 6
  | VRef 2 => VRef 7
  | _ => stateProps
  end.

(** [getState = state => state], [getOwnProps = (_, props) => props],
    [getDispatch = (_, _, dispatch) => dispatch] and
    [mergeProps = stateProps => ({ s: stateProps })]. *)
Definition example_options : options (U := gmap nat object) :=
  {| getState := λ state _ _ u, (Return state, u);
     getDispatch := λ _ _ dispatch u, (Return dispatch, u);
     getOwnProps := λ _ props _ u, (Return props, u);
     mergeProps := λ stateProps _ _ u, (Return (example_wrap stateProps), u);
     pure := true |}.

Definition example_world (n : nat) : world (U := gmap nat object) :=
  {| user := example_heap; mergeCalls := n |}.

(** The memo after a first invocation on state [1], props [3], dispatch [4]. *)
Definition example_memo : memo :=
  {| lastOwn := VRef 3; lastState := VRef 1; lastDispatch := VRef 4;
     lastMerged := VRef 6; lastResult := VRef 6 |}.

Example example_first_invocation :
  pureSelector id example_options createPureFinalPropsSelector
    (VRef 1) (VRef 3) (VRef 4) (example_world 0)
  = (Return (VRef 6, example_memo), example_world 1).
Proof. vm_compute. reflexivity. Qed.

Lemma pure_output_stability_witness :
  ∃ m2, pureSelector id example_options example_memo (VRef 1) (VRef 3) (VRef 4) (example_world 1)
        = (Return (VRef 6, m2), example_world 1)
        ∧ mergeCalls (example_world 1) = mergeCalls (example_world 1)
        ∧ lastResult m2 = VRef 6.
Proof.
  apply (pure_output_stability id example_options createPureFinalPropsSelector (example_world 0)
           (VRef 1) (VRef 3) (VRef 4) (VRef 3) (VRef 1) (VRef 4) (example_world 0)
           (VRef 6) example_memo (example_world 1)
           (VRef 1) (VRef 3) (VRef 4) (VRef 3) (VRef 1) (VRef 4) (example_world 1));
    reflexivity.
Defined.

(** C2 as the specification words it fails: in the second of these two
    invocations every stage returns a value shallow-equal to what it
    returned in the first (the state stage returns object [2] after object
    [1], both [{a: 1}]), and yet [mergeProps] is called again, and the
    value returned is a new one. *)
Lemma pure_output_stability_shallow_counterexample :
  inputs example_options (VRef 1) (VRef 3) (VRef 4) (example_world 0)
  = (Return (VRef 3, VRef 1, VRef 4), example_world 0)
  ∧ pureSelector id example_options createPureFinalPropsSelector
      (VRef 1) (VRef 3) (VRef 4) (example_world 0)
    = (Return (VRef 6, example_memo), example_world 1)
  ∧ inputs example_options (VRef 2) (VRef 3) (VRef 4) (example_world 1)
    = (Return (VRef 3, VRef 2, VRef 4), example_world 1)
  ∧ shallowEqual example_heap (VRef 3) (VRef 3) = true
  ∧ shallowEqual example_heap (VRef 1) (VRef 2) = true
  ∧ shallowEqual example_heap (VRef 4) (VRef 4) = true
  ∧ ∃ m2, pureSelector id example_options example_memo
            (VRef 2) (VRef 3) (VRef 4) (example_world 1)
          = (Return (VRef 7, m2), example_world 2)
          ∧ mergeCalls (example_world 2) ≠ mergeCalls (example_world 1)
          ∧ VRef 7 ≠ VRef 6.
Proof.
  repeat split; try (vm_compute; reflexivity).
  eexists. split; [vm_compute; reflexivity|]. split; [simpl; lia|done].
Qed.


(** With a merge function that copies the state object's properties, the
    same second invocation calls merge again but hands out the previous
    result: the value tier absorbs what the reference tier let through. *)
Example example_value_tier :
  let o := {| getState := getState example_options;
              getDispatch := getDispatch example_options;
              getOwnProps := getOwnProps example_options;
              mergeProps := λ stateProps _ _ u, (Return stateProps, u);
              pure := true |} in
  let m := {| lastOwn := VRef 3; lastState := VRef 1; lastDispatch := VRef 4;
              lastMerged := VRef 1; lastResult := VRef 1 |} in
  ∃ m', pureSelector id o m (VRef 2) (VRef 3) (VRef 4) (example_world 1)
        = (Return (VRef 1, m'), example_world 2)
        ∧ lastMerged m' = VRef 2.
Proof. eexists. split; [vm_compute; reflexivity|done]. Qed.

(** The pipeline of [example_value_tier]: [mergeProps] hands back the state
    object. After state [1] and then state [2], the selector still hands
    out object [1] while the last merged value is object [2]. *)
Definition example_copy_options : options (U := gmap nat object) :=
  {| getState := getState example_options;
     getDispatch := getDispatch example_options;
     getOwnProps := getOwnProps example_options;
     mergeProps := λ stateProps _ _ u, (Return stateProps, u);
     pure := true |}.


(** A first invocation in which every stage returns [undefined]. *)
Lemma first_invocation_merges_unless_all_undefined_witness :
  pureSelector id example_options createPureFinalPropsSelector
    VUndefined VUndefined VUndefined (example_world 0)
  = (Return (VUndefined, createPureFinalPropsSelector), example_world 0)
  ∧ mergeCalls (example_world 0) = mergeCalls (example_world 0).
Proof.
  exact (first_invocation_merges_unless_all_undefined id example_options
           VUndefined VUndefined VUndefined (example_world 0)
           VUndefined VUndefined VUndefined (example_world 0) eq_refl).
Defined.

Lemma pure_first_invocation_agrees_with_impure_witness :
  outcome (finalPropsSelector id (with_pure example_options true) createPureFinalPropsSelector
             (VRef 1) (VRef 3) (VRef 4) (example_world 0))
  = outcome (finalPropsSelector id (with_pure example_options false)
               createPureFinalPropsSelector (VRef 1) (VRef 3) (VRef 4) (example_world 0))
  ∧ (outcome (finalPropsSelector id (with_pure example_options false)
                createPureFinalPropsSelector (VRef 1) (VRef 3) (VRef 4) (example_world 0))).2
    = example_world 1.
Proof.
  apply (pure_first_invocation_agrees_with_impure id example_options
           (VRef 1) (VRef 3) (VRef 4) (example_world 0) (VRef 3) (VRef 1) (VRef 4)).
  - intros u. reflexivity.
  - intros u. reflexivity.
  - intros u. reflexivity.
  - intros (H & _ & _). discriminate H.
Defined.

End FinalPropsSelector.

(** ** The own-props selectors ([buildOwnPropsSelector] and friends) *)

Module OwnPropsSelector.

(** [impureOwnPropsSelector(_, props)]. *)
Definition impureOwnPropsSelector (_ props : value) : value := props.

(** The two closure variables of [buildPureOwnPropsSelector]. *)
Record memo := { lastProps : value; lastResult : value }.

(** [let lastProps = undefined; let lastResult = undefined] *)
Definition buildPureOwnPropsSelector : memo :=
  {| lastProps := VUndefined; lastResult := VUndefined |}.

(** [pureOwnPropsSelector(_, nextProps)], called when the heap is [h]: the
    value returned and the closure variables it leaves. *)
Definition pureOwnPropsSelector (h : gmap nat object) (m : memo) (_ nextProps : value)
  : value * memo :=
  let lastResult' :=
    if negb (truthy (lastProps m)) || negb (shallowEqual h (lastProps m) nextProps)
    then nextProps else lastResult m in
  (lastResult', {| lastProps := nextProps; lastResult := lastResult' |}).

(** [buildOwnPropsSelector(pure)]: the selector it returns. The impure one
    has no closure variable and leaves [m] alone. *)
Definition buildOwnPropsSelector (pure : bool) (h : gmap nat object) (m : memo)
    (state props : value) : value * memo :=
  if pure then pureOwnPropsSelector h m state props
  else (impureOwnPropsSelector state props, m).

(** A sequence of calls of [pureOwnPropsSelector], each with the heap of its
    moment and its two arguments; the values returned, in order. *)
Fixpoint calls (m : memo) (l : list (gmap nat object * value * value)) : list value :=
  match l with
  | [] => []
  | (h, state, nextProps) :: l' =>
      let '(r, m') := pureOwnPropsSelector h m state nextProps in r :: calls m' l'
  end.

(** Each props value of the sequence is shallow-equal, when it is passed,
    to the one passed before it. *)
Fixpoint chained (prev : value) (l : list (gmap nat object * value * value)) : Prop :=
  match l with
  | [] => True
  | (h, _, nextProps) :: l' => shallowEqual h prev nextProps = true ∧ chained nextProps l'
  end.

(** The closure states of a pure own-props selector whose props objects
    are never changed: the heap only grows between two calls. *)
Inductive growing_calls : memo → gmap nat object → Prop :=
| growing_calls_init h : growing_calls buildPureOwnPropsSelector h
| growing_calls_idle m h h' : growing_calls m h → h ⊆ h' → growing_calls m h'
| growing_calls_step m h state nextProps :
    growing_calls m h →
    growing_calls (pureOwnPropsSelector h m state nextProps).2 h.

Lemma growing_calls_invariant m h :
  growing_calls m h → shallowEqual h (lastProps m) (lastResult m) = true.
Proof.
  induction 1 as [h|m h h' Hrun IH Hsub|m h state nextProps Hrun IH].
  - apply shallowEqual_refl.
  - by apply shallowEqual_grows with h.
  - simpl. destruct (truthy (lastProps m)); simpl; [|apply shallowEqual_refl].
    destruct (shallowEqual h (lastProps m) nextProps) eqn:S; simpl; [|apply shallowEqual_refl].
    apply shallowEqual_trans with (lastProps m); [by apply shallowEqual_sym|done].
Qed.

(** X4: a pure own-props selector whose props objects are never changed
    returns, at every call, a value shallow-equal to the props it is given:
    the reference it keeps is never out of date in content. *)
Theorem own_props_result_shallow_equal m h state nextProps :
  growing_calls m h →
  shallowEqual h nextProps (pureOwnPropsSelector h m state nextProps).1 = true.
Proof.
  intros Hrun.
  apply growing_calls_invariant in Hrun as Hinv.
  simpl. destruct (truthy (lastProps m)); simpl; [|apply shallowEqual_refl].
  destruct (shallowEqual h (lastProps m) nextProps) eqn:S; simpl; [|apply shallowEqual_refl].
  apply shallowEqual_trans with (lastProps m); [by apply shallowEqual_sym|done].
Qed.

Lemma calls_chained m l :
  truthy (lastProps m) = true →
  chained (lastProps m) l →
  calls m l = replicate (length l) (lastResult m).
Proof.
  revert m. induction l as [|[[h state] nextProps] l IH]; intros m Ht Hc; [done|].
  destruct Hc as [Hs Hc]. simpl. rewrite Ht, Hs. simpl. f_equal.
  rewrite IH; [done| |done]. simpl. by eapply shallowEqual_truthy.
Qed.

(** X5: while each props value is shallow-equal to the one passed just
    before it (the first being truthy), every call of the sequence returns
    the reference the first call returned. *)
Theorem own_props_reference_kept m h state props l :
  truthy props = true →
  chained props l →
  calls m ((h, state, props) :: l) = replicate (S (length l)) (pureOwnPropsSelector h m state props).1.
Proof.
  intros Ht Hc. cbn [calls].
  destruct (pureOwnPropsSelector h m state props) as [r m'] eqn:E.
  assert (lastProps m' = props ∧ lastResult m' = r) as [Hp Hr].
  { unfold pureOwnPropsSelector in E. by injection E as <- <-. }
  simpl. f_equal. rewrite <- Hr. apply calls_chained; by rewrite Hp.
Qed.

(** *** The own-props selector as a stage of the final-props selector *)

Section Pipeline.
Context {V : Type}.
Variable heap_of : V → gmap nat object.

(** The heap of a world that also holds the closure variables of the
    own-props selector. *)
Definition heap_with_memo (u : memo * V) : gmap nat object := heap_of u.2.

(** The selector returned by [buildOwnPropsSelector(pure)] as the
    [getOwnProps] stage: it is called with [(state, props, dispatch)] and
    its closure variables are part of the world. *)
Definition ownPropsStage (pure : bool) : FinalPropsSelector.stage (U := memo * V) :=
  λ state props _ u,
    let '(r, m) := buildOwnPropsSelector pure (heap_of u.2) u.1 state props in
    (Return r, (m, u.2)).

(** Any other stage: a user function, which cannot reach the closure
    variables of the own-props selector. *)
Definition userStage (f : FinalPropsSelector.stage (U := V))
  : FinalPropsSelector.stage (U := memo * V) :=
  λ a b c u, let '(r, v) := f a b c u.2 in (r, (u.1, v)).

Definition pipeline (pure : bool) (getState getDispatch mergeProps : FinalPropsSelector.stage (U := V))
  : FinalPropsSelector.options (U := memo * V) :=
  {| FinalPropsSelector.getState := userStage getState;
     FinalPropsSelector.getDispatch := userStage getDispatch;
     FinalPropsSelector.getOwnProps := ownPropsStage pure;
     FinalPropsSelector.mergeProps := userStage mergeProps;
     FinalPropsSelector.pure := pure |}.

Lemma pipeline_inputs pure gs gd mp state props dispatch w own st di w1 :
  FinalPropsSelector.inputs (pipeline pure gs gd mp) state props dispatch w
  = (Return (own, st, di), w1) →
  (own, (FinalPropsSelector.user w1).1)
  = buildOwnPropsSelector pure (heap_of (FinalPropsSelector.user w).2)
      (FinalPropsSelector.user w).1 state props.
Proof.
  unfold FinalPropsSelector.inputs, FinalPropsSelector.call, mbind, mret, JS_bind, JS_ret.
  simpl. unfold ownPropsStage, userStage.
  destruct (buildOwnPropsSelector pure _ _ state props) as [r m]. simpl.
  destruct (gs state props dispatch _) as [[b|e] v1]; [|done]. simpl.
  destruct (gd state props dispatch _) as [[c|e] v2]; [|done]. simpl.
  by intros [= <- <- <- <-].
Qed.

Lemma pipeline_body_memo pure gs gd mp m a b c w r m' w' :
  FinalPropsSelector.pureSelector_body heap_with_memo (pipeline pure gs gd mp) m a b c w
  = (Return (r, m'), w') →
  (FinalPropsSelector.user w').1 = (FinalPropsSelector.user w).1.
Proof.
  intros H. apply FinalPropsSelector.body_returns in H as (_ & _ & _ & _ & Hcase).
  destruct (FinalPropsSelector.inputs_changed m a b c).
  - destruct Hcase as (Hm & _). simpl in Hm. unfold userStage in Hm.
    destruct (mp b c a _) as [r' v]. by injection Hm as _ <-.
  - by destruct Hcase as (_ & _ & ->).
Qed.

(** X6: the pure final-props selector fed by the pure own-props selector.
    Take two consecutive invocations, the first with truthy props. If the
    props of the second are shallow-equal to those of the first, and the
    state and dispatch stages return values identical ([===]) to what they
    returned in the first, then the own-props stage returns the reference
    it returned in the first, [mergeProps] is not called and the value of
    the first invocation is returned. *)
Theorem shallow_equal_props_skip_merge gs gd mp m0 w0
    state1 props1 dispatch1 own1 st1 di1 wi1 r1 m1 w1
    state2 props2 dispatch2 own2 st2 di2 w2 :
  let o := pipeline true gs gd mp in
  shallowEqual (heap_with_memo (FinalPropsSelector.user w0))
    (lastProps (FinalPropsSelector.user w0).1) (lastResult (FinalPropsSelector.user w0).1) = true →
  FinalPropsSelector.inputs o state1 props1 dispatch1 w0 = (Return (own1, st1, di1), wi1) →
  FinalPropsSelector.pureSelector heap_with_memo o m0 state1 props1 dispatch1 w0
  = (Return (r1, m1), w1) →
  FinalPropsSelector.inputs o state2 props2 dispatch2 w1 = (Return (own2, st2, di2), w2) →
  truthy props1 = true →
  shallowEqual (heap_with_memo (FinalPropsSelector.user w1)) props1 props2 = true →
  strict_eq st1 st2 = true →
  strict_eq di1 di2 = true →
  own2 = own1
  ∧ ∃ m2, FinalPropsSelector.pureSelector heap_with_memo o m1 state2 props2 dispatch2 w1
          = (Return (r1, m2), w2)
          ∧ FinalPropsSelector.mergeCalls w2 = FinalPropsSelector.mergeCalls w1.
Proof.
  intros o Hinv Hin1 Hrun1 Hin2 Ht Hs Es Ed.
  rewrite (FinalPropsSelector.pureSelector_inputs _ _ _ _ _ _ _ _ _ _ _ Hin1) in Hrun1.
  pose proof (pipeline_body_memo _ _ _ _ _ _ _ _ _ _ _ _ Hrun1) as Hmemo.
  apply FinalPropsSelector.body_returns in Hrun1 as (Ho & Hst & Hdi & Hr & _).
  apply pipeline_inputs in Hin1 as Hown1. apply pipeline_inputs in Hin2 as Hown2.
  simpl in Hown1, Hown2. unfold pureOwnPropsSelector in Hown1.
  injection Hown1 as Hown1 Hmemo1.
  (* the reference returned by the first invocation is truthy *)
  assert (truthy own1 = true) as Hto.
  { rewrite Hown1.
    destruct (truthy (lastProps (FinalPropsSelector.user w0).1)) eqn:T; simpl; [|done].
    destruct (shallowEqual _ (lastProps (FinalPropsSelector.user w0).1) props1); simpl; [|done].
    by eapply shallowEqual_truthy. }
  (* the second invocation finds the props of the first in the closure *)
  rewrite Hmemo, Hmemo1 in Hown2. unfold pureOwnPropsSelector in Hown2. simpl in Hown2.
  unfold heap_with_memo in Hs. rewrite Ht, Hs in Hown2. simpl in Hown2.
  injection Hown2 as Hown2 _. rewrite <- Hown1 in Hown2.
  split; [done|].
  rewrite (FinalPropsSelector.pureSelector_inputs _ _ _ _ _ _ _ _ _ _ _ Hin2).
  rewrite FinalPropsSelector.body_unchanged.
  - rewrite Hr. eexists. split; [done|].
    by apply FinalPropsSelector.inputs_mergeCalls in Hin2.
  - unfold FinalPropsSelector.inputs_changed, strict_neq.
    rewrite Ho, Hst, Hdi, Es, Ed, Hown2. by rewrite strict_eq_refl.
Qed.

End Pipeline.

(** *** A concrete sequence *)

Lemma own_props_result_shallow_equal_witness :
  shallowEqual FinalPropsSelector.example_heap (VRef 2)
    (pureOwnPropsSelector FinalPropsSelector.example_heap
       {| lastProps := VRef 1; lastResult := VRef 1 |} VUndefined (VRef 2)).1 = true.
Proof.
  apply own_props_result_shallow_equal.
  apply (growing_calls_step buildPureOwnPropsSelector FinalPropsSelector.example_heap
           VUndefined (VRef 1)).
  apply growing_calls_init.
Defined.

(** Objects [1] and [2] are both [{a: 1}]: passing [1], [2], [1], [2] gives
    [1] four times. *)
Lemma own_props_reference_kept_witness :
  calls buildPureOwnPropsSelector
    [(FinalPropsSelector.example_heap, VUndefined, VRef 1);
     (FinalPropsSelector.example_heap, VUndefined, VRef 2);
     (FinalPropsSelector.example_heap, VUndefined, VRef 1);
     (FinalPropsSelector.example_heap, VUndefined, VRef 2)]
  = replicate 4 (VRef 1).
Proof.
  apply (own_props_reference_kept buildPureOwnPropsSelector FinalPropsSelector.example_heap
           VUndefined (VRef 1)
           [(FinalPropsSelector.example_heap, VUndefined, VRef 2);
            (FinalPropsSelector.example_heap, VUndefined, VRef 1);
            (FinalPropsSelector.example_heap, VUndefined, VRef 2)]).
  - reflexivity.
  - vm_compute. done.
Defined.

(** Without the memo, the same sequence gives the props as they come. *)
Example example_impure_own_props :
  (buildOwnPropsSelector false FinalPropsSelector.example_heap
     {| lastProps := VRef 1; lastResult := VRef 1 |} VUndefined (VRef 2)).1 = VRef 2.
Proof. reflexivity. Qed.

(** [getState = state => state], [getDispatch = (_, _, dispatch) => dispatch],
    [mergeProps = (_, _, ownProps) => ({ s: ownProps })], and the pure
    own-props selector. *)
Definition example_pipeline : FinalPropsSelector.options (U := memo * gmap nat object) :=
  pipeline id true
    (λ state _ _ u, (Return state, u))
    (λ _ _ dispatch u, (Return dispatch, u))
    (λ _ _ ownProps u, (Return (FinalPropsSelector.example_wrap ownProps), u)).

Definition example_pipeline_world (m : memo) (n : nat)
  : FinalPropsSelector.world (U := memo * gmap nat object) :=
  {| FinalPropsSelector.user := (m, FinalPropsSelector.example_heap);
     FinalPropsSelector.mergeCalls := n |}.

(** Props [1], then props [2] (another [{a: 1}]): merge is not called
    again. *)
Lemma shallow_equal_props_skip_merge_witness :
  VRef 1 = VRef 1
  ∧ ∃ m2, FinalPropsSelector.pureSelector (heap_with_memo id) example_pipeline
            {| FinalPropsSelector.lastOwn := VRef 1; FinalPropsSelector.lastState := VRef 3;
               FinalPropsSelector.lastDispatch := VRef 4;
               FinalPropsSelector.lastMerged := VRef 6;
               FinalPropsSelector.lastResult := VRef 6 |}
            (VRef 3) (VRef 2) (VRef 4)
            (example_pipeline_world {| lastProps := VRef 1; lastResult := VRef 1 |} 1)
          = (Return (VRef 6, m2),
             example_pipeline_world {| lastProps := VRef 2; lastResult := VRef 1 |} 1)
          ∧ FinalPropsSelector.mergeCalls
              (example_pipeline_world {| lastProps := VRef 2; lastResult := VRef 1 |} 1)
            = FinalPropsSelector.mergeCalls
                (example_pipeline_world {| lastProps := VRef 1; lastResult := VRef 1 |} 1).
Proof.
  apply (shallow_equal_props_skip_merge id _ _ _
           FinalPropsSelector.createPureFinalPropsSelector
           (example_pipeline_world buildPureOwnPropsSelector 0)
           (VRef 3) (VRef 1) (VRef 4) (VRef 1) (VRef 3) (VRef 4)
           (example_pipeline_world {| lastProps := VRef 1; lastResult := VRef 1 |} 0)
           (VRef 6) _ (example_pipeline_world {| lastProps := VRef 1; lastResult := VRef 1 |} 1)
           (VRef 3) (VRef 2) (VRef 4) (VRef 1) (VRef 3) (VRef 4)
           (example_pipeline_world {| lastProps := VRef 2; lastResult := VRef 1 |} 1));
    vm_compute; reflexivity.
Defined.

End OwnPropsSelector.

(** ** The memoizer of the final stage ([memoizeFinalPropsSelector]) *)

Module MemoizeFinalPropsSelector.
Section Memoize.
Context {U : Type}.
Variable heap_of : U → gmap nat object.

(** Instrumented world: the user's world and a count of the calls made to
    [enhance]. The counter is not in the source. *)
Record world := { user : U; enhanceCalls : nat }.

(** The two closure variables of [memoizeFinalPropsSelector]. *)
Record memo := { lastProps : value; lastResult : value }.

(** [let lastProps = undefined; let lastResult = undefined] *)
Definition memoizeFinalPropsSelector : memo :=
  {| lastProps := VUndefined; lastResult := VUndefined |}.

Definition call_selector (f : JS U value) : JS world value := λ w,
  let '(r, u) := f (user w) in (r, {| user := u; enhanceCalls := enhanceCalls w |}).

Definition call_enhance (f : JS U value) : JS world value := λ w,
  let '(r, u) := f (user w) in (r, {| user := u; enhanceCalls := S (enhanceCalls w) |}).

(** The test of line 53, in the heap of the moment. *)
Definition stale (m : memo) (nextProps : value) : JS world bool := λ w,
  (Return (negb (truthy (lastProps m))
           || negb (shallowEqual (heap_of (user w)) (lastProps m) nextProps)), w).

(** [memoize(state, ownProps, dispatch)]. A throw of [selector] or of
    [enhance] leaves both closure variables as they were: the assignments
    come after the calls. *)
Definition memoize (selector : value → value → value → JS U value) (enhance : value → JS U value)
    (m : memo) (state ownProps dispatch : value) : JS world (value * memo) :=
  nextProps ← call_selector (selector state ownProps dispatch);
  test ← stale m nextProps;
  lastResult' ← (if test : bool then call_enhance (enhance nextProps)
                 else mret (lastResult m));
  mret (lastResult', {| lastProps := nextProps; lastResult := lastResult' |}).

(** A sequence of invocations, each with its three arguments; the values
    returned, in order. *)
Fixpoint invocations (selector : value → value → value → JS U value) (enhance : value → JS U value)
    (m : memo) (args : list (value * value * value)) : JS world (list value * memo) :=
  match args with
  | [] => mret ([], m)
  | (state, ownProps, dispatch) :: args' =>
      '(r, m') ← memoize selector enhance m state ownProps dispatch;
      '(rs, m'') ← invocations selector enhance m' args';
      mret (r :: rs, m'')
  end.

Ltac run_memoize :=
  unfold memoize, stale, call_selector, call_enhance, mbind, mret, JS_bind, JS_ret; simpl.

(** One invocation whose selector result is shallow-equal to the truthy
    one kept: [enhance] is not called. *)
Lemma memoize_fresh selector enhance m state ownProps dispatch w nextProps u :
  selector state ownProps dispatch (user w) = (Return nextProps, u) →
  truthy (lastProps m) = true →
  shallowEqual (heap_of u) (lastProps m) nextProps = true →
  memoize selector enhance m state ownProps dispatch w
  = (Return (lastResult m, {| lastProps := nextProps; lastResult := lastResult m |}),
     {| user := u; enhanceCalls := enhanceCalls w |}).
Proof. run_memoize. intros -> -> H. simpl. by rewrite H. Qed.

(** One invocation that finds a falsy value kept: [enhance] is called. *)
Lemma memoize_falsy selector enhance m state ownProps dispatch w nextProps u r u' :
  selector state ownProps dispatch (user w) = (Return nextProps, u) →
  truthy (lastProps m) = false →
  enhance nextProps u = (Return r, u') →
  memoize selector enhance m state ownProps dispatch w
  = (Return (r, {| lastProps := nextProps; lastResult := r |}),
     {| user := u'; enhanceCalls := S (enhanceCalls w) |}).
Proof. run_memoize. intros -> -> H. simpl. by rewrite H. Qed.

Lemma invocations_fresh selector enhance v args :
  (∀ state ownProps dispatch u, ∃ v' u',
      selector state ownProps dispatch u = (Return v', u')
      ∧ heap_of u ⊆ heap_of u' ∧ shallowEqual (heap_of u') v v' = true) →
  truthy v = true →
  ∀ m w,
    shallowEqual (heap_of (user w)) v (lastProps m) = true →
    ∃ m' w',
      invocations selector enhance m args w
      = (Return (replicate (length args) (lastResult m), m'), w')
      ∧ lastResult m' = lastResult m
      ∧ enhanceCalls w' = enhanceCalls w.
Proof.
  intros Hsel Hv. induction args as [|[[state ownProps] dispatch] args IH]; intros m w Hinv.
  - by exists m, w.
  - destruct (Hsel state ownProps dispatch (user w)) as (v' & u' & Hcall & Hsub & Heq).
    assert (shallowEqual (heap_of u') (lastProps m) v' = true) as Hfresh.
    { apply shallowEqual_trans with v; [|done].
      apply shallowEqual_sym. by apply shallowEqual_grows with (heap_of (user w)). }
    cbn [invocations]. unfold mbind at 1, JS_bind at 1.
    rewrite (memoize_fresh _ _ _ _ _ _ _ _ _ Hcall); [|by eapply shallowEqual_truthy|done].
    destruct (IH {| lastProps := v'; lastResult := lastResult m |}
                {| user := u'; enhanceCalls := enhanceCalls w |})
      as (m' & w' & Hrun & Hlast & Hcalls); [done|].
    exists m', w'. unfold mbind, JS_bind. rewrite Hrun. done.
Qed.

(** X7: a selector whose results all have the content of one truthy
    object [v] (each is shallow-equal to [v]; objects are never changed),
    memoized from scratch: over any sequence of invocations [enhance] is
    called exactly once, in the first invocation and on the selector result
    of that invocation, and every invocation returns the value [r] which
    that call of [enhance] returned; [r] is also what the closure keeps as
    [lastResult]. *)
Theorem enhance_once_while_shallow_equal selector enhance v state ownProps dispatch args w :
  (∀ state ownProps dispatch u, ∃ v' u',
      selector state ownProps dispatch u = (Return v', u')
      ∧ heap_of u ⊆ heap_of u' ∧ shallowEqual (heap_of u') v v' = true) →
  (∀ x u, ∃ r u', enhance x u = (Return r, u') ∧ heap_of u ⊆ heap_of u') →
  truthy v = true →
  ∃ nextProps u1 r u2 m' w',
    selector state ownProps dispatch (user w) = (Return nextProps, u1)
    ∧ enhance nextProps u1 = (Return r, u2)
    ∧ memoize selector enhance memoizeFinalPropsSelector state ownProps dispatch w
      = (Return (r, {| lastProps := nextProps; lastResult := r |}),
         {| user := u2; enhanceCalls := S (enhanceCalls w) |})
    ∧ invocations selector enhance memoizeFinalPropsSelector
        ((state, ownProps, dispatch) :: args) w
      = (Return (replicate (S (length args)) r, m'), w')
    ∧ lastResult m' = r
    ∧ enhanceCalls w' = S (enhanceCalls w).
Proof.
  intros Hsel Henh Hv.
  destruct (Hsel state ownProps dispatch (user w)) as (v' & u1 & Hcall & _ & Heq).
  destruct (Henh v' u1) as (r & u2 & Hcall' & Hsub).
  pose proof (memoize_falsy _ _ memoizeFinalPropsSelector _ _ _ _ _ _ _ _ Hcall eq_refl Hcall')
    as Hfirst.
  destruct (invocations_fresh selector enhance v args Hsel Hv
              {| lastProps := v'; lastResult := r |}
              {| user := u2; enhanceCalls := S (enhanceCalls w) |})
    as (m' & w' & Hrun & Hlast & Hcalls).
  { simpl. by apply shallowEqual_grows with (heap_of u1). }
  exists v', u1, r, u2, m', w'. repeat split; try done.
  cbn [invocations]. unfold mbind at 1, JS_bind at 1. rewrite Hfirst.
  unfold mbind, JS_bind. by rewrite Hrun.
Qed.

(** X8: the memoizer does nothing for a selector whose results are falsy
    ([undefined], [null], [0], ...): the test [!lastProps] sends every
    invocation to [enhance], also when the result is the same as before. *)
Theorem enhance_always_on_falsy selector enhance args m w :
  (∀ state ownProps dispatch u, ∃ v' u',
      selector state ownProps dispatch u = (Return v', u') ∧ truthy v' = false) →
  (∀ x u, ∃ r u', enhance x u = (Return r, u')) →
  truthy (lastProps m) = false →
  ∃ rs m' w',
    invocations selector enhance m args w = (Return (rs, m'), w')
    ∧ enhanceCalls w' = enhanceCalls w + length args.
Proof.
  intros Hsel Henh. revert m w.
  induction args as [|[[state ownProps] dispatch] args IH]; intros m w Hm.
  - exists [], m, w. split; [done|]. simpl. lia.
  - destruct (Hsel state ownProps dispatch (user w)) as (v' & u1 & Hcall & Hf).
    destruct (Henh v' u1) as (r & u2 & Hcall').
    destruct (IH {| lastProps := v'; lastResult := r |}
                {| user := u2; enhanceCalls := S (enhanceCalls w) |} Hf)
      as (rs & m' & w' & Hrun & Hcalls).
    exists (r :: rs), m', w'.
    cbn [invocations]. unfold mbind at 1, JS_bind at 1.
    rewrite (memoize_falsy _ _ _ _ _ _ _ _ _ _ _ Hcall Hm Hcall').
    unfold mbind, JS_bind. rewrite Hrun. split; [done|]. rewrite Hcalls. simpl. lia.
Qed.

End Memoize.

(** *** A concrete memoizer *)

(** A selector that answers with object [1] or object [2], both [{a: 1}],
    and [enhance = props => ({ s: props })]. *)
Definition example_selector (state _ _ : value) : JS () value := λ u,
  (Return (if bool_decide (state = VRef 1) then VRef 1 else VRef 2), u).

Definition example_enhance (nextProps : value) : JS () value := λ u,
  (Return (FinalPropsSelector.example_wrap nextProps), u).

Definition example_fixed_heap (_ : ()) : gmap nat object := FinalPropsSelector.example_heap.

Lemma enhance_once_while_shallow_equal_witness :
  ∃ nextProps u1 r u2 m' w',
    example_selector (VRef 1) VUndefined VUndefined () = (Return nextProps, u1)
    ∧ example_enhance nextProps u1 = (Return r, u2)
    ∧ memoize example_fixed_heap example_selector example_enhance memoizeFinalPropsSelector
        (VRef 1) VUndefined VUndefined {| user := (); enhanceCalls := 0 |}
      = (Return (r, {| lastProps := nextProps; lastResult := r |}),
         {| user := u2; enhanceCalls := 1 |})
    ∧ invocations example_fixed_heap example_selector example_enhance memoizeFinalPropsSelector
        [(VRef 1, VUndefined, VUndefined); (VRef 2, VUndefined, VUndefined);
         (VRef 1, VUndefined, VUndefined)]
        {| user := (); enhanceCalls := 0 |}
      = (Return (replicate 3 r, m'), w')
    ∧ lastResult m' = r
    ∧ enhanceCalls w' = 1.
Proof.
  apply (enhance_once_while_shallow_equal example_fixed_heap example_selector example_enhance
           (VRef 1) (VRef 1) VUndefined VUndefined
           [(VRef 2, VUndefined, VUndefined); (VRef 1, VUndefined, VUndefined)]
           {| user := (); enhanceCalls := 0 |}).
  - intros state ownProps dispatch u. eexists _, u. split; [reflexivity|]. split; [done|].
    destruct (bool_decide (state = VRef 1)); vm_compute; reflexivity.
  - intros x u. eexists _, u. split; [reflexivity|done].
  - reflexivity.
Defined.

(** What the three invocations return: the object made by the first call
    of [enhance]. *)
Example example_memoized :
  invocations example_fixed_heap example_selector example_enhance memoizeFinalPropsSelector
    [(VRef 1, VUndefined, VUndefined); (VRef 2, VUndefined, VUndefined);
     (VRef 1, VUndefined, VUndefined)]
    {| user := (); enhanceCalls := 0 |}
  = (Return ([VRef 6; VRef 6; VRef 6], {| lastProps := VRef 1; lastResult := VRef 6 |}),
     {| user := (); enhanceCalls := 1 |}).
Proof. vm_compute. reflexivity. Qed.

(** A selector that always answers [null]. *)
Lemma enhance_always_on_falsy_witness :
  ∃ rs m' w',
    invocations example_fixed_heap (λ _ _ _ u, (Return VNull, u)) example_enhance
      memoizeFinalPropsSelector
      [(VRef 1, VUndefined, VUndefined); (VRef 1, VUndefined, VUndefined);
       (VRef 1, VUndefined, VUndefined)]
      {| user := (); enhanceCalls := 0 |}
    = (Return (rs, m'), w')
    ∧ enhanceCalls w' = 0 + 3.
Proof.
  apply (enhance_always_on_falsy example_fixed_heap (λ _ _ _ u, (Return VNull, u)) example_enhance
           [(VRef 1, VUndefined, VUndefined); (VRef 1, VUndefined, VUndefined);
            (VRef 1, VUndefined, VUndefined)]
           memoizeFinalPropsSelector {| user := (); enhanceCalls := 0 |}).
  - intros state ownProps dispatch u. eexists _, u. split; reflexivity.
  - intros x u. eexists _, u. reflexivity.
  - reflexivity.
Defined.

End MemoizeFinalPropsSelector.

(** ** Choosing a selector factory ([createMatchingSelector]) *)

Module MatchingSelector.
Section Matching.
(** The world the factories run in; the types of [options], of
    [getOwnProps] and of the selectors the factories make. *)
Context {W Options OwnProps Selector : Type}.

(** A factory is called with [(options, getOwnProps)] and returns a
    selector, or something falsy ([None]) when it declines. *)
Definition factory : Type := Options → OwnProps → JS W (option Selector).

(** The loop of lines 2-5 once [i] has come down to the factories [l],
    listed from the one of highest index. *)
Fixpoint first_match (l : list factory) (options : Options) (getOwnProps : OwnProps)
  : JS W (option Selector) :=
  match l with
  | [] => mret None
  | f :: l' =>
      selector ← f options getOwnProps;
      match selector : option Selector with
      | Some s => mret (Some s)
      | None => first_match l' options getOwnProps
      end
  end.

(** [createMatchingSelector(factories, options, getOwnProps)]: from
    [factories.length - 1] down to [0]; [undefined] ([None]) when the loop
    ends. *)
Definition createMatchingSelector (factories : list factory) (options : Options)
    (getOwnProps : OwnProps) : JS W (option Selector) :=
  first_match (reverse factories) options getOwnProps.

(** The factories of a list all decline, when called one after the other
    from the last to the first, from world [w] to world [w']. *)
Fixpoint declined (l : list factory) (options : Options) (getOwnProps : OwnProps)
    (w w' : W) : Prop :=
  match l with
  | [] => w' = w
  | f :: l' => ∃ w1, f options getOwnProps w = (Return None, w1)
                     ∧ declined l' options getOwnProps w1 w'
  end.

Lemma first_match_declined l options getOwnProps w w' :
  first_match l options getOwnProps w = (Return None, w')
  ↔ declined l options getOwnProps w w'.
Proof.
  revert w. induction l as [|f l IH]; intros w; simpl.
  - unfold mret, JS_ret. split; [by intros [= ->]|by intros ->].
  - unfold mbind, JS_bind.
    destruct (f options getOwnProps w) as [[[s|]|e] w1] eqn:E.
    + split; [done|]. by intros (? & [=] & _).
    + rewrite IH. split; [by exists w1|]. by intros (? & [= <-] & ?).
    + split; [done|]. by intros (? & [=] & _).
Qed.

Lemma first_match_app l1 l2 options getOwnProps w w1 :
  declined l1 options getOwnProps w w1 →
  first_match (l1 ++ l2) options getOwnProps w = first_match l2 options getOwnProps w1.
Proof.
  revert w. induction l1 as [|f l1 IH]; intros w; simpl.
  - by intros ->.
  - intros (w0 & Hf & Hd). unfold mbind, JS_bind. rewrite Hf. by apply IH.
Qed.

(** X9: the factories are tried from the last to the first, and the first
    one to return a selector ends the search: when the factories after [f]
    all decline and [f] returns a selector, that selector is the result,
    whatever the factories before [f] would have answered; they are not
    called (the world is the one [f] left). *)
Theorem later_factory_takes_precedence before f after options getOwnProps w w1 s w2 :
  declined (reverse after) options getOwnProps w w1 →
  f options getOwnProps w1 = (Return (Some s), w2) →
  createMatchingSelector (before ++ f :: after) options getOwnProps w = (Return (Some s), w2).
Proof.
  intros Hd Hf. unfold createMatchingSelector.
  rewrite reverse_app, reverse_cons, <- app_assoc.
  rewrite (first_match_app _ _ _ _ _ _ Hd). simpl.
  unfold mbind, JS_bind. by rewrite Hf.
Qed.

(** X10: a factory that throws ends the search with its error: the
    factories before it are not called. *)
Theorem throwing_factory_ends_search before f after options getOwnProps w w1 e w2 :
  declined (reverse after) options getOwnProps w w1 →
  f options getOwnProps w1 = (Throw e, w2) →
  createMatchingSelector (before ++ f :: after) options getOwnProps w = (Throw e, w2).
Proof.
  intros Hd Hf. unfold createMatchingSelector.
  rewrite reverse_app, reverse_cons, <- app_assoc.
  rewrite (first_match_app _ _ _ _ _ _ Hd). simpl.
  unfold mbind, JS_bind. by rewrite Hf.
Qed.

(** X11: the result is [undefined] exactly when every factory was called,
    from the last to the first, and each declined; in particular for an
    empty list of factories. *)
Theorem no_match_is_undefined factories options getOwnProps w w' :
  createMatchingSelector factories options getOwnProps w = (Return None, w')
  ↔ declined (reverse factories) options getOwnProps w w'.
Proof. apply first_match_declined. Qed.

End Matching.

(** *** Three factories *)

(** The first always makes selector [0]; the second makes selector [1] when
    the option is set; the third always declines. Each call is counted in
    the world. *)
Definition example_factory : Type :=
  factory (W := nat) (Options := bool) (OwnProps := ()) (Selector := nat).

Definition example_always : example_factory := λ _ _ n, (Return (Some 0), S n).

Definition example_optional : example_factory :=
  λ options _ n, (Return (if options then Some 1 else None), S n).

Definition example_never : example_factory := λ _ _ n, (Return None, S n).

Definition example_factories : list example_factory :=
  [example_always; example_optional; example_never].

Lemma later_factory_takes_precedence_witness :
  createMatchingSelector example_factories true () 0 = (Return (Some 1), 2).
Proof.
  apply (later_factory_takes_precedence [example_always] example_optional [example_never]
           true () 0 1 1 2).
  - simpl. by exists 1.
  - reflexivity.
Defined.

Definition example_failing : example_factory :=
  λ _ _ n, (Throw {| message := "unsupported"; stack := "Error: unsupported" |}, S n).

Lemma throwing_factory_ends_search_witness :
  createMatchingSelector [example_always; example_failing; example_never] true () 0
  = (Throw {| message := "unsupported"; stack := "Error: unsupported" |}, 2).
Proof.
  apply (throwing_factory_ends_search [example_always] example_failing [example_never]
           true () 0 1 _ 2).
  - simpl. by exists 1.
  - reflexivity.
Defined.

Example example_fallback :
  createMatchingSelector example_factories false () 0 = (Return (Some 0), 3).
Proof. reflexivity. Qed.

End MatchingSelector.

(** ** The declarative wrapper ([createConnect.js]) *)

Module Connect.

(** *** The store, as its contract describes it

    The store is not part of this repository. What the wrapper relies on is
    [getState()], the function [dispatch] (here the reference [storeDispatch]),
    and [subscribe(listener)] returning a function that removes
    that registration. A registration is identified by a token; a listener
    is either the bound [handleChange] of the instance under study or some
    other subscriber. *)
Inductive listener :=
| HandleChange
| Foreign (k : nat).

Record Store := {
  storeState : value;
  storeListeners : list (nat * listener);
  nextToken : nat;
  storeDispatch : value
}.

Definition getState (s : Store) : value := storeState s.

(** [store.subscribe(l)]: the registration is appended; the result is the
    token of the returned unsubscribe function and the new store. *)
Definition subscribe (l : listener) (s : Store) : nat * Store :=
  (nextToken s,
   {| storeState := storeState s;
      storeListeners := storeListeners s ++ [(nextToken s, l)];
      nextToken := S (nextToken s);
      storeDispatch := storeDispatch s |}).

(** Calling the unsubscribe function with token [t]. *)
Definition unsubscribe_call (t : nat) (s : Store) : Store :=
  {| storeState := storeState s;
     storeListeners := filter (λ r, r.1 ≠ t) (storeListeners s);
     nextToken := nextToken s;
     storeDispatch := storeDispatch s |}.

(** *** [invariant(condition, format, ...args)]

    The [invariant] package: when the condition fails it throws an [Error]
    whose message is the format with each [%s] replaced by the next
    argument. *)
Fixpoint sprintf (format : string) (args : list string) : string :=
  match format with
  | String "%"%char (String "s"%char rest) =>
      match args with
      | a :: args' => a +:+ sprintf rest args'
      | [] => "undefined" +:+ sprintf rest []
      end
  | String c rest => String c (sprintf rest args)
  | EmptyString => EmptyString
  end.

(** [s] between double quotes. *)
Definition quoted (s : string) : string :=
  String (Ascii.ascii_of_nat 34) (s +:+ String (Ascii.ascii_of_nat 34) EmptyString).

(** The field [this.unsubscribe]: never assigned by the constructor, set to
    the function returned by [store.subscribe], reset to [null]. *)
Inductive handle :=
| HUndefined
| HNull
| HFunction (token : nat).

Definition handle_truthy (u : handle) : bool :=
  match u with HFunction _ => true | _ => false end.

(** What [handleChange] does beyond its guard: it reads the store state and
    schedules an update with [setState]. The trace records both. *)
Inductive event :=
| EvGetState
| EvSetState (storeState : value).

(** A [Connect] instance. [trace] is instrumentation. *)
Record Instance := {
  store : Store;
  stateProps : value;
  dispatchProps : value;
  nextState : value;
  unsubscribe : handle;
  trace : list event
}.

Definition with_subscription (c : Instance) (s : Store) (u : handle) : Instance :=
  {| store := s; stateProps := stateProps c; dispatchProps := dispatchProps c;
     nextState := nextState c; unsubscribe := u; trace := trace c |}.

Definition with_events (c : Instance) (evs : list event) : Instance :=
  {| store := store c; stateProps := stateProps c; dispatchProps := dispatchProps c;
     nextState := nextState c; unsubscribe := unsubscribe c; trace := trace c ++ evs |}.

Definition with_storeState (c : Instance) (v : value) : Instance :=
  {| store := {| storeState := v; storeListeners := storeListeners (store c);
                 nextToken := nextToken (store c);
                 storeDispatch := storeDispatch (store c) |};
     stateProps := stateProps c; dispatchProps := dispatchProps c;
     nextState := nextState c; unsubscribe := unsubscribe c; trace := trace c |}.

Section Connect.
Context {W : Type}.
Variable heap_of : W → gmap nat object.
(** The string conversion applied to a value substituted for [%s]. *)
Variable toString : value → string.
(** The stack text the engine attaches to a new [Error]. *)
Variable stack_trace : string → string.
(** Evaluation of an object literal with the given properties. *)
Variable new_object : gmap string value → JS W value.

(** A JavaScript function: its [length] and its behaviour on an argument
    list. *)
Record jsfun := { arity : nat; apply : list value → JS W value }.

(** [mapDispatchToProps] may also be a plain object of action creators. *)
Inductive dispatch_arg :=
| DAbsent
| DFunction (f : jsfun)
| DObject (actionCreators : value).

(** The arguments of [connect(mapStateToProps, mapDispatchToProps,
    mergeProps, options)]; an absent (or otherwise falsy) argument is [None]. *)
Variable mapStateToProps : option jsfun.
Variable mapDispatchToProps : dispatch_arg.
Variable mergeProps : option jsfun.
(** [utils/wrapActionCreators] is imported but not among the sources. *)
Variable wrapActionCreators : value → jsfun.

Definition invariant (condition : bool) (format : string) (args : list value) : JS W () :=
  if condition then mret () else throw (new_Error stack_trace (sprintf format (toString <$> args))).

Definition isPlainObjectM (v : value) : JS W bool := λ w,
  (Return (isPlainObject (heap_of w) v), w).

Definition arg (args : list value) (i : nat) : value := default VUndefined (args !! i).

(** The own enumerable properties an object spread copies. *)
Definition own_props (h : gmap nat object) (v : value) : gmap string value :=
  match v with
  | VRef l => match h !! l with Some o => props o | None => ∅ end
  | _ => ∅
  end.

(** Lines 8-14. *)
Definition defaultMapStateToProps : jsfun :=
  {| arity := 0; apply := λ _, new_object ∅ |}.

Definition defaultMapDispatchToProps : jsfun :=
  {| arity := 1; apply := λ args, new_object {["dispatch" := arg args 0]} |}.

Definition defaultMergeProps : jsfun :=
  {| arity := 3;
     apply := λ args w,
       new_object (own_props (heap_of w) (arg args 1)
                   ∪ own_props (heap_of w) (arg args 0)
                   ∪ own_props (heap_of w) (arg args 2)) w |}.

(** Lines 28-35. *)
Definition shouldSubscribe : bool := bool_decide (is_Some mapStateToProps).

Definition finalMapStateToProps : jsfun := default defaultMapStateToProps mapStateToProps.

Definition finalMapDispatchToProps : jsfun :=
  match mapDispatchToProps with
  | DObject actionCreators => wrapActionCreators actionCreators
  | DFunction f => f
  | DAbsent => defaultMapDispatchToProps
  end.

Definition finalMergeProps : jsfun := default defaultMergeProps mergeProps.

Definition shouldUpdateStateProps : bool := bool_decide (1 < arity finalMapStateToProps).

Definition shouldUpdateDispatchProps : bool := bool_decide (1 < arity finalMapDispatchToProps).

(** The three stage invocations (lines 43-45, 57-59 and 70). *)
Definition call_mapState (s : Store) (props : value) : JS W value :=
  let state := getState s in
  if shouldUpdateStateProps
  then apply finalMapStateToProps [state; props]
  else apply finalMapStateToProps [state].

Definition call_mapDispatch (dispatch props : value) : JS W value :=
  if shouldUpdateDispatchProps
  then apply finalMapDispatchToProps [dispatch; props]
  else apply finalMapDispatchToProps [dispatch].

Definition call_mergeProps (stateProps dispatchProps parentProps : value) : JS W value :=
  apply finalMergeProps [stateProps; dispatchProps; parentProps].

Definition computeStateProps (s : Store) (props : value) : JS W value :=
  stateProps ← call_mapState s props;
  ok ← isPlainObjectM stateProps;
  _ ← invariant ok "`mapStateToProps` must return an object. Instead received %s." [stateProps];
  mret stateProps.

Definition computeDispatchProps (s : Store) (props : value) : JS W value :=
  let dispatch := storeDispatch s in
  dispatchProps ← call_mapDispatch dispatch props;
  ok ← isPlainObjectM dispatchProps;
  _ ← invariant ok "`mapDispatchToProps` must return an object. Instead received %s." [dispatchProps];
  mret dispatchProps.

Definition computeNextState (stateProps dispatchProps parentProps : value) : JS W value :=
  mergedProps ← call_mergeProps stateProps dispatchProps parentProps;
  ok ← isPlainObjectM mergedProps;
  _ ← invariant ok "`mergeProps` must return an object. Instead received %s." [mergedProps];
  mret mergedProps.

(** The constructor (lines 111-127), once the store has been looked up in
    the props and the context: [None] when neither has one. *)
Definition constructor (displayName : string) (found : option Store)
    (props : value) : JS W Instance :=
  match found with
  | None =>
      throw (new_Error stack_trace ("Could not find " +:+ quoted "store"
                        +:+ " in either the context or props of " +:+ quoted displayName
                        +:+ ". Either wrap the root component in a <Provider>, or explicitly pass "
                        +:+ quoted "store" +:+ " as a prop to " +:+ quoted displayName +:+ "."))
  | Some s =>
      stateProps ← computeStateProps s props;
      dispatchProps ← computeDispatchProps s props;
      nextState ← computeNextState stateProps dispatchProps props;
      mret {| store := s; stateProps := stateProps; dispatchProps := dispatchProps;
              nextState := nextState; unsubscribe := HUndefined; trace := [] |}
  end.

(** Lines 161-195. *)
Definition isSubscribed (c : Instance) : bool :=
  match unsubscribe c with HFunction _ => true | _ => false end.

Definition handleChange (c : Instance) : Instance :=
  if negb (handle_truthy (unsubscribe c)) then c
  else with_events c [EvGetState; EvSetState (getState (store c))].

Definition trySubscribe (c : Instance) : Instance :=
  if shouldSubscribe && negb (handle_truthy (unsubscribe c))
  then
    let '(token, s) := subscribe HandleChange (store c) in
    handleChange (with_subscription c s (HFunction token))
  else c.

Definition tryUnsubscribe (c : Instance) : Instance :=
  match unsubscribe c with
  | HFunction token => with_subscription c (unsubscribe_call token (store c)) HNull
  | _ => c
  end.

Definition componentDidMount (c : Instance) : Instance := trySubscribe c.

Definition componentWillUnmount (c : Instance) : Instance := tryUnsubscribe c.

(** *** The store notifying its listeners

    A dispatch installs the new state and calls every listener registered
    at that moment. Only [handleChange] acts on the instance. *)
Definition notify (l : listener) (c : Instance) : Instance :=
  match l with
  | HandleChange => handleChange c
  | Foreign _ => c
  end.

Definition dispatch (newState : value) (c : Instance) : Instance :=
  foldl (λ c r, notify r.2 c) (with_storeState c newState) (storeListeners (store c)).

(** The life of an instance, as seen from outside. *)
Inductive lifecycle :=
| Mount
| Unmount
| Dispatch (newState : value).

Definition lifecycle_step (c : Instance) (o : lifecycle) : Instance :=
  match o with
  | Mount => componentDidMount c
  | Unmount => componentWillUnmount c
  | Dispatch v => dispatch v c
  end.

Definition lifecycle_run (ops : list lifecycle) (c : Instance) : Instance := foldl lifecycle_step c ops.

(** *** Updating the derived props (lines 82-109 and 129-159)

    The update methods assign fields of the instance one at a time, and an
    assignment made before a later call throws stays made: they are
    computations over the instance together with the user's world. *)

(** [options.pure], [undefined] when the option is absent. *)
Variable options_pure : value.

(** [const { pure = true } = options]: the default stands in for
    [undefined] only; the code then tests [!pure]. *)
Definition pure : bool :=
  match options_pure with
  | VUndefined => true
  | v => truthy v
  end.

(** A user function or a helper, run from a method. *)
Definition run {A} (f : JS W A) : JS (Instance * W) A := λ cw,
  let '(r, w) := f cw.2 in (r, (cw.1, w)).

Definition this : JS (Instance * W) Instance := λ cw, (Return cw.1, cw).

Definition with_stateProps (c : Instance) (v : value) : Instance :=
  {| store := store c; stateProps := v; dispatchProps := dispatchProps c;
     nextState := nextState c; unsubscribe := unsubscribe c; trace := trace c |}.

Definition with_dispatchProps (c : Instance) (v : value) : Instance :=
  {| store := store c; stateProps := stateProps c; dispatchProps := v;
     nextState := nextState c; unsubscribe := unsubscribe c; trace := trace c |}.

Definition with_nextState (c : Instance) (v : value) : Instance :=
  {| store := store c; stateProps := stateProps c; dispatchProps := dispatchProps c;
     nextState := v; unsubscribe := unsubscribe c; trace := trace c |}.

Definition assign (f : Instance → value → Instance) (v : value) : JS (Instance * W) () := λ cw,
  (Return (), (f cw.1 v, cw.2)).

Definition shallowEqualW (a b : value) : JS W bool := λ w,
  (Return (shallowEqual (heap_of w) a b), w).

(** The method [computeNextState(props)] (lines 129-135). *)
Definition this_computeNextState (props : value) : JS (Instance * W) value :=
  c ← this;
  run (computeNextState (stateProps c) (dispatchProps c) props).

(** Lines 137-145. *)
Definition updateStateProps (props : value) : JS (Instance * W) bool :=
  c ← this;
  nextStateProps ← run (computeStateProps (store c) props);
  c ← this;
  same ← run (shallowEqualW nextStateProps (stateProps c));
  if same : bool then mret false
  else _ ← assign with_stateProps nextStateProps; mret true.

(** Lines 147-155. *)
Definition updateDispatchProps (props : value) : JS (Instance * W) bool :=
  c ← this;
  nextDispatchProps ← run (computeDispatchProps (store c) props);
  c ← this;
  same ← run (shallowEqualW nextDispatchProps (dispatchProps c));
  if same : bool then mret false
  else _ ← assign with_dispatchProps nextDispatchProps; mret true.

(** Lines 157-159. *)
Definition updateState (props : value) : JS (Instance * W) () :=
  nextState ← this_computeNextState props;
  assign with_nextState nextState.

(** [shouldComponentUpdate(nextProps, nextState)] (lines 82-109); the
    instance's current [this.props] and [this.state.storeState], which the
    method reads and the framework owns, are its first two arguments here. *)
Definition shouldComponentUpdate (this_props this_storeState nextProps next_storeState : value)
  : JS (Instance * W) bool :=
  if negb pure then
    _ ← updateStateProps nextProps;
    _ ← updateDispatchProps nextProps;
    _ ← updateState nextProps;
    mret true
  else
    let storeChanged := strict_neq next_storeState this_storeState in
    same ← run (shallowEqualW nextProps this_props);
    let propsChanged := negb same in
    mapStateProducedChange ←
      (if storeChanged || (propsChanged && shouldUpdateStateProps)
       then updateStateProps nextProps else mret false);
    dispatchPropsChanged ←
      (if propsChanged && shouldUpdateDispatchProps
       then updateDispatchProps nextProps else mret false);
    if propsChanged || mapStateProducedChange || dispatchPropsChanged
    then _ ← updateState nextProps; mret true
    else mret false.

(** *** The store's listener list *)

(** Every token handed out so far is below the next one. *)
Definition tokens_fresh (s : Store) : Prop :=
  ∀ r, r ∈ storeListeners s → r.1 < nextToken s.

(** The registration the instance holds, if it holds one. *)
Definition own_registration (c : Instance) : list (nat * listener) :=
  match unsubscribe c with
  | HFunction token => [(token, HandleChange)]
  | _ => []
  end.

(** What the listener list of the store looks like while the instance
    lives: the registrations [L0] it found, all with tokens below [n0],
    followed by its own registration if it holds one. *)
Definition listeners_invariant (L0 : list (nat * listener)) (n0 : nat) (c : Instance) : Prop :=
  storeListeners (store c) = L0 ++ own_registration c
  ∧ (∀ r, r ∈ L0 → r.1 < n0)
  ∧ n0 ≤ nextToken (store c)
  ∧ (∀ token, unsubscribe c = HFunction token → n0 ≤ token < nextToken (store c)).

(** An update method leaves the subscription side of the instance alone. *)
Definition same_subscription (c c' : Instance) : Prop :=
  store c' = store c ∧ unsubscribe c' = unsubscribe c ∧ trace c' = trace c.

(** *** Stage results that are not plain objects *)

Lemma invariant_violated format args :
  invariant false format args = throw (new_Error stack_trace (sprintf format (toString <$> args))).
Proof. done. Qed.

Ltac run_stage H Hplain :=
  unfold computeStateProps, computeDispatchProps, computeNextState, mbind, JS_bind;
  rewrite H; unfold isPlainObjectM; rewrite Hplain; reflexivity.

(** C7: whenever the state-derivation, dispatch-derivation or merge stage
    returns a value that is not a plain object, the function that invoked it
    ([computeStateProps], [computeDispatchProps], [computeNextState]) throws
    to its caller, in the same call, an error whose message names the stage
    ([mapStateToProps], [mapDispatchToProps], [mergeProps]) and contains the
    string form of the value received. *)
Theorem non_mapping_stage_result_is_fatal :
  (∀ s props w v w',
      call_mapState s props w = (Return v, w') →
      isPlainObject (heap_of w') v = false →
      computeStateProps s props w
      = (Throw (new_Error stack_trace ("`mapStateToProps` must return an object. Instead received "
                           +:+ toString v +:+ ".")), w'))
  ∧ (∀ s props w v w',
      call_mapDispatch (storeDispatch s) props w = (Return v, w') →
      isPlainObject (heap_of w') v = false →
      computeDispatchProps s props w
      = (Throw (new_Error stack_trace ("`mapDispatchToProps` must return an object. Instead received "
                           +:+ toString v +:+ ".")), w'))
  ∧ (∀ stateProps dispatchProps parentProps w v w',
      call_mergeProps stateProps dispatchProps parentProps w = (Return v, w') →
      isPlainObject (heap_of w') v = false →
      computeNextState stateProps dispatchProps parentProps w
      = (Throw (new_Error stack_trace ("`mergeProps` must return an object. Instead received "
                           +:+ toString v +:+ ".")), w')).
Proof.
  repeat split; intros until w'; intros H Hplain; run_stage H Hplain.
Qed.

(** A plain result is handed back unchanged. *)
Lemma computeStateProps_plain s props w v w' :
  call_mapState s props w = (Return v, w') →
  isPlainObject (heap_of w') v = true →
  computeStateProps s props w = (Return v, w').
Proof. intros H Hplain. run_stage H Hplain. Qed.

(** *** Subscribing and unsubscribing *)

Lemma handleChange_unsubscribed c :
  handle_truthy (unsubscribe c) = false → handleChange c = c.
Proof. unfold handleChange. by intros ->. Qed.

Lemma handleChange_unsubscribe c : unsubscribe (handleChange c) = unsubscribe c.
Proof. unfold handleChange. by destruct (negb _). Qed.

Lemma trySubscribe_already c :
  handle_truthy (unsubscribe c) = true → trySubscribe c = c.
Proof. unfold trySubscribe. intros ->. by rewrite andb_false_r. Qed.

Lemma trySubscribe_result c :
  shouldSubscribe = true →
  handle_truthy (unsubscribe (trySubscribe c)) = true.
Proof.
  intros Hs. unfold trySubscribe. rewrite Hs. simpl.
  by destruct (handle_truthy (unsubscribe c)) eqn:E.
Qed.

Lemma tryUnsubscribe_result c : handle_truthy (unsubscribe (tryUnsubscribe c)) = false.
Proof. unfold tryUnsubscribe. by destruct (unsubscribe c) eqn:E; simpl; rewrite ?E. Qed.

Lemma tryUnsubscribe_unsubscribed c :
  handle_truthy (unsubscribe c) = false → tryUnsubscribe c = c.
Proof. unfold tryUnsubscribe. by destruct (unsubscribe c). Qed.

(** C6: on any instance, in any state, a second [trySubscribe] right after
    a first changes nothing: the instance, its subscribed flag and the
    store's listener list are what the first call left. The same holds for
    [tryUnsubscribe]. *)
Theorem subscription_management_idempotent c :
  trySubscribe (trySubscribe c) = trySubscribe c
  ∧ tryUnsubscribe (tryUnsubscribe c) = tryUnsubscribe c.
Proof.
  split.
  - destruct shouldSubscribe eqn:Hs.
    + apply trySubscribe_already. by apply trySubscribe_result.
    + unfold trySubscribe. by rewrite Hs.
  - apply tryUnsubscribe_unsubscribed, tryUnsubscribe_result.
Qed.

(** *** After unmount *)

Lemma notify_unsubscribed l c :
  handle_truthy (unsubscribe c) = false → notify l c = c.
Proof. destruct l; [apply handleChange_unsubscribed|done]. Qed.

Lemma notify_all_unsubscribed ls c :
  handle_truthy (unsubscribe c) = false →
  foldl (λ c (r : nat * listener), notify r.2 c) c ls = c.
Proof.
  intros Hc. induction ls as [|r ls IH]; [done|].
  simpl. by rewrite notify_unsubscribed.
Qed.

Lemma dispatch_unsubscribed newState c :
  handle_truthy (unsubscribe c) = false →
  dispatch newState c = with_storeState c newState.
Proof. intros Hc. unfold dispatch. by apply notify_all_unsubscribed. Qed.

(** C8: once [componentWillUnmount] has run, the instance is not
    subscribed; its change handler, if it is still called, returns the
    instance as it is, with no read of the store state and no [setState];
    and a dispatch to the store does nothing to the instance beyond the
    store holding the new state. *)
Theorem unmounted_instance_ignores_store_changes c :
  isSubscribed (componentWillUnmount c) = false
  ∧ handleChange (componentWillUnmount c) = componentWillUnmount c
  ∧ ∀ newState,
      dispatch newState (componentWillUnmount c)
      = with_storeState (componentWillUnmount c) newState
      ∧ trace (dispatch newState (componentWillUnmount c)) = trace c.
Proof.
  pose proof (tryUnsubscribe_result c) as Hu.
  unfold componentWillUnmount. split; [|split].
  - unfold isSubscribed. by destruct (unsubscribe (tryUnsubscribe c)).
  - by apply handleChange_unsubscribed.
  - intros newState. rewrite dispatch_unsubscribed by done. split; [done|].
    unfold tryUnsubscribe. by destruct (unsubscribe c).
Qed.

(** *** The update methods *)

Lemma computeStateProps_returns s props w v w' :
  computeStateProps s props w = (Return v, w') →
  call_mapState s props w = (Return v, w') ∧ isPlainObject (heap_of w') v = true.
Proof.
  unfold computeStateProps, mbind, JS_bind.
  destruct (call_mapState s props w) as [[r|e] w1]; [|done].
  unfold isPlainObjectM. destruct (isPlainObject (heap_of w1) r) eqn:E; [|done].
  simpl. unfold mret, JS_ret. by intros [= <- <-].
Qed.

Lemma computeDispatchProps_returns s props w v w' :
  computeDispatchProps s props w = (Return v, w') →
  call_mapDispatch (storeDispatch s) props w = (Return v, w')
  ∧ isPlainObject (heap_of w') v = true.
Proof.
  unfold computeDispatchProps, mbind, JS_bind.
  destruct (call_mapDispatch (storeDispatch s) props w) as [[r|e] w1]; [|done].
  unfold isPlainObjectM. destruct (isPlainObject (heap_of w1) r) eqn:E; [|done].
  simpl. unfold mret, JS_ret. by intros [= <- <-].
Qed.

Lemma computeNextState_returns a b props w v w' :
  computeNextState a b props w = (Return v, w') →
  call_mergeProps a b props w = (Return v, w') ∧ isPlainObject (heap_of w') v = true.
Proof.
  unfold computeNextState, mbind, JS_bind.
  destruct (call_mergeProps a b props w) as [[r|e] w1]; [|done].
  unfold isPlainObjectM. destruct (isPlainObject (heap_of w1) r) eqn:E; [|done].
  simpl. unfold mret, JS_ret. by intros [= <- <-].
Qed.

Lemma computeDispatchProps_plain s props w v w' :
  call_mapDispatch (storeDispatch s) props w = (Return v, w') →
  isPlainObject (heap_of w') v = true →
  computeDispatchProps s props w = (Return v, w').
Proof. intros H Hplain. run_stage H Hplain. Qed.

Lemma computeNextState_plain a b props w v w' :
  call_mergeProps a b props w = (Return v, w') →
  isPlainObject (heap_of w') v = true →
  computeNextState a b props w = (Return v, w').
Proof. intros H Hplain. run_stage H Hplain. Qed.

(** The three methods, run on an instance and a world. *)
Lemma updateStateProps_run props c w :
  updateStateProps props (c, w)
  = match computeStateProps (store c) props w with
    | (Return v, w') =>
        if shallowEqual (heap_of w') v (stateProps c) then (Return false, (c, w'))
        else (Return true, (with_stateProps c v, w'))
    | (Throw e, w') => (Throw e, (c, w'))
    end.
Proof.
  unfold updateStateProps, this, run, assign, shallowEqualW, mbind, mret, JS_bind, JS_ret.
  simpl. destruct (computeStateProps (store c) props w) as [[v|e] w']; [|done].
  simpl. by destruct (shallowEqual (heap_of w') v (stateProps c)).
Qed.

Lemma updateDispatchProps_run props c w :
  updateDispatchProps props (c, w)
  = match computeDispatchProps (store c) props w with
    | (Return v, w') =>
        if shallowEqual (heap_of w') v (dispatchProps c) then (Return false, (c, w'))
        else (Return true, (with_dispatchProps c v, w'))
    | (Throw e, w') => (Throw e, (c, w'))
    end.
Proof.
  unfold updateDispatchProps, this, run, assign, shallowEqualW, mbind, mret, JS_bind, JS_ret.
  simpl. destruct (computeDispatchProps (store c) props w) as [[v|e] w']; [|done].
  simpl. by destruct (shallowEqual (heap_of w') v (dispatchProps c)).
Qed.

Lemma updateState_run props c w :
  updateState props (c, w)
  = match computeNextState (stateProps c) (dispatchProps c) props w with
    | (Return v, w') => (Return (), (with_nextState c v, w'))
    | (Throw e, w') => (Throw e, (c, w'))
    end.
Proof.
  unfold updateState, this_computeNextState, this, run, assign, mbind, mret, JS_bind, JS_ret.
  simpl. by destruct (computeNextState (stateProps c) (dispatchProps c) props w) as [[v|e] w'].
Qed.

Lemma updateStateProps_returns props c w b c' w' :
  updateStateProps props (c, w) = (Return b, (c', w')) →
  same_subscription c c' ∧ nextState c' = nextState c
  ∧ (b = false → c' = c).
Proof.
  rewrite updateStateProps_run.
  destruct (computeStateProps (store c) props w) as [[v|e] w1]; [|done].
  destruct (shallowEqual (heap_of w1) v (stateProps c)); by intros [= <- <- <-].
Qed.

Lemma updateDispatchProps_returns props c w b c' w' :
  updateDispatchProps props (c, w) = (Return b, (c', w')) →
  same_subscription c c' ∧ nextState c' = nextState c
  ∧ (b = false → c' = c).
Proof.
  rewrite updateDispatchProps_run.
  destruct (computeDispatchProps (store c) props w) as [[v|e] w1]; [|done].
  destruct (shallowEqual (heap_of w1) v (dispatchProps c)); by intros [= <- <- <-].
Qed.

Lemma updateState_returns props c w c' w' :
  updateState props (c, w) = (Return (), (c', w')) →
  same_subscription c c' ∧ isPlainObject (heap_of w') (nextState c') = true.
Proof.
  rewrite updateState_run.
  destruct (computeNextState (stateProps c) (dispatchProps c) props w) as [[v|e] w1] eqn:E;
    [|done].
  apply computeNextState_returns in E as [_ Hplain]. by intros [= <- <-].
Qed.

Lemma same_subscription_trans c1 c2 c3 :
  same_subscription c1 c2 → same_subscription c2 c3 → same_subscription c1 c3.
Proof. unfold same_subscription. intros (-> & -> & ->) (-> & -> & ->). done. Qed.

(** X12: what [shouldComponentUpdate] does to the instance. It never
    touches the store, the subscription or the scheduled updates. When it
    answers [true], the props to render ([nextState]) are a plain object (in
    pure and in impure mode); it answers [false] only if it has left the
    whole instance as it was. *)
Theorem shouldComponentUpdate_outcome this_props this_storeState nextProps next_storeState
    c w b c' w' :
  shouldComponentUpdate this_props this_storeState nextProps next_storeState (c, w)
  = (Return b, (c', w')) →
  store c' = store c ∧ unsubscribe c' = unsubscribe c ∧ trace c' = trace c
  ∧ (if b then isPlainObject (heap_of w') (nextState c') = true else c' = c).
Proof.
  unfold shouldComponentUpdate. destruct pure; simpl.
  - unfold mbind at 1, JS_bind at 1, run at 1, shallowEqualW. simpl.
    set (propsChanged := negb (shallowEqual (heap_of w) nextProps this_props)).
    unfold mbind at 1, JS_bind at 1.
    destruct ((if strict_neq next_storeState this_storeState
                  || propsChanged && shouldUpdateStateProps
               then updateStateProps nextProps else mret false) (c, w))
      as [[b1|e] [c1 w1]] eqn:E1; [|done].
    assert (same_subscription c c1 ∧ nextState c1 = nextState c ∧ (b1 = false → c1 = c))
      as (S1 & N1 & F1).
    { destruct (strict_neq _ _ || _).
      - by apply updateStateProps_returns in E1.
      - by injection E1 as <- <- <-. }
    unfold mbind at 1, JS_bind at 1.
    destruct ((if propsChanged && shouldUpdateDispatchProps
               then updateDispatchProps nextProps else mret false) (c1, w1))
      as [[b2|e] [c2 w2]] eqn:E2; [|done].
    assert (same_subscription c1 c2 ∧ nextState c2 = nextState c1 ∧ (b2 = false → c2 = c1))
      as (S2 & N2 & F2).
    { destruct (propsChanged && shouldUpdateDispatchProps).
      - by apply updateDispatchProps_returns in E2.
      - by injection E2 as <- <- <-. }
    destruct (propsChanged || b1 || b2) eqn:Eb.
    + unfold mbind, JS_bind.
      destruct (updateState nextProps (c2, w2)) as [[[]|e] [c3 w3]] eqn:E3; [|done].
      apply updateState_returns in E3 as (S3 & Hplain).
      intros [= <- <- <-].
      destruct (same_subscription_trans _ _ _ (same_subscription_trans _ _ _ S1 S2) S3)
        as (? & ? & ?).
      done.
    + intros [= <- <- <-].
      apply orb_false_iff in Eb as [Eb ->]. apply orb_false_iff in Eb as [_ ->].
      rewrite F2, F1 by done. done.
  - unfold mbind, JS_bind.
    destruct (updateStateProps nextProps (c, w)) as [[b1|e] [c1 w1]] eqn:E1; [|done].
    destruct (updateDispatchProps nextProps (c1, w1)) as [[b2|e] [c2 w2]] eqn:E2; [|done].
    destruct (updateState nextProps (c2, w2)) as [[[]|e] [c3 w3]] eqn:E3; [|done].
    apply updateStateProps_returns in E1 as (S1 & _).
    apply updateDispatchProps_returns in E2 as (S2 & _).
    apply updateState_returns in E3 as (S3 & Hplain).
    intros [= <- <- <-].
    destruct (same_subscription_trans _ _ _ (same_subscription_trans _ _ _ S1 S2) S3)
      as (? & ? & ?).
    done.
Qed.

(** X13: in pure mode, when the store state is the one already seen
    ([===]) and the new props are shallow-equal to the current ones,
    [shouldComponentUpdate] answers [false] without calling
    [mapStateToProps], [mapDispatchToProps] or [mergeProps]: the instance
    and the world are untouched. *)
Theorem unchanged_inputs_skip_update this_props this_storeState nextProps next_storeState c w :
  pure = true →
  strict_eq next_storeState this_storeState = true →
  shallowEqual (heap_of w) nextProps this_props = true →
  shouldComponentUpdate this_props this_storeState nextProps next_storeState (c, w)
  = (Return false, (c, w)).
Proof.
  intros Hp Hs Hprops. unfold shouldComponentUpdate, strict_neq. rewrite Hp, Hs. simpl.
  unfold mbind, mret, JS_bind, JS_ret, run, shallowEqualW. simpl. rewrite Hprops. done.
Qed.

(** X14: in pure mode, when the store state changed but [mapStateToProps]
    returns an object shallow-equal to the current [stateProps] (the props
    being shallow-equal too), [shouldComponentUpdate] answers [false]: the
    instance keeps its [stateProps] reference and its [nextState], and
    neither [mapDispatchToProps] nor [mergeProps] is called (the world is
    the one [mapStateToProps] left). *)
Theorem shallow_equal_stateProps_skip_update this_props this_storeState nextProps
    next_storeState c w v w' :
  pure = true →
  strict_eq next_storeState this_storeState = false →
  shallowEqual (heap_of w) nextProps this_props = true →
  call_mapState (store c) nextProps w = (Return v, w') →
  isPlainObject (heap_of w') v = true →
  shallowEqual (heap_of w') v (stateProps c) = true →
  shouldComponentUpdate this_props this_storeState nextProps next_storeState (c, w)
  = (Return false, (c, w')).
Proof.
  intros Hp Hs Hprops Hcall Hplain Heq.
  unfold shouldComponentUpdate, strict_neq. rewrite Hp, Hs. simpl.
  unfold mbind at 1, JS_bind at 1, run at 1, shallowEqualW. simpl. rewrite Hprops. simpl.
  unfold mbind at 1, JS_bind at 1. rewrite updateStateProps_run.
  rewrite (computeStateProps_plain _ _ _ _ _ Hcall Hplain), Heq. done.
Qed.

(** X15: in pure mode, when only the props changed and neither
    [mapStateToProps] nor [mapDispatchToProps] declares a second parameter,
    neither of them is called: [mergeProps] alone is run, on the
    [stateProps] and [dispatchProps] kept and the new props, and its result
    becomes [nextState]. *)
Theorem props_change_reuses_derived_props this_props this_storeState nextProps next_storeState
    c w v w' :
  pure = true →
  strict_eq next_storeState this_storeState = true →
  shallowEqual (heap_of w) nextProps this_props = false →
  arity finalMapStateToProps ≤ 1 →
  arity finalMapDispatchToProps ≤ 1 →
  call_mergeProps (stateProps c) (dispatchProps c) nextProps w = (Return v, w') →
  isPlainObject (heap_of w') v = true →
  shouldComponentUpdate this_props this_storeState nextProps next_storeState (c, w)
  = (Return true, (with_nextState c v, w')).
Proof.
  intros Hp Hs Hprops Ha Hd Hcall Hplain.
  unfold shouldComponentUpdate, strict_neq. rewrite Hp, Hs. simpl.
  unfold shouldUpdateStateProps, shouldUpdateDispatchProps.
  rewrite !bool_decide_false by lia.
  unfold mbind at 1, JS_bind at 1, run at 1, shallowEqualW. simpl. rewrite Hprops. simpl.
  unfold mbind, mret, JS_bind, JS_ret. simpl.
  rewrite updateState_run. rewrite (computeNextState_plain _ _ _ _ _ _ Hcall Hplain). done.
Qed.

(** X16: an update that fails half-way is not undone. In impure mode,
    when [mapStateToProps] returns a new object (a plain one, not
    shallow-equal to the current [stateProps]) and the dispatch derivation
    then throws, [shouldComponentUpdate] throws that error and leaves the
    instance with the new [stateProps] and the old [nextState]. *)
Theorem failed_update_keeps_new_stateProps this_props this_storeState nextProps next_storeState
    c w v w1 e w2 :
  pure = false →
  call_mapState (store c) nextProps w = (Return v, w1) →
  isPlainObject (heap_of w1) v = true →
  shallowEqual (heap_of w1) v (stateProps c) = false →
  computeDispatchProps (store c) nextProps w1 = (Throw e, w2) →
  shouldComponentUpdate this_props this_storeState nextProps next_storeState (c, w)
  = (Throw e, (with_stateProps c v, w2)).
Proof.
  intros Hp Hcall Hplain Hneq Hthrow.
  unfold shouldComponentUpdate. rewrite Hp. simpl.
  unfold mbind at 1, JS_bind at 1. rewrite updateStateProps_run.
  rewrite (computeStateProps_plain _ _ _ _ _ Hcall Hplain), Hneq.
  unfold mbind at 1, JS_bind at 1. rewrite updateDispatchProps_run. simpl.
  by rewrite Hthrow.
Qed.

(** *** The defaults (lines 8-14) *)

(** X17: [connect()] with no argument at all. If object literals allocate
    fresh plain objects, constructing the wrapper over parent props that
    are an object of the heap succeeds, and the props to render are a new
    plain object holding the parent props plus [dispatch], the store's
    dispatch function; a parent prop named [dispatch] is overridden. The
    parent props object is not modified. *)
Theorem connect_defaults_pass_props_and_dispatch displayName s l o w :
  mapStateToProps = None →
  mapDispatchToProps = DAbsent →
  mergeProps = None →
  (∀ p w0, ∃ l0 w1,
      new_object p w0 = (Return (VRef l0), w1)
      ∧ heap_of w0 !! l0 = None
      ∧ heap_of w1 = <[l0 := {| plain := true; props := p |}]> (heap_of w0)) →
  heap_of w !! l = Some o →
  ∃ c w',
    constructor displayName (Some s) (VRef l) w = (Return c, w')
    ∧ isPlainObject (heap_of w') (nextState c) = true
    ∧ own_props (heap_of w') (nextState c) = <["dispatch" := storeDispatch s]> (props o)
    ∧ nextState c ≠ VRef l
    ∧ heap_of w' !! l = Some o.
Proof.
  intros Hs Hd Hm Hnew Hl.
  destruct (Hnew ∅ w) as (l1 & w1 & E1 & F1 & H1).
  destruct (Hnew {["dispatch" := storeDispatch s]} w1) as (l2 & w2 & E2 & F2 & H2).
  assert (l1 ≠ l2) as N12.
  { intros <-. rewrite H1, lookup_insert_eq in F2. done. }
  assert (l ≠ l1) as N1 by (intros <-; congruence).
  assert (l ≠ l2) as N2.
  { intros <-. rewrite H1, lookup_insert_ne in F2 by done. congruence. }
  assert (heap_of w2 !! l = Some o) as Hl2.
  { rewrite H2, lookup_insert_ne, H1, lookup_insert_ne by done. done. }
  set (merged := own_props (heap_of w2) (VRef l2) ∪ own_props (heap_of w2) (VRef l1)
                 ∪ own_props (heap_of w2) (VRef l)).
  destruct (Hnew merged w2) as (l3 & w3 & E3 & F3 & H3).
  assert (l ≠ l3) as N3 by (intros <-; congruence).
  assert (merged = <["dispatch" := storeDispatch s]> (props o)) as Hmerged.
  { unfold merged, own_props. rewrite Hl2.
    rewrite H2, lookup_insert_eq, lookup_insert_ne, H1, lookup_insert_eq by done. simpl.
    rewrite (right_id ∅ (∪)). by rewrite insert_union_singleton_l. }
  exists {| store := s; stateProps := VRef l1; dispatchProps := VRef l2;
            nextState := VRef l3; unsubscribe := HUndefined; trace := [] |}, w3.
  split; [|split; [|split; [|split]]].
  - unfold constructor, mbind at 1, JS_bind at 1.
    rewrite (computeStateProps_plain s (VRef l) w (VRef l1) w1).
    + unfold mbind at 1, JS_bind at 1.
      rewrite (computeDispatchProps_plain s (VRef l) w1 (VRef l2) w2).
      * unfold mbind at 1, JS_bind at 1.
        rewrite (computeNextState_plain (VRef l1) (VRef l2) (VRef l) w2 (VRef l3) w3); [done| |].
        -- unfold call_mergeProps, finalMergeProps. rewrite Hm. simpl. by unfold arg; simpl.
        -- unfold isPlainObject. by rewrite H3, lookup_insert_eq.
      * unfold call_mapDispatch, shouldUpdateDispatchProps, finalMapDispatchToProps.
        rewrite Hd. simpl. by unfold arg; simpl.
      * unfold isPlainObject. by rewrite H2, lookup_insert_eq.
    + unfold call_mapState, shouldUpdateStateProps, finalMapStateToProps. rewrite Hs. by simpl.
    + unfold isPlainObject. by rewrite H1, lookup_insert_eq.
  - simpl. unfold isPlainObject. by rewrite H3, lookup_insert_eq.
  - simpl. rewrite H3, lookup_insert_eq. by simpl.
  - simpl. congruence.
  - rewrite H3, lookup_insert_ne by done. done.
Qed.

(** *** The listener list over the life of an instance *)

Lemma own_registration_unsubscribed c :
  handle_truthy (unsubscribe c) = false → own_registration c = [].
Proof. unfold own_registration. by destruct (unsubscribe c). Qed.

Lemma handleChange_store c : store (handleChange c) = store c.
Proof. unfold handleChange. by destruct (negb _). Qed.

Lemma notify_all_frame ls c :
  store (foldl (λ c (r : nat * listener), notify r.2 c) c ls) = store c
  ∧ unsubscribe (foldl (λ c (r : nat * listener), notify r.2 c) c ls) = unsubscribe c.
Proof.
  revert c. induction ls as [|[t l] ls IH]; intros c; [done|].
  simpl. destruct (IH (notify l c)) as [-> ->].
  destruct l; simpl; [|done]. by rewrite handleChange_store, handleChange_unsubscribe.
Qed.

Lemma filter_below_token (L0 : list (nat * listener)) n0 token :
  (∀ r, r ∈ L0 → r.1 < n0) → n0 ≤ token →
  filter (λ r : nat * listener, r.1 ≠ token) L0 = L0.
Proof.
  intros HL Hn. induction L0 as [|r L0 IH]; [done|].
  rewrite filter_cons_True.
  - f_equal. apply IH. intros r' Hr'. apply HL. by right.
  - pose proof (HL r (list_elem_of_here _ _)). lia.
Qed.

Lemma listeners_invariant_step L0 n0 c o :
  listeners_invariant L0 n0 c → listeners_invariant L0 n0 (lifecycle_step c o).
Proof.
  intros Hinv. pose proof Hinv as (HL & Hlow & Hn & Ht). destruct o as [| |v]; simpl.
  - unfold componentDidMount, trySubscribe.
    destruct (shouldSubscribe && negb (handle_truthy (unsubscribe c))) eqn:E; [|done].
    apply andb_true_iff in E as [_ E]. apply negb_true_iff in E.
    rewrite (own_registration_unsubscribed c E), app_nil_r in HL.
    unfold listeners_invariant, own_registration, subscribe, handleChange. simpl. rewrite HL.
    repeat split; try done; try lia; injection H as <-; lia.
  - unfold componentWillUnmount, tryUnsubscribe, listeners_invariant.
    destruct (unsubscribe c) as [| |token] eqn:E; [by rewrite E|by rewrite E|].
    unfold own_registration in *. rewrite E in HL. simpl. rewrite HL.
    destruct (Ht token eq_refl) as [Hlo Hhi].
    rewrite filter_app, (filter_below_token L0 n0 token Hlow Hlo).
    rewrite filter_cons_False, filter_nil by (simpl; auto).
    repeat split; done.
  - unfold dispatch, listeners_invariant, own_registration.
    destruct (notify_all_frame (storeListeners (store c)) (with_storeState c v)) as [-> ->].
    simpl. done.
Qed.

Lemma listeners_invariant_run L0 n0 ops c :
  listeners_invariant L0 n0 c → listeners_invariant L0 n0 (lifecycle_run ops c).
Proof.
  revert c. induction ops as [|o ops IH]; intros c Hc; [done|].
  unfold lifecycle_run. simpl. apply IH. by apply listeners_invariant_step.
Qed.

Lemma listeners_invariant_init c :
  tokens_fresh (store c) →
  handle_truthy (unsubscribe c) = false →
  listeners_invariant (storeListeners (store c)) (nextToken (store c)) c.
Proof.
  intros Hf Hu. unfold listeners_invariant.
  rewrite (own_registration_unsubscribed c Hu), app_nil_r.
  split; [done|]. split; [apply Hf|]. split; [done|].
  intros token E. by rewrite E in Hu.
Qed.

(** X18: mounting and then unmounting gives the store back the listener
    list it had: the registration made by [trySubscribe] is the one, and the
    only one, that [tryUnsubscribe] removes. *)
Theorem mount_unmount_restores_listeners c :
  tokens_fresh (store c) →
  handle_truthy (unsubscribe c) = false →
  storeListeners (store (componentWillUnmount (componentDidMount c)))
  = storeListeners (store c)
  ∧ isSubscribed (componentWillUnmount (componentDidMount c)) = false.
Proof.
  intros Hf Hu.
  pose proof (listeners_invariant_run _ _ [Mount; Unmount] c (listeners_invariant_init c Hf Hu))
    as (HL & _).
  unfold lifecycle_run in HL. simpl in HL.
  pose proof (tryUnsubscribe_result (componentDidMount c)) as Hr.
  rewrite HL, own_registration_unsubscribed, app_nil_r by done.
  split; [done|]. unfold isSubscribed, componentWillUnmount.
  by destruct (unsubscribe (tryUnsubscribe (componentDidMount c))).
Qed.

(** X19: whatever sequence of mounts, unmounts and dispatches an instance
    goes through, the store's listener list is the one the instance found,
    followed by the instance's single registration while it is subscribed,
    and by nothing while it is not: registrations do not pile up, none is
    left behind, and the other subscribers keep their place. *)
Theorem no_listener_leak ops c :
  tokens_fresh (store c) →
  handle_truthy (unsubscribe c) = false →
  storeListeners (store (lifecycle_run ops c))
  = storeListeners (store c) ++ own_registration (lifecycle_run ops c)
  ∧ length (own_registration (lifecycle_run ops c))
    = (if isSubscribed (lifecycle_run ops c) then 1 else 0).
Proof.
  intros Hf Hu.
  pose proof (listeners_invariant_run _ _ ops c (listeners_invariant_init c Hf Hu)) as (HL & _).
  split; [done|]. unfold own_registration, isSubscribed.
  by destruct (unsubscribe (lifecycle_run ops c)).
Qed.

Lemma notify_foreign (L0 : list (nat * listener)) c :
  (∀ r, r ∈ L0 → r.2 ≠ HandleChange) →
  foldl (λ c (r : nat * listener), notify r.2 c) c L0 = c.
Proof.
  intros HL. induction L0 as [|[t l] L0 IH]; [done|].
  simpl. destruct l as [|k].
  - by destruct (HL (t, HandleChange) (list_elem_of_here _ _)).
  - simpl. apply IH. intros r Hr. apply HL. by right.
Qed.

(** X20: an instance that found no registration of its own handler in the
    store is told of each dispatch exactly once while it is subscribed, and
    not at all while it is not: after any sequence of mounts, unmounts and
    dispatches, one more dispatch makes its handler read the store state and
    schedule one update carrying the dispatched state if [isSubscribed()],
    and does nothing to it otherwise. *)
Theorem one_update_per_dispatch ops c newState :
  tokens_fresh (store c) →
  handle_truthy (unsubscribe c) = false →
  (∀ r, r ∈ storeListeners (store c) → r.2 ≠ HandleChange) →
  trace (dispatch newState (lifecycle_run ops c))
  = trace (lifecycle_run ops c)
    ++ (if isSubscribed (lifecycle_run ops c)
        then [EvGetState; EvSetState newState] else []).
Proof.
  intros Hf Hu Hforeign.
  pose proof (listeners_invariant_run _ _ ops c (listeners_invariant_init c Hf Hu)) as (HL & _).
  set (c' := lifecycle_run ops c) in *.
  unfold dispatch. rewrite HL, foldl_app.
  rewrite (notify_foreign (storeListeners (store c)) _ Hforeign).
  unfold own_registration, isSubscribed.
  destruct (unsubscribe c') as [| |token] eqn:E; simpl; rewrite ?app_nil_r; try done.
  unfold handleChange. simpl. rewrite E. done.
Qed.

End Connect.

(** *** No [mapStateToProps] *)

(** An instance as the constructor leaves it: [this.unsubscribe] has not
    been assigned. *)
Definition constructed (s : Store) (stateProps dispatchProps nextState : value) : Instance :=
  {| store := s; stateProps := stateProps; dispatchProps := dispatchProps;
     nextState := nextState; unsubscribe := HUndefined; trace := [] |}.

Lemma step_without_mapStateToProps {W} (o : lifecycle) (c : Instance) :
  handle_truthy (unsubscribe c) = false →
  unsubscribe (lifecycle_step (W := W) None c o) = unsubscribe c
  ∧ storeListeners (store (lifecycle_step (W := W) None c o)) = storeListeners (store c)
  ∧ trace (lifecycle_step (W := W) None c o) = trace c.
Proof.
  intros Hc. destruct o as [| |v]; simpl.
  - done.
  - unfold componentWillUnmount. by rewrite tryUnsubscribe_unsubscribed.
  - by rewrite dispatch_unsubscribed.
Qed.

Lemma run_without_mapStateToProps {W} (ops : list lifecycle) (c : Instance) :
  handle_truthy (unsubscribe c) = false →
  unsubscribe (lifecycle_run (W := W) None ops c) = unsubscribe c
  ∧ storeListeners (store (lifecycle_run (W := W) None ops c)) = storeListeners (store c)
  ∧ trace (lifecycle_run (W := W) None ops c) = trace c.
Proof.
  revert c. induction ops as [|o ops IH]; intros c Hc; [done|].
  destruct (step_without_mapStateToProps (W := W) o c Hc) as (Hu & Hl & Ht).
  destruct (IH (lifecycle_step (W := W) None c o)) as (Hu' & Hl' & Ht'); [by rewrite Hu|].
  unfold lifecycle_run in *. simpl. rewrite Hu', Hl', Ht'. done.
Qed.

(** C10: a wrapper created without [mapStateToProps] never subscribes.
    Whatever sequence of mounts, unmounts and store dispatches the
    constructed instance goes through, [isSubscribed()] is false, the
    store's listener list is the one it had at construction (no listener
    was registered), and the change handler has neither read the store
    state nor scheduled an update. *)
Theorem no_mapStateToProps_never_subscribes (W : Type) (s : Store)
    (stateProps dispatchProps nextState : value) (ops : list lifecycle) :
  isSubscribed (lifecycle_run (W := W) None ops (constructed s stateProps dispatchProps nextState)) = false
  ∧ storeListeners (store (lifecycle_run (W := W) None ops (constructed s stateProps dispatchProps nextState)))
    = storeListeners s
  ∧ trace (lifecycle_run (W := W) None ops (constructed s stateProps dispatchProps nextState)) = [].
Proof.
  destruct (run_without_mapStateToProps (W := W) ops
              (constructed s stateProps dispatchProps nextState)) as (Hu & Hl & Ht); [done|].
  unfold isSubscribed. rewrite Hu, Hl, Ht. done.
Qed.

(** *** A concrete wrapper *)

(** A wrapper whose three stages return [42], [null] and [undefined]. *)
Definition example_toString (v : value) : string :=
  match v with
  | VUndefined => "undefined"
  | VNull => "null"
  | VBool true => "true"
  | VBool false => "false"
  | VNum (Int 42) => "42"
  | VNum _ => "NaN"
  | VStr s => s
  | VRef _ => "[object Object]"
  end.

Definition example_stack (msg : string) : string := "Error: " +:+ msg.

Definition example_new_object (p : gmap string value) : JS (gmap nat object) value := λ h,
  (Return (VRef (size h)), <[size h := {| plain := true; props := p |}]> h).

Definition example_constant (n : nat) (v : value) : jsfun (W := gmap nat object) :=
  {| arity := n; apply := λ _ h, (Return v, h) |}.

Definition example_store : Store :=
  {| storeState := VNum (Int 0); storeListeners := []; nextToken := 0;
     storeDispatch := VRef 7 |}.

Lemma non_mapping_stage_result_is_fatal_witness :
  computeStateProps id example_toString example_stack example_new_object
    (Some (example_constant 1 (VNum (Int 42)))) example_store VUndefined ∅
  = (Throw {| message := "`mapStateToProps` must return an object. Instead received 42.";
              stack := "Error: `mapStateToProps` must return an object. Instead received 42." |},
     ∅)
  ∧ computeDispatchProps id example_toString example_stack example_new_object
      (DFunction (example_constant 1 VNull)) (example_constant 0) example_store VUndefined ∅
    = (Throw {| message := "`mapDispatchToProps` must return an object. Instead received null.";
                stack := "Error: `mapDispatchToProps` must return an object. Instead received null." |},
       ∅)
  ∧ computeNextState id example_toString example_stack example_new_object
      (Some (example_constant 3 VUndefined)) VNull VNull VNull ∅
    = (Throw {| message := "`mergeProps` must return an object. Instead received undefined.";
                stack := "Error: `mergeProps` must return an object. Instead received undefined." |},
       ∅).
Proof.
  pose proof (non_mapping_stage_result_is_fatal id example_toString example_stack
                example_new_object (Some (example_constant 1 (VNum (Int 42))))
                (DFunction (example_constant 1 VNull))
                (Some (example_constant 3 VUndefined)) (example_constant 0))
    as (Hstate & Hdispatch & Hmerge).
  split; [|split].
  - apply (Hstate example_store VUndefined ∅ (VNum (Int 42)) ∅); reflexivity.
  - apply (Hdispatch example_store VUndefined ∅ VNull ∅); reflexivity.
  - apply (Hmerge VNull VNull VNull ∅ VUndefined ∅); reflexivity.
Defined.

(** The error reaches whoever constructs the instance. *)
Example constructor_throws :
  constructor id example_toString example_stack example_new_object
    (Some (example_constant 1 (VNum (Int 42)))) DAbsent None (example_constant 0)
    "Connect(App)" (Some example_store) VUndefined ∅
  = (Throw {| message := "`mapStateToProps` must return an object. Instead received 42.";
              stack := "Error: `mapStateToProps` must return an object. Instead received 42." |},
     ∅).
Proof. reflexivity. Qed.

(** Mounting a wrapper that has a [mapStateToProps] registers one listener
    and runs the change handler once; unmounting removes the listener. *)
Example mount_and_unmount :
  let c := constructed example_store VNull VNull VNull in
  let f := Some (example_constant 1 VNull) in
  storeListeners (store (lifecycle_run f [Mount] c)) = [(0, HandleChange)]
  ∧ trace (lifecycle_run f [Mount] c) = [EvGetState; EvSetState (VNum (Int 0))]
  ∧ storeListeners (store (lifecycle_run f [Mount; Unmount] c)) = []
  ∧ trace (lifecycle_run f [Mount; Dispatch (VNum (Int 1)); Unmount; Dispatch (VNum (Int 2))] c)
    = [EvGetState; EvSetState (VNum (Int 0)); EvGetState; EvSetState (VNum (Int 1))].
Proof. repeat split. Qed.

(** *** Updates of a concrete wrapper *)

(** An object literal allocates at a location the heap does not use. *)
Definition example_alloc (p : gmap string value) : JS (gmap nat object) value := λ h,
  let l := fresh (dom h) in
  (Return (VRef l), <[l := {| plain := true; props := p |}]> h).

(** [state => ({ ...p })]: a new object with the properties [p] at every
    call. *)
Definition example_literal (p : gmap string value) : jsfun (W := gmap nat object) :=
  {| arity := 1; apply := λ _, example_alloc p |}.

(** An instance over the heap of the selector examples: its [stateProps]
    are object [1], [{a: 1}]; its [dispatchProps] object [4]; its
    [nextState] object [3]. *)
Definition example_instance : Instance :=
  {| store := example_store; stateProps := VRef 1; dispatchProps := VRef 4;
     nextState := VRef 3; unsubscribe := HUndefined; trace := [] |}.

(** The heap after one more object literal. *)
Definition example_heap_with (p : gmap string value) : gmap nat object :=
  <[8 := {| plain := true; props := p |}]> FinalPropsSelector.example_heap.

(** [connect(state => ({ a: 1 }))], pure by default. *)
Definition example_update (this_props this_storeState nextProps next_storeState : value)
  : JS (Instance * gmap nat object) bool :=
  shouldComponentUpdate id example_toString example_stack example_alloc
    (Some (example_literal {["a" := VNum (Int 1)]})) DAbsent None (example_constant 0)
    VUndefined this_props this_storeState nextProps next_storeState.

Lemma unchanged_inputs_skip_update_witness :
  example_update (VRef 1) (VNum (Int 0)) (VRef 2) (VNum (Int 0))
    (example_instance, FinalPropsSelector.example_heap)
  = (Return false, (example_instance, FinalPropsSelector.example_heap)).
Proof.
  apply (unchanged_inputs_skip_update id example_toString example_stack example_alloc
           (Some (example_literal {["a" := VNum (Int 1)]})) DAbsent None (example_constant 0)
           VUndefined (VRef 1) (VNum (Int 0)) (VRef 2) (VNum (Int 0))
           example_instance FinalPropsSelector.example_heap);
    vm_compute; reflexivity.
Defined.

Lemma shallow_equal_stateProps_skip_update_witness :
  example_update (VRef 3) (VNum (Int 0)) (VRef 3) (VNum (Int 1))
    (example_instance, FinalPropsSelector.example_heap)
  = (Return false, (example_instance, example_heap_with {["a" := VNum (Int 1)]})).
Proof.
  apply (shallow_equal_stateProps_skip_update id example_toString example_stack example_alloc
           (Some (example_literal {["a" := VNum (Int 1)]})) DAbsent None (example_constant 0)
           VUndefined (VRef 3) (VNum (Int 0)) (VRef 3) (VNum (Int 1))
           example_instance FinalPropsSelector.example_heap (VRef 8)
           (example_heap_with {["a" := VNum (Int 1)]}));
    vm_compute; reflexivity.
Defined.

(** The props change from [{}] to [{a: 1}]: the default [mergeProps] makes
    the new [nextState] from the props kept and the new props. *)
Lemma props_change_reuses_derived_props_witness :
  example_update (VRef 3) (VNum (Int 0)) (VRef 2) (VNum (Int 0))
    (example_instance, FinalPropsSelector.example_heap)
  = (Return true,
     (with_nextState example_instance (VRef 8),
      example_heap_with {["a" := VNum (Int 1); "dispatch" := VRef 5]})).
Proof.
  apply (props_change_reuses_derived_props id example_toString example_stack example_alloc
           (Some (example_literal {["a" := VNum (Int 1)]})) DAbsent None (example_constant 0)
           VUndefined (VRef 3) (VNum (Int 0)) (VRef 2) (VNum (Int 0))
           example_instance FinalPropsSelector.example_heap (VRef 8)
           (example_heap_with {["a" := VNum (Int 1); "dispatch" := VRef 5]}));
    try (vm_compute; reflexivity); simpl; lia.
Defined.

Lemma shouldComponentUpdate_outcome_witness :
  store (with_nextState example_instance (VRef 8)) = store example_instance
  ∧ unsubscribe (with_nextState example_instance (VRef 8)) = unsubscribe example_instance
  ∧ trace (with_nextState example_instance (VRef 8)) = trace example_instance
  ∧ isPlainObject (example_heap_with {["a" := VNum (Int 1); "dispatch" := VRef 5]})
      (nextState (with_nextState example_instance (VRef 8))) = true.
Proof.
  apply (shouldComponentUpdate_outcome id example_toString example_stack example_alloc
           (Some (example_literal {["a" := VNum (Int 1)]})) DAbsent None (example_constant 0)
           VUndefined (VRef 3) (VNum (Int 0)) (VRef 2) (VNum (Int 0))
           example_instance FinalPropsSelector.example_heap true
           (with_nextState example_instance (VRef 8))
           (example_heap_with {["a" := VNum (Int 1); "dispatch" := VRef 5]})).
  vm_compute. reflexivity.
Defined.

(** [connect(state => ({ b: 2 }), () => null, undefined, { pure: false })]. *)
Lemma failed_update_keeps_new_stateProps_witness :
  shouldComponentUpdate id example_toString example_stack example_alloc
    (Some (example_literal {["b" := VNum (Int 2)]})) (DFunction (example_constant 0 VNull))
    None (example_constant 0) (VBool false) (VRef 3) (VNum (Int 0)) (VRef 3) (VNum (Int 0))
    (example_instance, FinalPropsSelector.example_heap)
  = (Throw {| message := "`mapDispatchToProps` must return an object. Instead received null.";
              stack := "Error: `mapDispatchToProps` must return an object. Instead received null." |},
     (with_stateProps example_instance (VRef 8), example_heap_with {["b" := VNum (Int 2)]})).
Proof.
  apply (failed_update_keeps_new_stateProps id example_toString example_stack example_alloc
           (Some (example_literal {["b" := VNum (Int 2)]}))
           (DFunction (example_constant 0 VNull)) None (example_constant 0) (VBool false)
           (VRef 3) (VNum (Int 0)) (VRef 3) (VNum (Int 0))
           example_instance FinalPropsSelector.example_heap (VRef 8)
           (example_heap_with {["b" := VNum (Int 2)]}));
    vm_compute; reflexivity.
Defined.

Lemma example_alloc_fresh p w0 :
  ∃ l0 w1, example_alloc p w0 = (Return (VRef l0), w1)
           ∧ id w0 !! l0 = None
           ∧ id w1 = <[l0 := {| plain := true; props := p |}]> (id w0).
Proof.
  eexists _, _. split; [reflexivity|]. split; [|reflexivity].
  apply not_elem_of_dom, is_fresh.
Defined.

(** [connect()] over the parent props [{a: 1}] (object [1]). *)
Lemma connect_defaults_pass_props_and_dispatch_witness :
  ∃ c w',
    constructor id example_toString example_stack example_alloc None DAbsent None
      (example_constant 0) "Connect(App)" (Some example_store) (VRef 1)
      FinalPropsSelector.example_heap = (Return c, w')
    ∧ isPlainObject w' (nextState c) = true
    ∧ own_props w' (nextState c) = <["dispatch" := VRef 7]> {["a" := VNum (Int 1)]}
    ∧ nextState c ≠ VRef 1
    ∧ w' !! 1 = Some {| plain := true; props := {["a" := VNum (Int 1)]} |}.
Proof.
  refine (connect_defaults_pass_props_and_dispatch id example_toString example_stack
            example_alloc None DAbsent None (example_constant 0) "Connect(App)" example_store 1
            {| plain := true; props := {["a" := VNum (Int 1)]} |}
            FinalPropsSelector.example_heap eq_refl eq_refl eq_refl example_alloc_fresh _).
  vm_compute. reflexivity.
Defined.

(** A store that already has a subscriber. *)
Definition example_shared_store : Store :=
  {| storeState := VNum (Int 0); storeListeners := [(0, Foreign 7)]; nextToken := 1;
     storeDispatch := VRef 7 |}.

Lemma example_shared_store_fresh : tokens_fresh example_shared_store.
Proof.
  intros r Hr. apply list_elem_of_singleton in Hr. rewrite Hr. simpl. lia.
Defined.

Lemma example_shared_store_foreign r :
  r ∈ storeListeners example_shared_store → r.2 ≠ HandleChange.
Proof. intros Hr. apply list_elem_of_singleton in Hr. by rewrite Hr. Defined.

Lemma mount_unmount_restores_listeners_witness :
  let c := constructed example_shared_store VNull VNull VNull in
  let f := Some (example_constant 1 VNull) in
  storeListeners (store (componentWillUnmount (componentDidMount f c))) = [(0, Foreign 7)]
  ∧ isSubscribed (componentWillUnmount (componentDidMount f c)) = false.
Proof.
  exact (mount_unmount_restores_listeners (Some (example_constant 1 VNull))
           (constructed example_shared_store VNull VNull VNull)
           example_shared_store_fresh eq_refl).
Defined.

Lemma no_listener_leak_witness :
  let c := constructed example_shared_store VNull VNull VNull in
  let f := Some (example_constant 1 VNull) in
  let ops := [Mount; Dispatch (VNum (Int 1)); Unmount; Mount; Mount] in
  storeListeners (store (lifecycle_run f ops c))
  = [(0, Foreign 7)] ++ own_registration (lifecycle_run f ops c)
  ∧ length (own_registration (lifecycle_run f ops c))
    = (if isSubscribed (lifecycle_run f ops c) then 1 else 0).
Proof.
  exact (no_listener_leak (Some (example_constant 1 VNull))
           [Mount; Dispatch (VNum (Int 1)); Unmount; Mount; Mount]
           (constructed example_shared_store VNull VNull VNull)
           example_shared_store_fresh eq_refl).
Defined.

Lemma one_update_per_dispatch_witness :
  let c := constructed example_shared_store VNull VNull VNull in
  let f := Some (example_constant 1 VNull) in
  let ops := [Mount; Unmount; Mount] in
  trace (dispatch (VNum (Int 5)) (lifecycle_run f ops c))
  = trace (lifecycle_run f ops c)
    ++ (if isSubscribed (lifecycle_run f ops c)
        then [EvGetState; EvSetState (VNum (Int 5))] else []).
Proof.
  exact (one_update_per_dispatch (Some (example_constant 1 VNull)) [Mount; Unmount; Mount]
           (constructed example_shared_store VNull VNull VNull) (VNum (Int 5))
           example_shared_store_fresh eq_refl example_shared_store_foreign).
Defined.

End Connect.

(** ** The subscription tree ([utils/Subscription]) *)

Module Subscription.
Section Tree.
(** The type of the "own notify" callbacks. *)
Context {C : Type}.

(** Modelled from the spec: [utils/Subscription] is imported by the hook but
    is not among the sources. Section 3: a node holds a reference to the
    store or to its parent node (chosen at construction), an ordered
    collection of child listeners, a mutable own notify callback set after
    construction, and a subscribed flag. Following section 9 the nodes live
    in an arena and are named by their index; [parentSub = None] stands for
    "the upstream is the store"; a child listener is named by the node it
    belongs to. *)
Record node := {
  parentSub : option nat;
  onStateChange : option C;
  subscribed : bool;
  listeners : list nat
}.

(** Modelled from the spec: the arena of section 9, together with the
    listeners registered with the store itself (the store is an external
    collaborator, section 6; all that matters of it here is the ordered
    list of the listeners it will call). *)
Record tree := {
  nodes : list node;
  storeListeners : list nat
}.

(** Modelled from the spec: no node constructed yet. *)
Definition empty : tree := {| nodes := []; storeListeners := [] |}.

(** In-place change of node [n]; no change if there is no such node. *)
Definition update (n : nat) (f : node → node) (t : tree) : tree :=
  {| nodes := alter f n (nodes t); storeListeners := storeListeners t |}.

(** Modelled from the spec: [construct(upstream)], section 4.2. No
    subscription occurs yet. The new node is the last of the arena. *)
Definition construct (upstream : option nat) (t : tree) : tree :=
  {| nodes := nodes t ++ [{| parentSub := upstream; onStateChange := None;
                            subscribed := false; listeners := [] |}];
     storeListeners := storeListeners t |}.

(** Modelled from the spec: assignment to the own notify callback, "set
    post-construction" (section 3). *)
Definition setOnStateChange (n : nat) (cb : option C) (t : tree) : tree :=
  update n (λ nd, {| parentSub := parentSub nd; onStateChange := cb;
                     subscribed := subscribed nd; listeners := listeners nd |}) t.

(** Modelled from the spec: the list part of [addChildListener(fn)],
    section 4.2: appends to the ordered child list. *)
Definition appendListener (p c : nat) (t : tree) : tree :=
  update p (λ nd, {| parentSub := parentSub nd; onStateChange := onStateChange nd;
                     subscribed := subscribed nd; listeners := listeners nd ++ [c] |}) t.

(** Modelled from the spec: the removal function returned by
    [addChildListener], called for the listener of node [c]. *)
Definition removeListener (p c : nat) (t : tree) : tree :=
  update p (λ nd, {| parentSub := parentSub nd; onStateChange := onStateChange nd;
                     subscribed := subscribed nd;
                     listeners := filter (λ x, x ≠ c) (listeners nd) |}) t.

(** Modelled from the spec: the node keeps the unsubscribe handle it was
    given: it is now subscribed. *)
Definition markSubscribed (n : nat) (t : tree) : tree :=
  update n (λ nd, {| parentSub := parentSub nd; onStateChange := onStateChange nd;
                     subscribed := true; listeners := listeners nd |}) t.

(** Modelled from the spec: [trySubscribe()], section 4.2. A no-op if
    already subscribed; otherwise the node registers its listener with its
    upstream: the store's [subscribe], or the parent's [addChildListener],
    which attempts the parent's own subscription lazily (the recursive
    call) and appends to the parent's ordered child list. The recursion
    climbs the parent chain; [fuel] bounds its height. A child's listener
    joins its parent's list when the child subscribes: this is the
    "subscribe on demand" that section 4.2 accepts in place of a parent
    registering its known children. *)
Fixpoint trySubscribe_fuel (fuel : nat) (n : nat) (t : tree) : tree :=
  match fuel with
  | 0 => t
  | S fuel =>
      match nodes t !! n with
      | None => t
      | Some nd =>
          if subscribed nd then t
          else match parentSub nd with
               | Some p => markSubscribed n (appendListener p n (trySubscribe_fuel fuel p t))
               | None =>
                   markSubscribed n
                     {| nodes := nodes t; storeListeners := storeListeners t ++ [n] |}
               end
      end
  end.

(** Modelled from the spec: [trySubscribe()] with fuel that is always
    enough: a parent is constructed before its children, so the chain above
    node [n] has at most [n] nodes. *)
Definition trySubscribe (n : nat) (t : tree) : tree := trySubscribe_fuel (S n) n t.

(** Modelled from the spec: [tryUnsubscribe()], section 4.2. A no-op if not
    subscribed; otherwise calls the stored unsubscribe handle, clears it,
    and clears the child-listener list. *)
Definition tryUnsubscribe (n : nat) (t : tree) : tree :=
  match nodes t !! n with
  | None => t
  | Some nd =>
      if subscribed nd then
        let t1 := match parentSub nd with
                  | Some p => removeListener p n t
                  | None => {| nodes := nodes t;
                               storeListeners := filter (λ x, x ≠ n) (storeListeners t) |}
                  end in
        update n (λ nd, {| parentSub := parentSub nd; onStateChange := onStateChange nd;
                           subscribed := false; listeners := [] |}) t1
      else t
  end.

(** Modelled from the spec: the listener a node registers upstream,
    section 4.2: when invoked, it first calls the node's own notify callback
    (if set) and then invokes every currently registered child listener in
    insertion order. The result is the list of nodes whose own callback ran,
    in the order they ran. [fuel] bounds the depth of the descent. The own
    callbacks are opaque here: they do not subscribe or unsubscribe nodes
    while the pass is running, so the snapshot of the child list that
    section 4.2 asks for is the list itself. *)
Fixpoint handleChange (fuel : nat) (t : tree) (n : nat) : list nat :=
  match fuel with
  | 0 => []
  | S fuel =>
      match nodes t !! n with
      | None => []
      | Some nd =>
          match onStateChange nd with Some _ => [n] | None => [] end
          ++ (listeners nd ≫= handleChange fuel t)
      end
  end.

(** Modelled from the spec: a store update (section 2, data flow): the
    store calls its listeners in registration order. No chain of children
    is longer than the arena, so the fuel is enough (see
    [notify_complete]). *)
Definition notify (t : tree) : list nat :=
  storeListeners t ≫= handleChange (length (nodes t)) t.

(** Modelled from the spec: the operations of section 4.2, as the owners
    of the nodes call them. A node can only be constructed under a node
    that exists: a reference to the parent is needed. *)
Inductive op :=
| Construct (upstream : option nat)
| SetOnStateChange (n : nat) (cb : option C)
| TrySubscribe (n : nat)
| TryUnsubscribe (n : nat).

Definition valid_upstream (upstream : option nat) (t : tree) : bool :=
  match upstream with
  | Some p => bool_decide (p < length (nodes t))
  | None => true
  end.

Definition step (t : tree) (o : op) : tree :=
  match o with
  | Construct upstream => if valid_upstream upstream t then construct upstream t else t
  | SetOnStateChange n cb => setOnStateChange n cb t
  | TrySubscribe n => trySubscribe n t
  | TryUnsubscribe n => tryUnsubscribe n t
  end.

Definition run (ops : list op) : tree := foldl step empty ops.

(** The tree: [parent_of t c p] when [p] is the node [c] was constructed
    under; [ancestor t a d] when [a] is above [d]. *)
Definition parent_of (t : tree) (c p : nat) : Prop :=
  ∃ nd, nodes t !! c = Some nd ∧ parentSub nd = Some p.

Inductive ancestor (t : tree) : nat → nat → Prop :=
| ancestor_parent d p : parent_of t d p → ancestor t p d
| ancestor_step a d p : parent_of t d p → ancestor t a p → ancestor t a d.

Definition has_callback (t : tree) (n : nat) : Prop :=
  ∃ nd, nodes t !! n = Some nd ∧ is_Some (onStateChange nd).

(** A node the store's notifications reach: its listener is registered with
    the store, or with a parent that is itself reached. *)
Inductive registered (t : tree) : nat → Prop :=
| registered_store n : n ∈ storeListeners t → registered t n
| registered_child p nd n :
    registered t p → nodes t !! p = Some nd → n ∈ listeners nd → registered t n.

(** [ancestors_first t seen l]: every node of [l] comes after all its
    ancestors that have an own callback, each of them being in [seen] or
    earlier in [l]. *)
Fixpoint ancestors_first (t : tree) (seen l : list nat) : Prop :=
  match l with
  | [] => True
  | d :: l' =>
      (∀ a, ancestor t a d → has_callback t a → a ∈ seen)
      ∧ ancestors_first t (seen ++ [d]) l'
  end.

(** *** Well-formed arenas *)

(** What every arena built by the operations satisfies: a node is younger
    than its parent; a listener sits only in the list of the upstream its
    node was constructed under; a node that is not subscribed sits in no
    list; no list holds a listener twice. *)
Record wf (t : tree) : Prop := {
  wf_parent c nd p : nodes t !! c = Some nd → parentSub nd = Some p → p < c;
  wf_child p nd c : nodes t !! p = Some nd → c ∈ listeners nd → parent_of t c p;
  wf_root c : c ∈ storeListeners t → ∃ nd, nodes t !! c = Some nd ∧ parentSub nd = None;
  wf_unsubscribed c nd :
    nodes t !! c = Some nd → subscribed nd = false →
    (c ∉ storeListeners t) ∧ (∀ p pd, nodes t !! p = Some pd → c ∉ listeners pd);
  wf_nodup_store : NoDup (storeListeners t);
  wf_nodup p nd : nodes t !! p = Some nd → NoDup (listeners nd)
}.

Lemma wf_empty : wf empty.
Proof.
  split; simpl; try done.
  - intros c Hc. by apply not_elem_of_nil in Hc.
  - constructor.
Qed.

Lemma lookup_update n f t j :
  nodes (update n f t) !! j = if decide (n = j) then f <$> nodes t !! n else nodes t !! j.
Proof. apply list_lookup_alter. Qed.

Lemma lookup_update_Some n f t j nd' :
  nodes (update n f t) !! j = Some nd' →
  (j = n ∧ ∃ nd, nodes t !! n = Some nd ∧ nd' = f nd) ∨ (j ≠ n ∧ nodes t !! j = Some nd').
Proof.
  rewrite lookup_update. case_decide as E.
  - subst j. destruct (nodes t !! n) as [nd|]; simpl; [|done].
    intros [= <-]. left. eauto.
  - intros H. right. split; [congruence|done].
Qed.

Lemma storeListeners_update n f t : storeListeners (update n f t) = storeListeners t.
Proof. done. Qed.

Lemma length_update n f t : length (nodes (update n f t)) = length (nodes t).
Proof. apply length_alter. Qed.

Lemma update_comm n m f g t :
  n ≠ m → update n f (update m g t) = update m g (update n f t).
Proof.
  intros Hne. unfold update. simpl. f_equal. by apply list_alter_alter_ne.
Qed.

Lemma parent_of_update n f t c p :
  (∀ nd, parentSub (f nd) = parentSub nd) →
  parent_of (update n f t) c p ↔ parent_of t c p.
Proof.
  intros Hf. unfold parent_of. split.
  - intros (nd' & Hl & Hp). apply lookup_update_Some in Hl as [(-> & nd & Hl & ->)|(_ & Hl)].
    + exists nd. by rewrite <- Hf.
    + by exists nd'.
  - intros (nd & Hl & Hp). rewrite lookup_update. case_decide as E.
    + subst c. rewrite Hl. simpl. exists (f nd). by rewrite Hf.
    + by exists nd.
Qed.

Lemma wf_member_subscribed t p pd c :
  wf t → nodes t !! p = Some pd → c ∈ listeners pd →
  p < c ∧ ∃ cd, nodes t !! c = Some cd ∧ parentSub cd = Some p ∧ subscribed cd = true.
Proof.
  intros Hwf Hp Hc.
  destruct (wf_child t Hwf p pd c Hp Hc) as (cd & Hcd & Hpar).
  split; [by eapply wf_parent|]. exists cd. split; [done|]. split; [done|].
  destruct (subscribed cd) eqn:E; [done|].
  destruct (wf_unsubscribed t Hwf c cd Hcd E) as [_ Hno]. by destruct (Hno p pd Hp).
Qed.

(** Changing one node while keeping its parent. *)
Lemma wf_update n f t :
  wf t →
  (∀ nd, parentSub (f nd) = parentSub nd) →
  (∀ nd, nodes t !! n = Some nd → NoDup (listeners (f nd))) →
  (∀ nd c, nodes t !! n = Some nd → c ∈ listeners (f nd) →
           ∃ cd, nodes t !! c = Some cd ∧ parentSub cd = Some n ∧ subscribed cd = true) →
  (∀ nd, nodes t !! n = Some nd → subscribed (f nd) = false →
         (n ∉ storeListeners t) ∧ (∀ p pd, nodes t !! p = Some pd → n ∉ listeners pd)) →
  wf (update n f t).
Proof.
  intros Hwf Hpar Hnd Hmem Hflag.
  assert (Hlt : ∀ nd c, nodes t !! n = Some nd → c ∈ listeners (f nd) → n < c).
  { intros nd c Hl Hc. destruct (Hmem nd c Hl Hc) as (cd & Hcd & Hp & _).
    by eapply wf_parent. }
  split.
  - intros c nd' p Hl Hp. apply lookup_update_Some in Hl as [(-> & nd & Hl & ->)|(_ & Hl)].
    + rewrite Hpar in Hp. by eapply wf_parent.
    + by eapply wf_parent.
  - intros p nd' c Hl Hc. apply parent_of_update; [done|].
    apply lookup_update_Some in Hl as [(-> & nd & Hl & ->)|(_ & Hl)].
    + destruct (Hmem nd c Hl Hc) as (cd & Hcd & Hp & _). by exists cd.
    + by eapply wf_child.
  - rewrite storeListeners_update.
    intros c Hc. destruct (wf_root t Hwf c Hc) as (nd & Hl & Hp).
    rewrite lookup_update. case_decide as E.
    + subst c. rewrite Hl. simpl. exists (f nd). by rewrite Hpar.
    + by exists nd.
  - intros c nd' Hl Hsub. rewrite storeListeners_update.
    assert (Hold : (c ∉ storeListeners t)
                   ∧ (∀ p pd, nodes t !! p = Some pd → c ∉ listeners pd)).
    { apply lookup_update_Some in Hl as [(-> & nd & Hl & ->)|(_ & Hl)].
      - by apply (Hflag nd).
      - by eapply wf_unsubscribed. }
    destruct Hold as [Hs Hno]. split; [done|].
    intros p pd' Hp. apply lookup_update_Some in Hp as [(-> & pd & Hp & ->)|(_ & Hp)].
    + intros Hc. destruct (Hmem pd c Hp Hc) as (cd & Hcd & _ & Hsubc).
      pose proof (Hlt pd c Hp Hc) as Hnc.
      apply lookup_update_Some in Hl as [(-> & _)|(_ & Hl)]; [lia|].
      congruence.
    + by eapply Hno.
  - rewrite storeListeners_update. by apply wf_nodup_store.
  - intros p nd' Hl. apply lookup_update_Some in Hl as [(-> & nd & Hl & ->)|(_ & Hl)].
    + by apply Hnd.
    + by eapply wf_nodup.
Qed.

Lemma wf_root_subscribed t c :
  wf t → c ∈ storeListeners t →
  ∃ nd, nodes t !! c = Some nd ∧ parentSub nd = None ∧ subscribed nd = true.
Proof.
  intros Hwf Hc. destruct (wf_root t Hwf c Hc) as (nd & Hl & Hp).
  exists nd. split; [done|]. split; [done|].
  destruct (subscribed nd) eqn:E; [done|].
  by destruct (wf_unsubscribed t Hwf c nd Hl E).
Qed.

(** Changing the store's listener list. *)
Lemma wf_storeListeners t L :
  wf t → NoDup L →
  (∀ c, c ∈ L → ∃ nd, nodes t !! c = Some nd ∧ parentSub nd = None ∧ subscribed nd = true) →
  wf {| nodes := nodes t; storeListeners := L |}.
Proof.
  intros Hwf HL Hmem. split; simpl.
  - by apply wf_parent.
  - by apply wf_child.
  - intros c Hc. destruct (Hmem c Hc) as (nd & Hl & Hp & _). by exists nd.
  - intros c nd Hl Hsub. split.
    + intros Hc. destruct (Hmem c Hc) as (nd' & Hl' & _ & Hs). congruence.
    + by eapply wf_unsubscribed.
  - done.
  - by apply wf_nodup.
Qed.

Lemma wf_construct upstream t :
  wf t → valid_upstream upstream t = true → wf (construct upstream t).
Proof.
  intros Hwf Hv.
  assert (Hold : ∀ c nd, nodes t !! c = Some nd → nodes (construct upstream t) !! c = Some nd).
  { intros c nd Hl. simpl. rewrite lookup_app_l; [done|]. by eapply lookup_lt_Some. }
  assert (Hnew : ∀ c nd, nodes (construct upstream t) !! c = Some nd →
                 nodes t !! c = Some nd
                 ∨ (c = length (nodes t) ∧ parentSub nd = upstream
                    ∧ subscribed nd = false ∧ listeners nd = [])).
  { intros c nd. simpl. rewrite lookup_snoc_Some. intros [[_ Hl]|[-> <-]]; [by left|by right]. }
  split.
  - intros c nd p Hl Hp. apply Hnew in Hl as [Hl|(-> & Hu & _)]; [by eapply wf_parent|].
    rewrite Hu in Hp. rewrite Hp in Hv. simpl in Hv. by apply bool_decide_eq_true in Hv.
  - intros p nd c Hl Hc. apply Hnew in Hl as [Hl|(_ & _ & _ & Hnil)].
    + destruct (wf_child t Hwf p nd c Hl Hc) as (cd & Hcd & Hp). exists cd. eauto.
    + rewrite Hnil in Hc. by apply not_elem_of_nil in Hc.
  - intros c Hc. destruct (wf_root t Hwf c Hc) as (nd & Hl & Hp). exists nd. eauto.
  - intros c nd Hl Hsub.
    assert (Hmem : ∀ p pd, nodes (construct upstream t) !! p = Some pd →
                   c ∈ listeners pd → nodes t !! c = Some nd → False).
    { intros p pd Hp Hc Hl'. apply Hnew in Hp as [Hp|(_ & _ & _ & Hnil)].
      - destruct (wf_unsubscribed t Hwf c nd Hl' Hsub) as [_ Hno]. exact (Hno p pd Hp Hc).
      - rewrite Hnil in Hc. by apply not_elem_of_nil in Hc. }
    apply Hnew in Hl as [Hl|(-> & _)].
    + split; [by destruct (wf_unsubscribed t Hwf c nd Hl Hsub)|].
      intros p pd Hp Hc. by eapply Hmem.
    + split.
      * intros Hc. destruct (wf_root t Hwf _ Hc) as (nd' & Hl' & _).
        apply lookup_lt_Some in Hl'. lia.
      * intros p pd Hp Hc. apply Hnew in Hp as [Hp|(_ & _ & _ & Hnil)].
        -- destruct (wf_child t Hwf p pd _ Hp Hc) as (cd & Hcd & _).
           apply lookup_lt_Some in Hcd. lia.
        -- rewrite Hnil in Hc. by apply not_elem_of_nil in Hc.
  - simpl. by apply wf_nodup_store.
  - intros p nd Hl. apply Hnew in Hl as [Hl|(_ & _ & _ & Hnil)]; [by eapply wf_nodup|].
    rewrite Hnil. constructor.
Qed.

Lemma wf_setOnStateChange n cb t : wf t → wf (setOnStateChange n cb t).
Proof.
  intros Hwf. apply wf_update; simpl; try done.
  - intros nd Hl. by eapply wf_nodup.
  - intros nd c Hl Hc. by destruct (wf_member_subscribed t n nd c Hwf Hl Hc) as [_ ?].
  - intros nd Hl Hsub. by eapply wf_unsubscribed.
Qed.

Lemma wf_markSubscribed n t : wf t → wf (markSubscribed n t).
Proof.
  intros Hwf. apply wf_update; simpl; try done.
  - intros nd Hl. by eapply wf_nodup.
  - intros nd c Hl Hc. by destruct (wf_member_subscribed t n nd c Hwf Hl Hc) as [_ ?].
Qed.

(** Registering the listener of a subscribed node [c] with its parent [p]. *)
Lemma wf_appendListener p c cd t :
  wf t →
  nodes t !! c = Some cd → parentSub cd = Some p → subscribed cd = true →
  (∀ pd, nodes t !! p = Some pd → c ∉ listeners pd) →
  wf (appendListener p c t).
Proof.
  intros Hwf Hc Hp Hs Hfresh. apply wf_update; simpl; try done.
  - intros pd Hl. apply NoDup_app. split; [by eapply wf_nodup|]. split.
    + intros x Hx Hx'. apply list_elem_of_singleton in Hx'. subst x. by eapply Hfresh.
    + apply NoDup_singleton.
  - intros pd x Hl Hx. apply elem_of_app in Hx as [Hx|Hx].
    + by destruct (wf_member_subscribed t p pd x Hwf Hl Hx) as [_ ?].
    + apply list_elem_of_singleton in Hx. subst x. by exists cd.
  - intros pd Hl Hsub. by eapply wf_unsubscribed.
Qed.

Lemma wf_removeListener p c t : wf t → wf (removeListener p c t).
Proof.
  intros Hwf. apply wf_update; simpl; try done.
  - intros pd Hl. apply NoDup_filter. by eapply wf_nodup.
  - intros pd x Hl Hx. apply list_elem_of_filter in Hx as [_ Hx].
    by destruct (wf_member_subscribed t p pd x Hwf Hl Hx) as [_ ?].
  - intros pd Hl Hsub. by eapply wf_unsubscribed.
Qed.

(** [trySubscribe] keeps the arena well formed and touches no node younger
    than the one it is called on. *)
Lemma trySubscribe_fuel_wf fuel : ∀ n t,
  wf t →
  wf (trySubscribe_fuel fuel n t)
  ∧ (∀ j, n < j → nodes (trySubscribe_fuel fuel n t) !! j = nodes t !! j).
Proof.
  induction fuel as [|fuel IH]; intros n t Hwf; simpl; [done|].
  destruct (nodes t !! n) as [nd|] eqn:Hn; [|done].
  destruct (subscribed nd) eqn:Hs; [done|].
  destruct (parentSub nd) as [p|] eqn:Hp.
  - destruct (IH p t Hwf) as [Hwf1 Hloc1].
    pose proof (wf_parent t Hwf n nd p Hn Hp) as Hlt.
    assert (Hn1 : nodes (trySubscribe_fuel fuel p t) !! n = Some nd) by (by rewrite Hloc1).
    unfold markSubscribed, appendListener. rewrite update_comm by lia. split.
    + eapply (wf_appendListener p n); [by apply wf_markSubscribed| | | |].
      * unfold markSubscribed. rewrite lookup_update, decide_True by done.
        rewrite Hn1. done.
      * done.
      * done.
      * intros pd Hpd. unfold markSubscribed in Hpd.
        apply lookup_update_Some in Hpd as [(-> & _)|(_ & Hpd)]; [lia|].
        destruct (wf_unsubscribed _ Hwf1 n nd Hn1 Hs) as [_ Hno]. by eapply Hno.
    + intros j Hj. rewrite !lookup_update, !decide_False by lia. apply Hloc1. lia.
  - split.
    + change (wf {| nodes := nodes (markSubscribed n t);
                    storeListeners := storeListeners t ++ [n] |}).
      assert (Hn' : nodes (markSubscribed n t) !! n
                    = Some {| parentSub := parentSub nd; onStateChange := onStateChange nd;
                              subscribed := true; listeners := listeners nd |}).
      { unfold markSubscribed. rewrite lookup_update, decide_True by done. by rewrite Hn. }
      apply wf_storeListeners; [by apply wf_markSubscribed| |].
      * apply NoDup_app. split; [by apply wf_nodup_store|]. split; [|apply NoDup_singleton].
        intros x Hx Hx'. apply list_elem_of_singleton in Hx'. subst x.
        by destruct (wf_unsubscribed t Hwf n nd Hn Hs).
      * intros c Hc. apply elem_of_app in Hc as [Hc|Hc].
        -- apply (wf_root_subscribed (markSubscribed n t)); [by apply wf_markSubscribed|done].
        -- apply list_elem_of_singleton in Hc. subst c. eexists. split; [exact Hn'|]. done.
    + intros j Hj. unfold markSubscribed. simpl.
      rewrite list_lookup_alter_ne by lia. done.
Qed.

Lemma wf_trySubscribe n t : wf t → wf (trySubscribe n t).
Proof. intros Hwf. by apply trySubscribe_fuel_wf. Qed.

Lemma wf_tryUnsubscribe n t : wf t → wf (tryUnsubscribe n t).
Proof.
  intros Hwf. unfold tryUnsubscribe.
  destruct (nodes t !! n) as [nd|] eqn:Hn; [|done].
  destruct (subscribed nd) eqn:Hs; [|done].
  assert (Hchild : ∀ p pd, nodes t !! p = Some pd → n ∈ listeners pd → parentSub nd = Some p).
  { intros p pd Hp Hc. destruct (wf_child t Hwf p pd n Hp Hc) as (nd' & Hn' & Hpar).
    congruence. }
  destruct (parentSub nd) as [p|] eqn:Hp.
  - apply wf_update; simpl; try done.
    + by apply wf_removeListener.
    + intros; constructor.
    + intros nd' c _ Hc. by apply not_elem_of_nil in Hc.
    + intros nd' _ _. split.
      * intros Hc. destruct (wf_root t Hwf n Hc) as (nd'' & Hn'' & Hnone). congruence.
      * intros p' pd' Hp' Hc. unfold removeListener in Hp'.
        apply lookup_update_Some in Hp' as [(-> & pd & Hpd & ->)|(Hne & Hp')].
        -- simpl in Hc. apply list_elem_of_filter in Hc as [Hc _]. done.
        -- specialize (Hchild p' pd' Hp' Hc). congruence.
  - apply wf_update; simpl; try done.
    + apply wf_storeListeners; [done|apply NoDup_filter; by apply wf_nodup_store|].
      intros c Hc. apply list_elem_of_filter in Hc as [_ Hc]. by apply wf_root_subscribed.
    + intros; constructor.
    + intros nd' c _ Hc. by apply not_elem_of_nil in Hc.
    + intros nd' _ _. split.
      * intros Hc. apply list_elem_of_filter in Hc as [Hc _]. done.
      * intros p' pd' Hp' Hc. specialize (Hchild p' pd' Hp' Hc). congruence.
Qed.

Lemma wf_step t o : wf t → wf (step t o).
Proof.
  intros Hwf. destruct o as [upstream|n cb|n|n]; simpl.
  - destruct (valid_upstream upstream t) eqn:Hv; [by apply wf_construct|done].
  - by apply wf_setOnStateChange.
  - by apply wf_trySubscribe.
  - by apply wf_tryUnsubscribe.
Qed.

Lemma wf_foldl_step ops : ∀ t, wf t → wf (foldl step t ops).
Proof. induction ops as [|o ops IH]; intros t Hwf; [done|]. simpl. by apply IH, wf_step. Qed.

Lemma wf_run ops : wf (run ops).
Proof. apply wf_foldl_step, wf_empty. Qed.

(** *** What [trySubscribe] does to the node it is called on *)

(** [trySubscribe] changes neither the size of the arena nor the parent or
    the own callback of any node. *)
Lemma trySubscribe_fuel_static fuel : ∀ n t,
  length (nodes (trySubscribe_fuel fuel n t)) = length (nodes t)
  ∧ (∀ j nd', nodes (trySubscribe_fuel fuel n t) !! j = Some nd' →
       ∃ nd, nodes t !! j = Some nd
             ∧ parentSub nd' = parentSub nd ∧ onStateChange nd' = onStateChange nd).
Proof.
  induction fuel as [|fuel IH]; intros n t; simpl; [by eauto|].
  destruct (nodes t !! n) as [nd|] eqn:Hn; [|by eauto].
  destruct (subscribed nd) eqn:Hs; [by eauto|].
  destruct (parentSub nd) as [p|] eqn:Hp.
  - destruct (IH p t) as [Hlen Hst]. split.
    + unfold markSubscribed, appendListener. by rewrite !length_update.
    + intros j nd' Hj. unfold markSubscribed, appendListener in Hj.
      apply lookup_update_Some in Hj as [(-> & nd1 & Hj & ->)|(_ & Hj)];
        apply lookup_update_Some in Hj as [(-> & nd2 & Hj & ->)|(_ & Hj)];
        destruct (Hst _ _ Hj) as (nd0 & H0 & Hpar & Hcb); exists nd0; by simpl.
  - split.
    + unfold markSubscribed. by rewrite length_update.
    + intros j nd' Hj. unfold markSubscribed in Hj.
      apply lookup_update_Some in Hj as [(-> & nd1 & Hj & ->)|(_ & Hj)]; simpl in Hj; eauto.
Qed.

(** After [trySubscribe] the node is subscribed; the height of the parent
    chain does not matter. *)
Lemma trySubscribe_subscribed n t nd :
  nodes t !! n = Some nd →
  ∃ nd', nodes (trySubscribe n t) !! n = Some nd'
         ∧ subscribed nd' = true
         ∧ parentSub nd' = parentSub nd ∧ onStateChange nd' = onStateChange nd.
Proof.
  intros Hn. unfold trySubscribe. simpl. rewrite Hn.
  destruct (subscribed nd) eqn:Hs; [by exists nd|].
  destruct (parentSub nd) as [p|] eqn:Hp.
  - destruct (trySubscribe_fuel_static n p t) as [Hlen Hst].
    assert (is_Some (nodes (appendListener p n (trySubscribe_fuel n p t)) !! n)) as [nd1 H1].
    { apply lookup_lt_is_Some. unfold appendListener. rewrite length_update, Hlen.
      by eapply lookup_lt_Some. }
    unfold markSubscribed. rewrite lookup_update, decide_True by done. rewrite H1. simpl.
    eexists. split; [done|]. simpl. split; [done|].
    unfold appendListener in H1.
    apply lookup_update_Some in H1 as [(Heq & nd2 & H2 & ->)|(_ & H2)];
      [subst p|];
      destruct (Hst _ _ H2) as (nd0 & H0 & Hpar & Hcb);
      rewrite Hn in H0; injection H0 as <-; simpl; by rewrite Hpar, Hcb.
  - unfold markSubscribed. rewrite lookup_update, decide_True by done. simpl. rewrite Hn.
    simpl. eexists. split; [done|]. by simpl.
Qed.

(** Only listed listeners are called. *)
Lemma handleChange_listed t fuel : ∀ n x,
  x ∈ handleChange fuel t n →
  x = n ∨ ∃ p pd, nodes t !! p = Some pd ∧ x ∈ listeners pd.
Proof.
  induction fuel as [|fuel IH]; intros n x; simpl.
  - intros Hx. by apply not_elem_of_nil in Hx.
  - destruct (nodes t !! n) as [nd|] eqn:Hl; [|intros Hx; by apply not_elem_of_nil in Hx].
    rewrite elem_of_app. intros [Hx|Hx].
    + destruct (onStateChange nd); [|by apply not_elem_of_nil in Hx].
      apply list_elem_of_singleton in Hx. by left.
    + apply list_elem_of_bind in Hx as (c & Hx & Hc).
      destruct (IH c x Hx) as [->|?]; [|by right]. right. by exists n, nd.
Qed.

(** A node that is not subscribed is not notified. *)
Lemma unsubscribed_not_notified t c nd :
  wf t → nodes t !! c = Some nd → subscribed nd = false → c ∉ notify t.
Proof.
  intros Hwf Hc Hs Hin. destruct (wf_unsubscribed t Hwf c nd Hc Hs) as [Hstore Hlist].
  unfold notify in Hin. apply list_elem_of_bind in Hin as (r & Hin & Hr).
  apply handleChange_listed in Hin as [->|(p & pd & Hp & Hx)]; [done|].
  by apply (Hlist p pd).
Qed.

(** *** Registration *)

(** Growing the listener lists keeps registered nodes registered. *)
Lemma registered_mono t t' n :
  (∀ x, x ∈ storeListeners t → x ∈ storeListeners t') →
  (∀ p pd, nodes t !! p = Some pd →
           ∃ pd', nodes t' !! p = Some pd' ∧ ∀ x, x ∈ listeners pd → x ∈ listeners pd') →
  registered t n → registered t' n.
Proof.
  intros Hstore Hlist. induction 1 as [n Hn|p pd n _ IH Hp Hn].
  - apply registered_store. by apply Hstore.
  - destruct (Hlist p pd Hp) as (pd' & Hp' & Hsub).
    eapply registered_child; [exact IH|exact Hp'|]. by apply Hsub.
Qed.

Lemma registered_subscribed t n :
  wf t → registered t n → ∃ nd, nodes t !! n = Some nd ∧ subscribed nd = true.
Proof.
  intros Hwf [n' Hn|p pd n' _ Hp Hn].
  - destruct (wf_root_subscribed t n' Hwf Hn) as (nd & Hl & _ & Hs). by exists nd.
  - destruct (wf_member_subscribed t p pd n' Hwf Hp Hn) as (_ & nd & Hl & _ & Hs).
    by exists nd.
Qed.

(** Subscribing a node under a registered upstream registers it. *)
Lemma trySubscribe_registers n t nd :
  wf t → nodes t !! n = Some nd → subscribed nd = false →
  match parentSub nd with Some p => registered t p | None => True end →
  registered (trySubscribe n t) n.
Proof.
  intros Hwf Hn Hs Hup. unfold trySubscribe. simpl. rewrite Hn, Hs.
  destruct (parentSub nd) as [p|] eqn:Hp.
  - pose proof (wf_parent t Hwf n nd p Hn Hp) as Hlt.
    destruct (registered_subscribed t p Hwf Hup) as (pd & Hpd & Hps).
    assert (trySubscribe_fuel n p t = t) as ->.
    { destruct n as [|k]; [lia|]. simpl. by rewrite Hpd, Hps. }
    assert (Hp' : nodes (markSubscribed n (appendListener p n t)) !! p
                  = Some {| parentSub := parentSub pd; onStateChange := onStateChange pd;
                            subscribed := subscribed pd; listeners := listeners pd ++ [n] |}).
    { unfold markSubscribed, appendListener.
      rewrite lookup_update, decide_False by lia.
      rewrite lookup_update, decide_True by done. by rewrite Hpd. }
    eapply registered_child; [|exact Hp'|].
    + apply (registered_mono t); [done| |done].
      intros q qd Hq. unfold markSubscribed, appendListener.
      destruct (decide (q = n)) as [->|Hqn]; [|destruct (decide (q = p)) as [->|Hqp]].
      * rewrite lookup_update, decide_True by done.
        rewrite lookup_update, decide_False by lia. rewrite Hq. simpl.
        eexists. split; [done|]. done.
      * rewrite lookup_update, decide_False by lia.
        rewrite lookup_update, decide_True by done. rewrite Hq. simpl.
        eexists. split; [done|]. simpl. intros x Hx. apply elem_of_app. by left.
      * rewrite lookup_update, decide_False by done.
        rewrite lookup_update, decide_False by done.
        eexists. split; [done|]. done.
    + simpl. apply elem_of_app. right. by left.
  - apply registered_store. simpl. apply elem_of_app. right. by left.
Qed.

(** *** The order of a notification pass *)

Lemma ancestors_first_mono t l : ∀ seen seen',
  (∀ x, x ∈ seen → x ∈ seen') →
  ancestors_first t seen l → ancestors_first t seen' l.
Proof.
  induction l as [|d l IH]; intros seen seen' Hsub; [done|].
  simpl. intros [Hd Hl]. split; [by eauto|].
  apply (IH (seen ++ [d])); [|done].
  intros x. rewrite !elem_of_app. intros [Hx|Hx]; [left; by apply Hsub|by right].
Qed.

Lemma ancestors_first_app t l1 : ∀ seen l2,
  ancestors_first t seen (l1 ++ l2)
  ↔ ancestors_first t seen l1 ∧ ancestors_first t (seen ++ l1) l2.
Proof.
  induction l1 as [|d l1 IH]; intros seen l2; simpl.
  - rewrite app_nil_r. tauto.
  - rewrite IH, <- app_assoc. simpl. tauto.
Qed.

Lemma ancestors_first_split t l : ∀ seen before d after,
  ancestors_first t seen l →
  l = before ++ d :: after →
  ∀ a, ancestor t a d → has_callback t a → a ∈ seen ++ before.
Proof.
  intros seen before d after Hl ->.
  apply ancestors_first_app in Hl as [_ [Hd _]]. done.
Qed.

Lemma parent_of_functional t c p p' : parent_of t c p → parent_of t c p' → p = p'.
Proof. intros (nd & Hl & Hp) (nd' & Hl' & Hp'). congruence. Qed.

(** The ancestors of a child are its parent and the parent's ancestors. *)
Lemma ancestor_of_child t a c p :
  parent_of t c p → ancestor t a c → a = p ∨ ancestor t a p.
Proof.
  intros Hp Ha. inversion Ha as [d q Hq|b d q Hq Hb]; subst.
  - left. by eapply parent_of_functional.
  - right. by rewrite (parent_of_functional t c p q).
Qed.

Lemma ancestors_first_bind t (f : nat → list nat) (cs : list nat) : ∀ seen,
  (∀ c seen', c ∈ cs → (∀ x, x ∈ seen → x ∈ seen') →
              ancestors_first t seen' (f c)) →
  ancestors_first t seen (cs ≫= f).
Proof.
  induction cs as [|c cs IH]; intros seen Hf; [done|].
  rewrite bind_cons. apply ancestors_first_app. split.
  - apply Hf; [by left|done].
  - apply IH. intros c' seen' Hc' Hsub. apply Hf; [by right|].
    intros x Hx. apply Hsub, elem_of_app. by left.
Qed.

Lemma handleChange_ancestors_first t :
  wf t →
  ∀ fuel n seen,
    (∀ a, ancestor t a n → has_callback t a → a ∈ seen) →
    ancestors_first t seen (handleChange fuel t n).
Proof.
  intros Hwf. induction fuel as [|fuel IH]; intros n seen Hn; simpl; [done|].
  destruct (nodes t !! n) as [nd|] eqn:Hl; [|done].
  apply ancestors_first_app. split.
  - destruct (onStateChange nd); simpl; [|done]. by split.
  - apply ancestors_first_bind. intros c seen' Hc Hsub. apply IH.
    intros a Ha Hcb. apply Hsub.
    pose proof (wf_child t Hwf n nd c Hl Hc) as Hp.
    destruct (ancestor_of_child t a c n Hp Ha) as [->|Ha'].
    + apply elem_of_app. right. destruct Hcb as (nd' & Hl' & Hsome).
      rewrite Hl in Hl'. injection Hl' as <-.
      destruct (onStateChange nd); [by left|by destruct Hsome].
    + apply elem_of_app. left. by apply Hn.
Qed.

Lemma notify_ancestors_first t : wf t → ancestors_first t [] (notify t).
Proof.
  intros Hwf. unfold notify. apply ancestors_first_bind.
  intros c seen' Hc _. apply handleChange_ancestors_first; [done|].
  intros a Ha _. destruct (wf_root t Hwf c Hc) as (nd & Hl & Hnone).
  inversion Ha as [d q (nd' & Hl' & Hq)|b d q (nd' & Hl' & Hq) Hb]; subst; congruence.
Qed.

(** *** Every node is notified at most once *)

Lemma ancestor_lt t a d : wf t → ancestor t a d → a < d.
Proof.
  intros Hwf. induction 1 as [d p (nd & Hl & Hp)|a d p (nd & Hl & Hp) _ IH].
  - by eapply wf_parent.
  - pose proof (wf_parent t Hwf d nd p Hl Hp). lia.
Qed.

Lemma ancestor_trans t a b c : ancestor t a b → ancestor t b c → ancestor t a c.
Proof.
  intros Hab. induction 1 as [d p Hp|b d p Hp _ IH].
  - by eapply ancestor_step.
  - eapply ancestor_step; [done|]. by apply IH.
Qed.

(** The ancestors of a node form a chain. *)
Lemma ancestor_total t a c d :
  ancestor t a d → ancestor t c d → a = c ∨ ancestor t a c ∨ ancestor t c a.
Proof.
  induction 1 as [d p Hp|a d p Hp Ha IH]; intros Hc.
  - destruct (ancestor_of_child t c d p Hp Hc) as [->|Hc']; [by left|].
    right. right. done.
  - destruct (ancestor_of_child t c d p Hp Hc) as [->|Hc']; [by right; left|].
    by apply IH.
Qed.

Lemma elem_handleChange t :
  wf t → ∀ fuel n x, x ∈ handleChange fuel t n → x = n ∨ ancestor t n x.
Proof.
  intros Hwf. induction fuel as [|fuel IH]; intros n x; simpl.
  - intros Hx. by apply not_elem_of_nil in Hx.
  - destruct (nodes t !! n) as [nd|] eqn:Hl; [|intros Hx; by apply not_elem_of_nil in Hx].
    rewrite elem_of_app. intros [Hx|Hx].
    + destruct (onStateChange nd); [|by apply not_elem_of_nil in Hx].
      apply list_elem_of_singleton in Hx. by left.
    + apply list_elem_of_bind in Hx as (c & Hx & Hc). right.
      pose proof (wf_child t Hwf n nd c Hl Hc) as Hp.
      destruct (IH c x Hx) as [->|Hcx]; [by apply ancestor_parent|].
      eapply ancestor_trans; [by apply ancestor_parent|done].
Qed.

(** Two listeners registered with the same upstream reach disjoint sets of
    nodes: whatever is above one of them is below the other in age. *)
Lemma reach_unique t c1 c2 y :
  wf t →
  (∀ a, ancestor t a c1 → a < c2) →
  (∀ a, ancestor t a c2 → a < c1) →
  y = c1 ∨ ancestor t c1 y →
  y = c2 ∨ ancestor t c2 y →
  c1 = c2.
Proof.
  intros Hwf H1 H2 [->|Hy1] [Hy2|Hy2].
  - done.
  - specialize (H1 _ Hy2). lia.
  - subst y. specialize (H2 _ Hy1). lia.
  - destruct (ancestor_total t c1 c2 y Hy1 Hy2) as [?|[H|H]]; [done| |].
    + specialize (H2 _ H). lia.
    + specialize (H1 _ H). lia.
Qed.

Lemma handleChange_NoDup t : wf t → ∀ fuel n, NoDup (handleChange fuel t n).
Proof.
  intros Hwf. induction fuel as [|fuel IH]; intros n; simpl; [constructor|].
  destruct (nodes t !! n) as [nd|] eqn:Hl; [|constructor].
  assert (Habove : ∀ c a, c ∈ listeners nd → ancestor t a c → a ≤ n).
  { intros c a Hc Ha. pose proof (wf_child t Hwf n nd c Hl Hc) as Hp.
    destruct (ancestor_of_child t a c n Hp Ha) as [->|Ha']; [done|].
    apply ancestor_lt in Ha'; [lia|done]. }
  assert (Hbelow : ∀ c, c ∈ listeners nd → n < c).
  { intros c Hc. by destruct (wf_member_subscribed t n nd c Hwf Hl Hc). }
  apply NoDup_app. split; [|split].
  - destruct (onStateChange nd); [apply NoDup_singleton|constructor].
  - intros x Hx Hx'.
    assert (x = n) as ->.
    { destruct (onStateChange nd); [|by apply not_elem_of_nil in Hx].
      by apply list_elem_of_singleton in Hx. }
    apply list_elem_of_bind in Hx' as (c & Hx' & Hc).
    pose proof (Hbelow c Hc).
    destruct (elem_handleChange t Hwf fuel c n Hx') as [->|Ha]; [lia|].
    apply ancestor_lt in Ha; [lia|done].
  - apply NoDup_bind; [|by intros|by eapply wf_nodup].
    intros c1 c2 y Hc1 Hc2 Hy1 Hy2.
    apply (reach_unique t c1 c2 y Hwf).
    + intros a Ha. pose proof (Habove c1 a Hc1 Ha). pose proof (Hbelow c2 Hc2). lia.
    + intros a Ha. pose proof (Habove c2 a Hc2 Ha). pose proof (Hbelow c1 Hc1). lia.
    + by apply (elem_handleChange t Hwf fuel).
    + by apply (elem_handleChange t Hwf fuel).
Qed.

Lemma notify_NoDup t : wf t → NoDup (notify t).
Proof.
  intros Hwf. unfold notify.
  assert (Hroot : ∀ c a, c ∈ storeListeners t → ancestor t a c → False).
  { intros c a Hc Ha. destruct (wf_root t Hwf c Hc) as (nd & Hl & Hnone).
    inversion Ha as [d q (nd' & Hl' & Hq)|b d q (nd' & Hl' & Hq) Hb]; subst; congruence. }
  apply NoDup_bind; [|by intros; apply handleChange_NoDup|by apply wf_nodup_store].
  intros c1 c2 y Hc1 Hc2 Hy1 Hy2.
  apply (reach_unique t c1 c2 y Hwf).
  - intros a Ha. by destruct (Hroot c1 a).
  - intros a Ha. by destruct (Hroot c2 a).
  - by apply (elem_handleChange t Hwf (length (nodes t))).
  - by apply (elem_handleChange t Hwf (length (nodes t))).
Qed.

(** *** The fuel is enough: every registered node is reached *)

Lemma handleChange_mono t x : ∀ fuel fuel' n,
  fuel ≤ fuel' → x ∈ handleChange fuel t n → x ∈ handleChange fuel' t n.
Proof.
  induction fuel as [|fuel IH]; intros fuel' n Hle; simpl.
  - intros Hx. by apply not_elem_of_nil in Hx.
  - destruct fuel' as [|fuel']; [lia|]. simpl.
    destruct (nodes t !! n) as [nd|]; [|done].
    rewrite !elem_of_app. intros [Hx|Hx]; [by left|]. right.
    apply list_elem_of_bind in Hx as (c & Hx & Hc).
    apply list_elem_of_bind. exists c. split; [|done]. apply (IH fuel'); [lia|done].
Qed.

Lemma registered_reaches t d :
  wf t → registered t d →
  ∃ r, r ∈ storeListeners t ∧ r ≤ d
       ∧ ∀ g x, x ∈ handleChange g t d → x ∈ handleChange (g + (d - r)) t r.
Proof.
  intros Hwf. induction 1 as [n Hn|p nd n _ (r & Hr & Hle & IH) Hl Hn].
  - exists n. split; [done|]. split; [done|]. intros g x Hx.
    apply (handleChange_mono t x g); [lia|done].
  - destruct (wf_member_subscribed t p nd n Hwf Hl Hn) as [Hlt _].
    exists r. split; [done|]. split; [lia|]. intros g x Hx.
    apply (handleChange_mono t x (S g + (p - r))); [lia|]. apply IH.
    simpl. rewrite Hl. apply elem_of_app. right.
    apply list_elem_of_bind. by exists n.
Qed.

Lemma notify_complete t d :
  wf t → registered t d → has_callback t d → d ∈ notify t.
Proof.
  intros Hwf Hreg (nd & Hl & Hcb).
  destruct (registered_reaches t d Hwf Hreg) as (r & Hr & Hle & Hreach).
  unfold notify. apply list_elem_of_bind. exists r. split; [|done].
  apply (handleChange_mono t d (1 + (d - r))).
  - apply lookup_lt_Some in Hl. lia.
  - apply Hreach. simpl. rewrite Hl. destruct (onStateChange nd); [|by destruct Hcb].
    apply elem_of_app. left. by left.
Qed.

(** C5: take any subscription arena built by constructing nodes, assigning
    own callbacks, subscribing and unsubscribing, and consider a store
    update, i.e. one notification pass. In the order in which the own
    callbacks run, no node runs twice, every node whose listener chain
    reaches the store runs, and each node that runs is preceded by all of
    its ancestors that have an own callback: the order is a topological
    order of the tree, ancestors first. Since this holds of the arena at any
    moment, it holds of every update in a sequence of updates. *)
Theorem notification_ancestor_before_descendant (ops : list op) :
  NoDup (notify (run ops))
  ∧ (∀ d, registered (run ops) d → has_callback (run ops) d → d ∈ notify (run ops))
  ∧ (∀ before d after,
       notify (run ops) = before ++ d :: after →
       ∀ a, ancestor (run ops) a d → has_callback (run ops) a → a ∈ before).
Proof.
  pose proof (wf_run ops) as Hwf. split; [|split].
  - by apply notify_NoDup.
  - intros d. by apply notify_complete.
  - intros before d after Heq a Ha Hcb.
    by apply (ancestors_first_split (run ops) (notify (run ops)) [] before d after
                (notify_ancestors_first _ Hwf) Heq a).
Qed.

End Tree.

(** *** A concrete tree *)

(** Node [0] is attached to the store; [1] and [3] are constructed under
    [0], and [2] under [1]. Subscribing [2] subscribes [1] and [0] on the
    way; [3] subscribes afterwards. *)
Definition example_ops : list (op (C := unit)) :=
  [Construct None; SetOnStateChange 0 (Some ());
   Construct (Some 0); SetOnStateChange 1 (Some ());
   Construct (Some 1); SetOnStateChange 2 (Some ());
   Construct (Some 0); SetOnStateChange 3 (Some ());
   TrySubscribe 2; TrySubscribe 3].

Example example_tree :
  run example_ops
  = {| nodes :=
         [ {| parentSub := None; onStateChange := Some (); subscribed := true;
              listeners := [1; 3] |};
           {| parentSub := Some 0; onStateChange := Some (); subscribed := true;
              listeners := [2] |};
           {| parentSub := Some 1; onStateChange := Some (); subscribed := true;
              listeners := [] |};
           {| parentSub := Some 0; onStateChange := Some (); subscribed := true;
              listeners := [] |} ];
       storeListeners := [0] |}.
Proof. reflexivity. Qed.

Example example_notify : notify (run example_ops) = [0; 1; 2; 3].
Proof. reflexivity. Qed.

(** After node [1] unsubscribes, it and the subtree below it are no longer
    reached; the rest keeps its order. *)
Example example_unsubscribe :
  notify (run (example_ops ++ [TryUnsubscribe 1])) = [0; 3].
Proof. reflexivity. Qed.

Lemma notification_ancestor_before_descendant_witness :
  0 ∈ [0; 1] ∧ 2 ∈ notify (run example_ops).
Proof.
  destruct (notification_ancestor_before_descendant example_ops) as (_ & Hall & Hbefore).
  split.
  - apply (Hbefore [0; 1] 2 [3]).
    + reflexivity.
    + eapply ancestor_step; [|apply ancestor_parent].
      * eexists. split; [reflexivity|reflexivity].
      * eexists. split; [reflexivity|reflexivity].
    + eexists. split; [reflexivity|]. by eexists.
  - apply Hall.
    + eapply (registered_child _ 1); [|reflexivity|by left].
      eapply (registered_child _ 0); [|reflexivity|by left].
      apply registered_store. by left.
    + eexists. split; [reflexivity|]. by eexists.
Defined.

End Subscription.

(** ** The direct flavor ([useSelector]) *)

Module UseSelector.

(** What happened to the hook, in order: instrumentation for the error
    correlation property. A pass is completed when the effects of a render
    that returned have run. *)
Inductive hevent :=
| PassCompleted
| RenderThrew (e : error)
| BackgroundFailure (e : thrown).

(** The newline character of the template literals. *)
Definition nl : string := String (ascii_of_nat 10) EmptyString.

(** [`${err.message}`] in the template of line 60, for the value [err]
    caught at line 59: the [message] of an object; [undefined] for a
    primitive, which has no such property; nothing ([None]) for [null] and
    [undefined], on which reading a property raises a [TypeError]. *)
Definition message_text (err : thrown) : option string :=
  match err with
  | ThrownObject e => Some (message e)
  | ThrownPrimitive PUndefined | ThrownPrimitive PNull => None
  | ThrownPrimitive _ => Some "undefined"
  end.

(** [`${previous.stack}`] in the template of line 65, for a truthy
    [previous]: the [stack] of an object; [undefined] for a primitive. *)
Definition stack_text (previous : thrown) : string :=
  match previous with
  | ThrownObject e => stack e
  | ThrownPrimitive _ => "undefined"
  end.

(** Lines 64-68: what is added to the message when
    [latestSubscriptionCallbackError.current] is truthy. *)
Definition correlation (previous : thrown) : string :=
  nl +:+ "The error may be correlated with this previous error:" +:+ nl
  +:+ stack_text previous +:+ nl +:+ nl +:+ "Original stack trace:".

(** Lines 60-68: the message of the error thrown by a render whose selector
    threw a value with message text [err_message], given the content of
    [latestSubscriptionCallbackError] ([None]: the ref holds the [undefined]
    it was created with or the one line 78 stored). The addition is made
    when that content is truthy (line 64). *)
Definition errorMessage (err_message : string) (previous : option thrown) : string :=
  "An error occured while selecting the store state: " +:+ err_message +:+ "."
  +:+ match previous with
      | Some prev => if thrown_truthy prev then correlation prev else EmptyString
      | None => EmptyString
      end.

(** The text a test looks for in the message. *)
Definition correlation_text : string := "The error may be correlated".

(** [contains pat s]: [pat] occurs in [s]. *)
Definition contains (pat s : string) : Prop := ∃ pre post, s = pre +:+ pat +:+ post.

Fixpoint occurs (c : ascii) (s : string) : bool :=
  match s with
  | EmptyString => false
  | String x s' => bool_decide (x = c) || occurs c s'
  end.

Section Hook.
Context {W : Type}.
Variable heap_of : W → gmap nat object.
(** The stack text the engine attaches to a new [Error]. *)
Variable stack_trace : string → string.
(** The message of the [TypeError] the engine raises when the [message]
    property of a thrown [null] or [undefined] is read (line 61). *)
Variable type_error_message : thrown → string.

Definition selector : Type := value → JS W value.

(** An actual argument passed after the selector. The function declares one
    parameter; JavaScript evaluates and drops the others. *)
Definition equalityFn : Type := value → value → bool.

(** The cells React keeps for one mounted hook: the counter of
    [useReducer(s => s + 1, 0)], the memoized [Subscription] (a node of the
    arena), the three refs, and whether the subscription effect has run for
    the current [store] and [subscription]. The error ref holds [None]
    while its content is the [undefined] it was created with or the one
    line 78 stored, and [Some t] once line 96 has stored the caught value
    [t], whatever it is. *)
Record Hook := {
  forceRenders : nat;
  subscription : nat;
  latestSubscriptionCallbackError : option thrown;
  latestSelector : selector;
  latestSelectedState : value;
  effectInstalled : bool
}.

(** The store state, the subscription arena with the node found in the
    context, the hook, the effects of a render not yet committed (they
    capture [selector] and [selectedState]), and the history. In this model
    the store and the context of a mounted hook stay the same, so the
    dependencies [store, subscription] of the second effect change at mount
    only. *)
Record System := {
  storeState : value;
  subs : Subscription.tree (C := unit);
  contextSub : option nat;
  hook : option Hook;
  pendingEffects : option (selector * value);
  history : list hevent
}.

Definition set_hook (s : System) (hk : Hook) : System :=
  {| storeState := storeState s; subs := subs s; contextSub := contextSub s;
     hook := Some hk; pendingEffects := pendingEffects s; history := history s |}.

Definition log (s : System) (e : hevent) : System :=
  {| storeState := storeState s; subs := subs s; contextSub := contextSub s;
     hook := hook s; pendingEffects := pendingEffects s; history := history s ++ [e] |}.

(** [forceRender({})]. *)
Definition forceRender (hk : Hook) : Hook :=
  {| forceRenders := S (forceRenders hk); subscription := subscription hk;
     latestSubscriptionCallbackError := latestSubscriptionCallbackError hk;
     latestSelector := latestSelector hk;
     latestSelectedState := latestSelectedState hk;
     effectInstalled := effectInstalled hk |}.

(** Lines 59-70: the error a render raises when its selector threw [err].
    When [err] is [null] or [undefined], line 61 raises the engine's
    [TypeError] before anything is composed. *)
Definition render_error (err : thrown) (previous : option thrown) : error :=
  match message_text err with
  | Some err_message => new_Error stack_trace (errorMessage err_message previous)
  | None => new_Error stack_trace (type_error_message err)
  end.

(** The render phase, lines 41-73 and 110. On the first render the cells
    are created: the subscription is constructed under the context's node
    and the refs are initialised. A render that throws is discarded with
    the effects it would have had; the history keeps the thrown error. *)
Definition useSelector (selector : option selector) (extra : list equalityFn) (s : System)
  : W → completion value * System * W := λ w,
  match selector with
  | None =>
      let e := new_Error stack_trace "You must pass a selector to useSelectors" in
      (Throw e,
       {| storeState := storeState s; subs := subs s; contextSub := contextSub s;
          hook := hook s; pendingEffects := None;
          history := history s ++ [RenderThrew e] |},
       w)
  | Some selector =>
      let previous := match hook s with
                      | Some hk => latestSubscriptionCallbackError hk
                      | None => None
                      end in
      match selector (storeState s) w with
      | (Return selectedState, w') =>
          let s' :=
            match hook s with
            | Some hk => s
            | None =>
                {| storeState := storeState s;
                   subs := Subscription.construct (contextSub s) (subs s);
                   contextSub := contextSub s;
                   hook := Some {| forceRenders := 0;
                                   subscription := length (Subscription.nodes (subs s));
                                   latestSubscriptionCallbackError := None;
                                   latestSelector := selector;
                                   latestSelectedState := selectedState;
                                   effectInstalled := false |};
                   pendingEffects := pendingEffects s;
                   history := history s |}
            end in
          (Return selectedState,
           {| storeState := storeState s'; subs := subs s'; contextSub := contextSub s';
              hook := hook s'; pendingEffects := Some (selector, selectedState);
              history := history s' |},
           w')
      | (Throw err, w') =>
          let e := render_error err previous in
          (Throw e,
           {| storeState := storeState s; subs := subs s; contextSub := contextSub s;
              hook := hook s; pendingEffects := None;
              history := history s ++ [RenderThrew e] |},
           w')
      end
  end.

(** [checkForUpdates], lines 82-100. *)
Definition checkForUpdates (s : System) : W → System * W := λ w,
  match hook s with
  | None => (s, w)
  | Some hk =>
      match latestSelector hk (storeState s) w with
      | (Return newSelectedState, w') =>
          if shallowEqual (heap_of w') newSelectedState (latestSelectedState hk)
          then (s, w')
          else
            (set_hook s
               (forceRender
                  {| forceRenders := forceRenders hk; subscription := subscription hk;
                     latestSubscriptionCallbackError := latestSubscriptionCallbackError hk;
                     latestSelector := latestSelector hk;
                     latestSelectedState := newSelectedState;
                     effectInstalled := effectInstalled hk |}),
             w')
      | (Throw err, w') =>
          (log (set_hook s
                  (forceRender
                     {| forceRenders := forceRenders hk; subscription := subscription hk;
                        latestSubscriptionCallbackError := Some err;
                        latestSelector := latestSelector hk;
                        latestSelectedState := latestSelectedState hk;
                        effectInstalled := effectInstalled hk |}))
               (BackgroundFailure err),
           w')
      end
  end.

(** The first effect, lines 75-79; it runs after every render that
    returned. *)
Definition effect_refs (selector : selector) (selectedState : value) (hk : Hook) : Hook :=
  {| forceRenders := forceRenders hk; subscription := subscription hk;
     latestSubscriptionCallbackError := None;
     latestSelector := selector;
     latestSelectedState := selectedState;
     effectInstalled := effectInstalled hk |}.

(** The second effect, lines 81-108; it runs when [store] or
    [subscription] changed, that is at mount. *)
Definition effect_subscribe (s : System) : W → System * W := λ w,
  match hook s with
  | None => (s, w)
  | Some hk =>
      let n := subscription hk in
      let subs' :=
        Subscription.trySubscribe n (Subscription.setOnStateChange n (Some ()) (subs s)) in
      checkForUpdates
        {| storeState := storeState s; subs := subs'; contextSub := contextSub s;
           hook := Some {| forceRenders := forceRenders hk; subscription := n;
                           latestSubscriptionCallbackError := latestSubscriptionCallbackError hk;
                           latestSelector := latestSelector hk;
                           latestSelectedState := latestSelectedState hk;
                           effectInstalled := true |};
           pendingEffects := pendingEffects s; history := history s |} w
  end.

(** The commit phase: the effects of the last render run, in order. *)
Definition commit (s : System) : W → System * W := λ w,
  match pendingEffects s, hook s with
  | Some (selector, selectedState), Some hk =>
      let s1 :=
        {| storeState := storeState s; subs := subs s; contextSub := contextSub s;
           hook := Some (effect_refs selector selectedState hk);
           pendingEffects := None;
           history := history s ++ [PassCompleted] |} in
      if effectInstalled hk then (s1, w) else effect_subscribe s1 w
  | _, _ => (s, w)
  end.

(** A store update: the state changes and the listeners are notified; the
    own callback of the hook's node is [checkForUpdates]. *)
Definition run_callback (acc : System * W) (n : nat) : System * W :=
  match hook acc.1 with
  | Some hk => if bool_decide (n = subscription hk) then checkForUpdates acc.1 acc.2 else acc
  | None => acc
  end.

Definition storeUpdate (newState : value) (s : System) : W → System * W := λ w,
  foldl run_callback
    ({| storeState := newState; subs := subs s; contextSub := contextSub s;
        hook := hook s; pendingEffects := pendingEffects s; history := history s |}, w)
    (Subscription.notify (subs s)).

(** Store updates in a row. *)
Definition storeUpdates (newStates : list value) (acc : System * W) : System * W :=
  foldl (λ acc v, storeUpdate v acc.1 acc.2) acc newStates.

Definition set_storeState (s : System) (v : value) : System :=
  {| storeState := v; subs := subs s; contextSub := contextSub s;
     hook := hook s; pendingEffects := pendingEffects s; history := history s |}.

(** The content of [latestSubscriptionCallbackError]. *)
Definition slot (s : System) : option thrown :=
  match hook s with
  | Some hk => latestSubscriptionCallbackError hk
  | None => None
  end.

(** What React and the store do to a mounted (or mounting) hook. *)
Inductive hook_op :=
| Render (selector : option selector) (extra : list equalityFn)
| Commit
| StoreUpdate (newState : value).

Definition hook_step (acc : System * W) (o : hook_op) : System * W :=
  match o with
  | Render selector extra => let '(_, s, w) := useSelector selector extra acc.1 acc.2 in (s, w)
  | Commit => commit acc.1 acc.2
  | StoreUpdate newState => storeUpdate newState acc.1 acc.2
  end.

Definition hook_run (ops : list hook_op) (acc : System * W) : System * W := foldl hook_step acc ops.

(** Before the first render. *)
Definition unmounted (state : value) (arena : Subscription.tree (C := unit))
    (context : option nat) : System :=
  {| storeState := state; subs := arena; contextSub := context;
     hook := None; pendingEffects := None; history := [] |}.

(** The background failure that is pending after a history: the last one
    recorded, unless a pass was completed after it. *)
Definition pending_step (acc : option thrown) (e : hevent) : option thrown :=
  match e with
  | PassCompleted => None
  | BackgroundFailure x => Some x
  | RenderThrew _ => acc
  end.

Definition pending (h : list hevent) : option thrown := foldl pending_step None h.

(** The same, said without a fold: [e] was recorded by a background check,
    and nothing but failed renders happened since. *)
Definition failure_pending (h : list hevent) (e : thrown) : Prop :=
  ∃ h1 h2, h = h1 ++ BackgroundFailure e :: h2 ∧ Forall (λ x, ∃ r, x = RenderThrew r) h2.

(** The invariant: the slot holds the pending background failure. *)
Definition consistent (s : System) : Prop := slot s = pending (history s).

(** The cleanup returned by the subscription effect (line 107); React runs
    it when the component unmounts, if that effect has run. The cells of
    the hook are kept in the model, to say what a late notification would
    find. *)
Definition unmount (s : System) : System :=
  match hook s with
  | Some hk =>
      if effectInstalled hk
      then {| storeState := storeState s;
              subs := Subscription.tryUnsubscribe (subscription hk) (subs s);
              contextSub := contextSub s; hook := hook s;
              pendingEffects := pendingEffects s; history := history s |}
      else s
  | None => s
  end.

(** What a sequence of store states makes of the latest selected state and
    of the render counter, for a selector that computes [f]: a state whose
    selection is not shallow-equal to the latest one replaces it and counts
    one render. *)
Fixpoint observe (h : gmap nat object) (f : value → value) (latest : value) (renders : nat)
    (newStates : list value) : value * nat :=
  match newStates with
  | [] => (latest, renders)
  | v :: newStates' =>
      if shallowEqual h (f v) latest then observe h f latest renders newStates'
      else observe h f (f v) (S renders) newStates'
  end.

(** *** Occurrences in strings *)

Lemma append_nil_l s : EmptyString +:+ s = s.
Proof. reflexivity. Qed.

Lemma append_cons x a b : String x a +:+ b = String x (a +:+ b).
Proof. reflexivity. Qed.

Lemma append_assoc a b c : (a +:+ b) +:+ c = a +:+ b +:+ c.
Proof. induction a as [|x a IH]; [done|]. by rewrite !append_cons, IH. Qed.

Lemma contains_here pat post : contains pat (pat +:+ post).
Proof. by exists EmptyString, post. Qed.

Lemma contains_append_l a pat s : contains pat s → contains pat (a +:+ s).
Proof. intros (pre & post & ->). exists (a +:+ pre), post. by rewrite append_assoc. Qed.

Lemma contains_append_r b pat s : contains pat s → contains pat (s +:+ b).
Proof.
  intros (pre & post & ->). exists pre, (post +:+ b). by rewrite !append_assoc.
Qed.

Lemma occurs_append c a b : occurs c (a +:+ b) = occurs c a || occurs c b.
Proof.
  induction a as [|x a IH]; [done|].
  rewrite append_cons. simpl. by rewrite IH, orb_assoc.
Qed.

(** An occurrence that starts with a character absent from a prefix starts
    after that prefix. *)
Lemma strip_prefix P : ∀ pre c rest s,
  occurs c P = false →
  P +:+ s = pre +:+ String c rest →
  ∃ pre', pre = P +:+ pre' ∧ s = pre' +:+ String c rest.
Proof.
  induction P as [|x P IH]; intros pre c rest s Hocc Heq.
  - by exists pre.
  - simpl in Hocc. apply orb_false_iff in Hocc as [Hx Hocc].
    apply bool_decide_eq_false in Hx. rewrite append_cons in Heq.
    destruct pre as [|y pre].
    + rewrite append_nil_l in Heq. injection Heq as Hxc _. done.
    + rewrite append_cons in Heq. injection Heq as <- Heq.
      destruct (IH pre c rest s Hocc Heq) as (pre' & -> & ->).
      by exists pre'.
Qed.

(** Splitting an equation between two appends at a last character. *)
Lemma snoc_split b : ∀ a x c,
  a +:+ String x EmptyString = b +:+ c →
  (c = EmptyString ∧ b = a +:+ String x EmptyString)
  ∨ ∃ c', c = c' +:+ String x EmptyString ∧ a = b +:+ c'.
Proof.
  induction b as [|y b IH]; intros a x c Heq.
  - right. by exists a.
  - rewrite append_cons in Heq. destruct a as [|z a].
    + rewrite append_nil_l in Heq. injection Heq as <- Heq. left.
      destruct b; [|done]. destruct c; [|done]. done.
    + rewrite append_cons in Heq. injection Heq as <- Heq.
      destruct (IH a x c Heq) as [[-> ->]|(c' & -> & ->)].
      * by left.
      * right. by exists c'.
Qed.

(** A pattern that does not occur in [m] does not occur in [P ++ m ++ x]
    either, when its first character is absent from [P] and [x] is absent
    from it. *)
Lemma not_contains_wrapped P x c rest m :
  occurs c P = false →
  occurs x (String c rest) = false →
  ¬ contains (String c rest) m →
  ¬ contains (String c rest) (P +:+ m +:+ String x EmptyString).
Proof.
  intros HP Hx Hm (pre & post & Heq).
  rewrite append_cons in Heq.
  apply strip_prefix in Heq as (pre' & -> & Heq); [|done].
  rewrite <- append_cons in Heq.
  apply snoc_split in Heq as [[Hnil _]|(c' & Hc' & ->)].
  - by rewrite append_cons in Hnil.
  - symmetry in Hc'. apply snoc_split in Hc' as [[-> Hpat]|(p' & -> & ->)].
    + rewrite Hpat, occurs_append in Hx. simpl in Hx.
      rewrite bool_decide_true in Hx by done. by rewrite orb_true_r in Hx.
    + apply Hm. by exists pre', p'.
Qed.

(** *** The window between render and commit *)

Lemma run_callbacks_others hk l : ∀ acc,
  hook acc.1 = Some hk → subscription hk ∉ l → foldl run_callback acc l = acc.
Proof.
  induction l as [|n l IH]; intros acc Hhk Hn; [done|].
  simpl. apply not_elem_of_cons in Hn as [Hne Hn].
  assert (run_callback acc n = acc) as ->.
  { unfold run_callback. rewrite Hhk. by rewrite bool_decide_false. }
  by apply IH.
Qed.

(** While the node of the hook is not notified, a store update changes the
    store state and nothing else. *)
Lemma storeUpdate_not_notified v s w hk :
  hook s = Some hk → subscription hk ∉ Subscription.notify (subs s) →
  storeUpdate v s w = (set_storeState s v, w).
Proof. intros Hhk Hn. unfold storeUpdate. by apply run_callbacks_others with hk. Qed.

Lemma storeUpdates_not_notified vs : ∀ s w hk,
  hook s = Some hk → subscription hk ∉ Subscription.notify (subs s) →
  storeUpdates vs (s, w) = (set_storeState s (default (storeState s) (last vs)), w).
Proof.
  induction vs as [|v vs IH]; intros s w hk Hhk Hn.
  - by destruct s.
  - unfold storeUpdates. simpl. rewrite (storeUpdate_not_notified v s w hk Hhk Hn).
    fold (storeUpdates vs (set_storeState s v, w)).
    rewrite (IH (set_storeState s v) w hk Hhk Hn). unfold set_storeState. simpl.
    destruct vs as [|v' vs]; [done|].
    assert (is_Some (last (v' :: vs))) as [x Hx] by (by apply last_is_Some).
    change (last (v :: v' :: vs)) with (last (v' :: vs)). by rewrite Hx.
Qed.

(** The first render: what it leaves behind. *)
Lemma useSelector_mount sel extra s0 w0 v1 s1 w1 :
  hook s0 = None →
  useSelector (Some sel) extra s0 w0 = (Return v1, s1, w1) →
  sel (storeState s0) w0 = (Return v1, w1)
  ∧ s1 = {| storeState := storeState s0;
            subs := Subscription.construct (contextSub s0) (subs s0);
            contextSub := contextSub s0;
            hook := Some {| forceRenders := 0;
                            subscription := length (Subscription.nodes (subs s0));
                            latestSubscriptionCallbackError := None;
                            latestSelector := sel;
                            latestSelectedState := v1;
                            effectInstalled := false |};
            pendingEffects := Some (sel, v1);
            history := history s0 |}.
Proof.
  intros Hhk. unfold useSelector. rewrite Hhk.
  destruct (sel (storeState s0) w0) as [[v|e] w'] eqn:E; [|done].
  by intros [= <- <- <-].
Qed.

(** *** The commit phase of a mount *)

(** C1: a hook is mounted: its first render reads the store state and
    selects [v1]. Whatever store updates happen before the commit phase,
    the hook is not notified of them (its node is not subscribed yet). The
    commit phase then installs the listener (the node is subscribed, with
    [checkForUpdates] as its own callback, and from then on it is reached
    by every notification pass if the context's node is) and immediately
    re-reads the store state and re-runs the latest selector on it: when
    the result is not shallow-equal to [v1] it becomes the latest selected
    state and a render is forced; when the selector throws, the error is
    recorded and a render is forced; when the result is shallow-equal to
    [v1], what was rendered is up to date and no render is forced. So a
    change of the selected state that happened in the window is detected
    and applied, never lost. *)
Theorem no_missed_update sel extra s0 w0 v1 s1 w1 newStates :
  hook s0 = None →
  Subscription.wf (subs s0) →
  Subscription.valid_upstream (contextSub s0) (subs s0) = true →
  useSelector (Some sel) extra s0 w0 = (Return v1, s1, w1) →
  ∃ hk1 s1',
    hook s1 = Some hk1
    ∧ latestSelectedState hk1 = v1
    ∧ forceRenders hk1 = 0
    ∧ storeUpdates newStates (s1, w1) = (s1', w1)
    ∧ hook s1' = Some hk1
    ∧ storeState s1' = default (storeState s0) (last newStates)
    ∧ ∀ w, ∃ s2 w2 hk2 nd,
        commit s1' w = (s2, w2)
        ∧ hook s2 = Some hk2
        ∧ Subscription.nodes (subs s2) !! subscription hk2 = Some nd
        ∧ Subscription.subscribed nd = true
        ∧ Subscription.onStateChange nd = Some ()
        ∧ (match contextSub s0 with
           | Some p => Subscription.registered (subs s0) p
           | None => True
           end →
           subscription hk2 ∈ Subscription.notify (subs s2))
        ∧ match sel (storeState s1') w with
          | (Return v2, w') =>
              w2 = w'
              ∧ if shallowEqual (heap_of w') v2 v1
                then forceRenders hk2 = 0 ∧ latestSelectedState hk2 = v1
                else forceRenders hk2 = 1 ∧ latestSelectedState hk2 = v2
          | (Throw err, w') =>
              w2 = w'
              ∧ forceRenders hk2 = 1
              ∧ latestSubscriptionCallbackError hk2 = Some err
          end.
Proof.
  intros Hhk Hwf Hvalid Hrender.
  destruct (useSelector_mount sel extra s0 w0 v1 s1 w1 Hhk Hrender) as [Hsel ->].
  set (n := length (Subscription.nodes (subs s0))).
  set (arena := Subscription.construct (contextSub s0) (subs s0)).
  assert (Hwf' : Subscription.wf arena) by (by apply Subscription.wf_construct).
  assert (Hnode : Subscription.nodes arena !! n
                  = Some {| Subscription.parentSub := contextSub s0;
                            Subscription.onStateChange := None;
                            Subscription.subscribed := false;
                            Subscription.listeners := [] |}).
  { unfold arena, Subscription.construct. simpl. by rewrite list_lookup_middle. }
  eexists _, _. split; [done|]. simpl. split; [done|]. split; [done|]. split.
  { eapply storeUpdates_not_notified; [done|]. simpl.
    by eapply Subscription.unsubscribed_not_notified. }
  simpl. split; [done|]. split; [done|].
  intros w. unfold commit, effect_subscribe, checkForUpdates. simpl.
  fold n. fold arena.
  assert (Hset : Subscription.nodes (Subscription.setOnStateChange n (Some ()) arena) !! n
                 = Some {| Subscription.parentSub := contextSub s0;
                           Subscription.onStateChange := Some ();
                           Subscription.subscribed := false;
                           Subscription.listeners := [] |}).
  { unfold Subscription.setOnStateChange.
    rewrite Subscription.lookup_update, decide_True by done. by rewrite Hnode. }
  destruct (Subscription.trySubscribe_subscribed n _ _ Hset) as (nd & Hnd & Hsub & _ & Hcb).
  assert (Hnotified :
            match contextSub s0 with
            | Some p => Subscription.registered (subs s0) p
            | None => True
            end →
            n ∈ Subscription.notify
                  (Subscription.trySubscribe n
                     (Subscription.setOnStateChange n (Some ()) arena))).
  { intros Hctx.
    assert (Hwf'' : Subscription.wf (Subscription.setOnStateChange n (Some ()) arena))
      by (by apply Subscription.wf_setOnStateChange).
    apply Subscription.notify_complete; [by apply Subscription.wf_trySubscribe| |].
    - eapply Subscription.trySubscribe_registers; [done|exact Hset|done|]. simpl.
      destruct (contextSub s0) as [p|]; [|done].
      apply (Subscription.registered_mono (subs s0)); [done| |done].
      intros q qd Hq. exists qd. split; [|done].
      pose proof (lookup_lt_Some _ _ _ Hq) as Hlt.
      unfold Subscription.setOnStateChange.
      rewrite Subscription.lookup_update, decide_False by (unfold n; lia).
      unfold arena, Subscription.construct. simpl. by rewrite lookup_app_l.
    - exists nd. split; [done|]. rewrite Hcb. by eexists. }
  destruct (sel (default (storeState s0) (last newStates)) w) as [[v2|err] w'] eqn:E.
  - destruct (shallowEqual (heap_of w') v2 v1) eqn:Heq.
    + eexists _, _, _, nd. split; [done|]. simpl. by repeat split.
    + eexists _, _, _, nd. split; [done|]. simpl. by repeat split.
  - eexists _, _, _, nd. split; [done|]. simpl. by repeat split.
Qed.

(** *** The comparison *)

(** C9 (as the code has it): [useSelector] has the selector as its only
    parameter: whatever else the caller passes, an equality function
    included, is ignored; and the comparison of [checkForUpdates] between
    the newly selected state and the latest selected state is shallow
    equality: a render is forced exactly when the two are not shallow-equal
    (or when the selector throws). *)
Theorem comparison_is_shallow_equality sel (extra : list equalityFn) s w hk :
  hook s = Some hk →
  useSelector (Some sel) extra s w = useSelector (Some sel) [] s w
  ∧ match latestSelector hk (storeState s) w with
    | (Return newSelectedState, w') =>
        if shallowEqual (heap_of w') newSelectedState (latestSelectedState hk)
        then checkForUpdates s w = (s, w')
        else ∃ s' hk',
            checkForUpdates s w = (s', w')
            ∧ hook s' = Some hk'
            ∧ forceRenders hk' = S (forceRenders hk)
            ∧ latestSelectedState hk' = newSelectedState
    | (Throw err, w') =>
        ∃ s' hk',
          checkForUpdates s w = (s', w')
          ∧ hook s' = Some hk'
          ∧ forceRenders hk' = S (forceRenders hk)
          ∧ latestSubscriptionCallbackError hk' = Some err
    end.
Proof.
  intros Hhk. split; [done|]. unfold checkForUpdates. rewrite Hhk.
  destruct (latestSelector hk (storeState s) w) as [[v|err] w'].
  - destruct (shallowEqual (heap_of w') v (latestSelectedState hk)); [done|].
    by eexists _, _.
  - by eexists _, _.
Qed.

(** *** The error correlation buffer *)

Lemma pending_snoc h e : pending (h ++ [e]) = pending_step (pending h) e.
Proof. unfold pending. by rewrite foldl_snoc. Qed.

Lemma pending_spec h e : pending h = Some e ↔ failure_pending h e.
Proof.
  revert e. induction h as [|x h IH] using rev_ind; intros e.
  - split; [done|]. intros (h1 & h2 & Heq & _). by destruct h1.
  - rewrite pending_snoc. split.
    + destruct x as [|r|e']; simpl.
      * done.
      * intros (h1 & h2 & -> & Hall)%IH. exists h1, (h2 ++ [RenderThrew r]).
        split; [by rewrite <- app_assoc|]. apply Forall_app. split; [done|].
        constructor; [by eexists|constructor].
      * intros [= ->]. exists h, []. split; [done|constructor].
    + intros (h1 & h2 & Heq & Hall).
      destruct h2 as [|y h2 _] using rev_ind.
      * apply (app_inj_tail h h1) in Heq as [-> ->]. done.
      * change (h ++ [x] = h1 ++ (BackgroundFailure e :: h2) ++ [y]) in Heq.
        rewrite app_assoc in Heq. apply app_inj_tail in Heq as [-> ->].
        apply Forall_app in Hall as [Hall Hy].
        apply Forall_singleton in Hy as [r ->]. simpl.
        apply IH. by exists h1, h2.
Qed.

Lemma pending_none h : pending h = None ↔ ∀ e, ¬ failure_pending h e.
Proof.
  split.
  - intros Hnone e He%pending_spec. congruence.
  - intros Hno. destruct (pending h) as [e|] eqn:E; [|done].
    by destruct (Hno e); apply pending_spec.
Qed.

Lemma consistent_useSelector sel extra s w :
  consistent s → consistent (useSelector sel extra s w).1.2.
Proof.
  unfold consistent, useSelector. intros Hc.
  destruct sel as [sel|]; [|unfold slot in *; simpl; by rewrite pending_snoc].
  destruct (sel (storeState s) w) as [[v|err] w'].
  - unfold slot in *. simpl.
    destruct (hook s) as [hk|] eqn:Hhk; simpl; [by rewrite Hhk|done].
  - unfold slot in *. simpl. by rewrite pending_snoc.
Qed.

Lemma consistent_checkForUpdates s w :
  consistent s → consistent (checkForUpdates s w).1.
Proof.
  unfold consistent, checkForUpdates. intros Hc.
  destruct (hook s) as [hk|] eqn:Hhk; [|done].
  destruct (latestSelector hk (storeState s) w) as [[v|err] w'].
  - destruct (shallowEqual _ _ _); [done|].
    unfold slot in *. rewrite Hhk in Hc. done.
  - unfold slot. simpl. by rewrite pending_snoc.
Qed.

Lemma consistent_commit s w : consistent s → consistent (commit s w).1.
Proof.
  unfold commit. intros Hc.
  destruct (pendingEffects s) as [[sel v]|]; [|done].
  destruct (hook s) as [hk|] eqn:Hhk; [|done].
  destruct (effectInstalled hk).
  - unfold consistent, slot. simpl. by rewrite pending_snoc.
  - unfold effect_subscribe. simpl. apply consistent_checkForUpdates.
    unfold consistent, slot. simpl. by rewrite pending_snoc.
Qed.

Lemma consistent_run_callbacks l : ∀ acc,
  consistent acc.1 → consistent (foldl run_callback acc l).1.
Proof.
  induction l as [|n l IH]; intros acc Hc; [done|].
  simpl. apply IH. unfold run_callback.
  destruct (hook acc.1); [|done]. case_bool_decide; [|done].
  by apply consistent_checkForUpdates.
Qed.

Lemma consistent_storeUpdate v s w : consistent s → consistent (storeUpdate v s w).1.
Proof. intros Hc. unfold storeUpdate. by apply consistent_run_callbacks. Qed.

Lemma consistent_step acc o : consistent acc.1 → consistent (hook_step acc o).1.
Proof.
  intros Hc. destruct o as [sel extra| |v]; simpl.
  - pose proof (consistent_useSelector sel extra acc.1 acc.2 Hc) as H.
    by destruct (useSelector sel extra acc.1 acc.2) as [[c s] w].
  - by apply consistent_commit.
  - by apply consistent_storeUpdate.
Qed.

Lemma consistent_run ops : ∀ acc, consistent acc.1 → consistent (hook_run ops acc).1.
Proof.
  induction ops as [|o ops IH]; intros acc Hc; [done|]. apply IH. by apply consistent_step.
Qed.

Lemma render_throws sel extra s w err w' :
  sel (storeState s) w = (Throw err, w') →
  useSelector (Some sel) extra s w
  = (Throw (ThrownObject (render_error err (slot s))),
     {| storeState := storeState s; subs := subs s; contextSub := contextSub s;
        hook := hook s; pendingEffects := None;
        history := history s ++ [RenderThrew (render_error err (slot s))] |},
     w').
Proof. intros Hsel. unfold useSelector. by rewrite Hsel. Qed.

Lemma correlation_contains_text previous : contains correlation_text (correlation previous).
Proof.
  unfold correlation. apply contains_append_l.
  change "The error may be correlated with this previous error:"
    with (correlation_text +:+ " with this previous error:").
  rewrite append_assoc. apply contains_here.
Qed.

Lemma correlation_contains_stack previous :
  contains (stack_text previous) (correlation previous).
Proof. unfold correlation. do 3 apply contains_append_l. apply contains_here. Qed.

(** After the effects of a render that returned, the slot is empty, unless
    the check of the subscription effect itself has just recorded a
    failure. *)
Lemma commit_clears sel extra s w v s1 w1 w1' :
  useSelector sel extra s w = (Return v, s1, w1) →
  slot (commit s1 w1').1 = None
  ∨ ∃ e, slot (commit s1 w1').1 = Some e
         ∧ history (commit s1 w1').1 = history s ++ [PassCompleted; BackgroundFailure e].
Proof.
  unfold useSelector. destruct sel as [sel|]; [|done].
  destruct (sel (storeState s) w) as [[v'|err] w'']; [|done].
  intros [= <- <- <-]. unfold commit. simpl.
  destruct (hook s) as [hk|] eqn:Hhk; simpl.
  - rewrite Hhk. destruct (effectInstalled hk); [by left|].
    unfold effect_subscribe, checkForUpdates. simpl.
    destruct (sel (storeState s) w1') as [[v2|err] w2]; simpl.
    + destruct (shallowEqual _ _ _); by left.
    + right. exists err. split; [done|]. by rewrite <- app_assoc.
  - unfold effect_subscribe, checkForUpdates. simpl.
    destruct (sel (storeState s) w1') as [[v2|err] w2]; simpl.
    + destruct (shallowEqual _ _ _); by left.
    + right. exists err. split; [done|]. by rewrite <- app_assoc.
Qed.

(** A pattern occurs only in strings in which its first character occurs. *)
Lemma contains_occurs c rest m : contains (String c rest) m → occurs c m = true.
Proof.
  intros (pre & post & ->). rewrite occurs_append, append_cons. simpl.
  rewrite bool_decide_true by done. by rewrite orb_true_r.
Qed.


(** *** Store updates on a mounted hook, and after unmount *)

Lemma checkForUpdates_subscription s w hk :
  hook s = Some hk →
  ∃ hk', hook (checkForUpdates s w).1 = Some hk' ∧ subscription hk' = subscription hk.
Proof.
  intros Hhk. unfold checkForUpdates. rewrite Hhk.
  destruct (latestSelector hk (storeState s) w) as [[v|e] w']; simpl.
  - destruct (shallowEqual _ _ _); simpl; eauto.
  - eauto.
Qed.

(** In a pass that names each node once, the hook's check runs once. *)
Lemma run_callbacks_once hk l acc :
  hook acc.1 = Some hk → NoDup l → subscription hk ∈ l →
  foldl run_callback acc l = checkForUpdates acc.1 acc.2.
Proof.
  intros Hhk Hnd Hin.
  apply list_elem_of_split in Hin as (l1 & l2 & ->).
  apply NoDup_app in Hnd as (_ & Hl1 & Hnd). apply NoDup_cons in Hnd as [Hl2 _].
  rewrite foldl_app. simpl.
  rewrite (run_callbacks_others hk l1 acc); [|done|].
  - assert (run_callback acc (subscription hk) = checkForUpdates acc.1 acc.2) as ->.
    { unfold run_callback. by rewrite Hhk, bool_decide_true. }
    destruct (checkForUpdates_subscription acc.1 acc.2 hk Hhk) as (hk' & Hhk' & Hsub).
    apply (run_callbacks_others hk'); [done|]. by rewrite Hsub.
  - intros Hx. apply (Hl1 _ Hx). by left.
Qed.

(** X21: a store update runs the hook's [checkForUpdates] exactly once: on
    a well-formed subscription tree whose notification pass reaches the
    hook's node, the update is the new store state followed by one check,
    whatever other nodes are notified before and after. *)
Theorem store_update_checks_once newState s w hk :
  hook s = Some hk →
  Subscription.wf (subs s) →
  subscription hk ∈ Subscription.notify (subs s) →
  storeUpdate newState s w = checkForUpdates (set_storeState s newState) w.
Proof.
  intros Hhk Hwf Hin. unfold storeUpdate. fold (set_storeState s newState).
  apply (run_callbacks_once hk _ (set_storeState s newState, w)).
  - done.
  - by apply Subscription.notify_NoDup.
  - done.
Qed.

Lemma notified_exists (t : Subscription.tree (C := unit)) c :
  Subscription.wf t → c ∈ Subscription.notify t → is_Some (Subscription.nodes t !! c).
Proof.
  intros Hwf Hin. unfold Subscription.notify in Hin.
  apply list_elem_of_bind in Hin as (r & Hin & Hr).
  apply Subscription.handleChange_listed in Hin as [->|(p & pd & Hp & Hx)].
  - destruct (Subscription.wf_root t Hwf r Hr) as (nd & Hl & _). eauto.
  - destruct (Subscription.wf_child t Hwf p pd c Hp Hx) as (nd & Hl & _). eauto.
Qed.

Lemma tryUnsubscribe_not_notified (t : Subscription.tree (C := unit)) n :
  Subscription.wf t → n ∉ Subscription.notify (Subscription.tryUnsubscribe n t).
Proof.
  intros Hwf Hin.
  pose proof (Subscription.wf_tryUnsubscribe n t Hwf) as Hwf'.
  destruct (notified_exists _ n Hwf' Hin) as [nd' Hl'].
  apply (Subscription.unsubscribed_not_notified _ n nd' Hwf' Hl'); [|done].
  unfold Subscription.tryUnsubscribe in Hl'.
  destruct (Subscription.nodes t !! n) as [nd|] eqn:Hl; [|congruence].
  destruct (Subscription.subscribed nd) eqn:Hs; [|congruence].
  rewrite Subscription.lookup_update in Hl'. rewrite decide_True in Hl' by done.
  apply fmap_Some in Hl' as (x & _ & ->). done.
Qed.

(** X22: after the cleanup of the subscription effect has run (unmount),
    store updates no longer reach the hook: whatever states the store goes
    through, the selector is not called, no render is forced and nothing is
    recorded; only the store state changes. *)
Theorem unmounted_hook_ignores_store_updates s hk newStates w :
  hook s = Some hk →
  effectInstalled hk = true →
  Subscription.wf (subs s) →
  storeUpdates newStates (unmount s, w)
  = (set_storeState (unmount s) (default (storeState s) (last newStates)), w).
Proof.
  intros Hhk He Hwf.
  assert (hook (unmount s) = Some hk) as Hhk'.
  { unfold unmount. rewrite Hhk, He. done. }
  assert (storeState (unmount s) = storeState s) as <-.
  { unfold unmount. rewrite Hhk, He. done. }
  apply (storeUpdates_not_notified newStates (unmount s) w hk Hhk').
  unfold unmount. rewrite Hhk, He. simpl. by apply tryUnsubscribe_not_notified.
Qed.

(** X23: a render of a hook that is already subscribed, followed by its
    commit, calls the selector once (in the render) and touches neither the
    subscription tree nor the render counter: the commit only makes the
    selector and the selected state of that render the latest ones, and
    empties the error slot. A later check then runs the new selector and
    compares with the value just rendered: it forces one render when the
    new selection is not shallow-equal to it, none when it is. *)
Theorem rerender_refreshes_refs sel extra s w hk v s1 w1 :
  hook s = Some hk →
  effectInstalled hk = true →
  useSelector (Some sel) extra s w = (Return v, s1, w1) →
  sel (storeState s) w = (Return v, w1)
  ∧ ∃ s2, commit s1 w1 = (s2, w1)
          ∧ subs s2 = subs s
          ∧ storeState s2 = storeState s
          ∧ slot s2 = None
          ∧ ∀ newState w2 v' w3,
              sel newState w2 = (Return v', w3) →
              ∃ hk3,
                hook (checkForUpdates (set_storeState s2 newState) w2).1 = Some hk3
                ∧ (checkForUpdates (set_storeState s2 newState) w2).2 = w3
                ∧ forceRenders hk3
                  = (if shallowEqual (heap_of w3) v' v
                     then forceRenders hk else S (forceRenders hk))
                ∧ latestSelectedState hk3
                  = (if shallowEqual (heap_of w3) v' v then v else v').
Proof.
  intros Hhk He. unfold useSelector. rewrite Hhk.
  destruct (sel (storeState s) w) as [[v0|err] w'] eqn:Hsel; [|done].
  intros [= <- <- <-]. split; [done|].
  unfold commit. simpl. rewrite Hhk, He.
  eexists. split; [done|]. simpl. repeat split; try done.
  intros newState w2 v' w3 Hsel'. unfold checkForUpdates. simpl. rewrite Hsel'.
  destruct (shallowEqual (heap_of w3) v' v0); simpl; eauto.
Qed.

(** X24: for a subscribed hook whose selector is a pure function (it
    computes [f] of the store state and leaves the world alone), a sequence
    of store updates forces exactly one render for each state whose selection is not
    shallow-equal to the latest selected state, which it then replaces; no
    update is missed, none counts twice, and states with a shallow-equal
    selection force nothing. *)
Theorem forced_renders_count_selection_changes f newStates : ∀ s w hk,
  (∀ state w0, latestSelector hk state w0 = (Return (f state), w0)) →
  hook s = Some hk →
  Subscription.wf (subs s) →
  subscription hk ∈ Subscription.notify (subs s) →
  ∃ hk',
    (storeUpdates newStates (s, w)).2 = w
    ∧ hook (storeUpdates newStates (s, w)).1 = Some hk'
    ∧ (latestSelectedState hk', forceRenders hk')
      = observe (heap_of w) f (latestSelectedState hk) (forceRenders hk) newStates
    ∧ latestSubscriptionCallbackError hk' = latestSubscriptionCallbackError hk
    ∧ history (storeUpdates newStates (s, w)).1 = history s.
Proof.
  induction newStates as [|v newStates IH]; intros s w hk Hsel Hhk Hwf Hin.
  - exists hk. by repeat split.
  - unfold storeUpdates. simpl.
    assert (storeUpdate v s w = checkForUpdates (set_storeState s v) w) as ->.
    { unfold storeUpdate. fold (set_storeState s v).
      apply (run_callbacks_once hk _ (set_storeState s v, w)); [done| |done].
      by apply Subscription.notify_NoDup. }
    fold (storeUpdates newStates (checkForUpdates (set_storeState s v) w)).
    unfold checkForUpdates. simpl. rewrite Hhk, Hsel.
    destruct (shallowEqual (heap_of w) (f v) (latestSelectedState hk)) eqn:E.
    + destruct (IH (set_storeState s v) w hk Hsel Hhk Hwf Hin) as (hk' & ? & ? & ? & ? & ?).
      exists hk'. by repeat split.
    + match goal with
      | |- context [set_hook _ ?h] =>
          destruct (IH (set_hook (set_storeState s v) h) w h) as (hk' & ? & ? & ? & ? & ?);
            [done|done|done|done|]
      end.
      exists hk'. by repeat split.
Qed.

End Hook.

(** *** Concrete hooks *)

(** The arena of a provider: one node, attached to the store and
    subscribed. Hooks are constructed under it. *)
Definition example_provider : Subscription.tree (C := unit) :=
  Subscription.run [Subscription.Construct None; Subscription.TrySubscribe 0].

Definition hook_stack (msg : string) : string := "Error: " +:+ msg.

(** The text of the engine's [TypeError] for line 61. *)
Definition hook_type_error (err : thrown) : string :=
  "Cannot read property 'message' of "
  +:+ match err with ThrownPrimitive PNull => "null" | _ => "undefined" end.

(** [state => state]. *)
Definition select_state : selector (W := gmap nat object) := λ state h, (Return state, h).

Definition example_foo : error := {| message := "foo"; stack := "Error: foo" |}.

(** [count => { if (count > 0) { throw new Error('foo') } return count }]. *)
Definition select_nonpositive : selector (W := gmap nat object) := λ count h,
  match count with
  | VNum (Int z) => if bool_decide (0 < z)%Z then (Throw example_foo, h) else (Return count, h)
  | _ => (Return count, h)
  end.

(** Two distinct objects, [1] and [2], with the same content [{a: 1}]. *)
Definition two_equal_objects : gmap nat object :=
  <[1 := {| plain := true; props := {["a" := VNum (Int 1)]} |}]>
  (<[2 := {| plain := true; props := {["a" := VNum (Int 1)]} |}]> ∅).

(** A hook about to mount under the provider, on a store holding [state]. *)
Definition example_unmounted (state : value) : System (W := gmap nat object) :=
  unmounted state example_provider (Some 0).

(** The scenario of the test "notices store updates between render and
    store subscription effect": the store goes from [0] to [1] between the
    first render and its commit; the commit forces a render. *)
Lemma no_missed_update_witness :
  ∃ s1 s2 hk2,
    useSelector hook_stack hook_type_error (Some select_state) [] (example_unmounted (VNum (Int 0))) ∅
    = (Return (VNum (Int 0)), s1, ∅)
    ∧ commit id (storeUpdates id [VNum (Int 1)] (s1, ∅)).1 ∅ = (s2, ∅)
    ∧ hook s2 = Some hk2
    ∧ forceRenders hk2 = 1
    ∧ latestSelectedState hk2 = VNum (Int 1).
Proof.
  destruct (useSelector hook_stack hook_type_error (Some select_state) []
              (example_unmounted (VNum (Int 0))) ∅) as [[c s1] w1] eqn:Hrender.
  assert (c = Return (VNum (Int 0)) ∧ w1 = ∅) as [-> ->].
  { unfold useSelector in Hrender. simpl in Hrender. by injection Hrender as <- _ <-. }
  destruct (no_missed_update id hook_stack hook_type_error select_state [] (example_unmounted (VNum (Int 0)))
              ∅ (VNum (Int 0)) s1 ∅ [VNum (Int 1)]
              eq_refl (Subscription.wf_run _) eq_refl Hrender)
    as (hk1 & s1' & Hhk1 & Hv1 & Hr1 & Hupd & Hhk1' & Hstate & Hcommit).
  destruct (Hcommit ∅) as (s2 & w2 & hk2 & nd & Hc & Hhk2 & _ & _ & _ & _ & Hcase).
  rewrite Hstate in Hcase. simpl in Hcase. destruct Hcase as [-> [Hf Hl]].
  exists s1, s2, hk2. rewrite Hupd. simpl. done.
Defined.

(** The supplied equality function is not consulted. The hook is created
    with [===] as second argument and renders object [1]; the store then
    holds object [2], a distinct object with the same content. According to
    the supplied function the selected state changed, and yet no render is
    forced: the comparison made is shallow equality. *)
Lemma equality_override_counterexample :
  ∃ s hk,
    hook_run id hook_stack hook_type_error
      [Render (Some select_state) [strict_eq]; Commit; StoreUpdate (VRef 2)]
      (example_unmounted (VRef 1), two_equal_objects)
    = (s, two_equal_objects)
    ∧ hook s = Some hk
    ∧ storeState s = VRef 2
    ∧ Subscription.notify (subs s) = [1]
    ∧ subscription hk = 1
    ∧ latestSelectedState hk = VRef 1
    ∧ strict_eq (VRef 2) (latestSelectedState hk) = false
    ∧ forceRenders hk = 0.
Proof. eexists _, _. repeat split. Qed.

Lemma comparison_is_shallow_equality_witness :
  ∃ s,
    hook_run id hook_stack hook_type_error [Render (Some select_state) [strict_eq]; Commit]
      (example_unmounted (VRef 1), two_equal_objects)
    = (s, two_equal_objects)
    ∧ checkForUpdates id (set_storeState s (VRef 2)) two_equal_objects
      = (set_storeState s (VRef 2), two_equal_objects).
Proof.
  eexists. split; [reflexivity|].
  match goal with
  | |- checkForUpdates _ ?s ?w = _ =>
      destruct (comparison_is_shallow_equality id hook_stack hook_type_error select_state [strict_eq] s w
                  {| forceRenders := 0; subscription := 1;
                     latestSubscriptionCallbackError := None;
                     latestSelector := select_state;
                     latestSelectedState := VRef 1;
                     effectInstalled := true |} eq_refl) as [_ H]
  end.
  exact H.
Defined.


(** [count => { if (count > 0) { throw 0 } return count }]. *)
Definition select_throwing_zero : selector (W := gmap nat object) := λ count h,
  match count with
  | VNum (Int z) =>
      if bool_decide (0 < z)%Z then (Throw (ThrownPrimitive (PNum (Int 0))), h)
      else (Return count, h)
  | _ => (Return count, h)
  end.


(** The other way the wording fails: an [Error] was recorded by the
    background check, and the render that follows throws [null]. Line 61
    raises the engine's [TypeError]; the recorded failure is not quoted. *)
Example nullish_render_throw_is_a_type_error :
  ∃ s s',
    hook_run id hook_stack hook_type_error
      [Render (Some select_nonpositive) []; Commit; StoreUpdate (VNum (Int 1))]
      (example_unmounted (VNum (Int 0)), ∅)
    = (s, ∅)
    ∧ slot s = Some (ThrownObject example_foo)
    ∧ useSelector hook_stack hook_type_error
        (Some (λ _ h, (Throw (ThrownPrimitive PNull), h))) [] s ∅
      = (Throw (ThrownObject
                  {| message := "Cannot read property 'message' of null";
                     stack := "Error: Cannot read property 'message' of null" |}),
         s', ∅).
Proof. by eexists _, _. Qed.

(** A first render that throws: nothing is added to the selection error. *)
Example first_throw_has_no_correlation :
  ∃ s',
    useSelector hook_stack hook_type_error (Some select_nonpositive) []
      (example_unmounted (VNum (Int 1))) ∅
    = (Throw {| message := "An error occured while selecting the store state: foo.";
                stack := "Error: An error occured while selecting the store state: foo." |},
       s', ∅).
Proof. by eexists. Qed.

(** After the commit the hook is notified of store updates. *)
Example notified_after_commit :
  ∃ s hk,
    hook_run id hook_stack hook_type_error
      [Render (Some select_state) []; Commit; StoreUpdate (VNum (Int 1))]
      (example_unmounted (VNum (Int 0)), ∅)
    = (s, ∅)
    ∧ hook s = Some hk
    ∧ forceRenders hk = 1
    ∧ latestSelectedState hk = VNum (Int 1).
Proof. by eexists _, _. Qed.

(** The whole of that test: the store changes between the first render and
    its commit; the commit forces a render, and that render returns [1]:
    the rendered items are [0] then [1]. *)
Example rendered_items :
  ∃ s1 s2 s3 hk2,
    useSelector hook_stack hook_type_error (Some select_state) [] (example_unmounted (VNum (Int 0))) ∅
    = (Return (VNum (Int 0)), s1, ∅)
    ∧ hook_run id hook_stack hook_type_error [StoreUpdate (VNum (Int 1)); Commit] (s1, ∅) = (s2, ∅)
    ∧ hook s2 = Some hk2
    ∧ forceRenders hk2 = 1
    ∧ useSelector hook_stack hook_type_error (Some select_state) [] s2 ∅ = (Return (VNum (Int 1)), s3, ∅).
Proof. by eexists _, _, _, _. Qed.

(** *** A mounted hook *)

(** The hook of [notified_after_commit] once mounted: rendered on state [0]
    and committed. Its node is node [1], under the provider's node [0]. *)
Definition example_mounted : System (W := gmap nat object) :=
  (hook_run id hook_stack hook_type_error [Render (Some select_state) []; Commit]
     (example_unmounted (VNum (Int 0)), ∅)).1.

Definition example_hook : Hook (W := gmap nat object) :=
  {| forceRenders := 0; subscription := 1; latestSubscriptionCallbackError := None;
     latestSelector := select_state; latestSelectedState := VNum (Int 0);
     effectInstalled := true |}.

Lemma example_mounted_wf : Subscription.wf (subs example_mounted).
Proof.
  change (Subscription.wf
            (Subscription.run (C := unit)
               [Subscription.Construct None; Subscription.TrySubscribe 0;
                Subscription.Construct (Some 0); Subscription.SetOnStateChange 1 (Some ());
                Subscription.TrySubscribe 1])).
  apply Subscription.wf_run.
Defined.

Lemma store_update_checks_once_witness :
  storeUpdate id (VNum (Int 1)) example_mounted ∅
  = checkForUpdates id (set_storeState example_mounted (VNum (Int 1))) ∅.
Proof.
  apply (store_update_checks_once id (VNum (Int 1)) example_mounted ∅ example_hook).
  - reflexivity.
  - apply example_mounted_wf.
  - exact (list_elem_of_here 1 []).
Defined.

(** Unmounted, the hook sees nothing of the states [1] and [2]. *)
Lemma unmounted_hook_ignores_store_updates_witness :
  storeUpdates id [VNum (Int 1); VNum (Int 2)] (unmount example_mounted, ∅)
  = (set_storeState (unmount example_mounted) (VNum (Int 2)), ∅).
Proof.
  apply (unmounted_hook_ignores_store_updates id example_mounted example_hook
           [VNum (Int 1); VNum (Int 2)] ∅).
  - reflexivity.
  - reflexivity.
  - apply example_mounted_wf.
Defined.

Example example_unmount :
  Subscription.notify (subs example_mounted) = [1]
  ∧ Subscription.notify (subs (unmount example_mounted)) = [].
Proof. split; reflexivity. Qed.

(** [state => 0]: a second selector for the mounted hook. *)
Definition select_zero : selector (W := gmap nat object) := λ _ h, (Return (VNum (Int 0)), h).

Lemma rerender_refreshes_refs_witness :
  select_zero (storeState example_mounted) ∅ = (Return (VNum (Int 0)), ∅)
  ∧ ∃ s2,
      commit id (useSelector hook_stack hook_type_error (Some select_zero) [] example_mounted ∅).1.2 ∅ = (s2, ∅)
      ∧ subs s2 = subs example_mounted
      ∧ storeState s2 = storeState example_mounted
      ∧ slot s2 = None
      ∧ ∀ newState w2 v' w3,
          select_zero newState w2 = (Return v', w3) →
          ∃ hk3,
            hook (checkForUpdates id (set_storeState s2 newState) w2).1 = Some hk3
            ∧ (checkForUpdates id (set_storeState s2 newState) w2).2 = w3
            ∧ forceRenders hk3
              = (if shallowEqual (id w3) v' (VNum (Int 0))
                 then forceRenders example_hook else S (forceRenders example_hook))
            ∧ latestSelectedState hk3
              = (if shallowEqual (id w3) v' (VNum (Int 0)) then VNum (Int 0) else v').
Proof.
  exact (rerender_refreshes_refs id hook_stack hook_type_error select_zero [] example_mounted ∅ example_hook
           (VNum (Int 0))
           (useSelector hook_stack hook_type_error (Some select_zero) [] example_mounted ∅).1.2 ∅
           eq_refl eq_refl eq_refl).
Defined.

(** The store goes through [1], [1] and [2]: two renders are forced. *)
Lemma forced_renders_count_selection_changes_witness :
  ∃ hk',
    (storeUpdates id [VNum (Int 1); VNum (Int 1); VNum (Int 2)] (example_mounted, ∅)).2 = ∅
    ∧ hook (storeUpdates id [VNum (Int 1); VNum (Int 1); VNum (Int 2)] (example_mounted, ∅)).1
      = Some hk'
    ∧ (latestSelectedState hk', forceRenders hk') = (VNum (Int 2), 2)
    ∧ latestSubscriptionCallbackError hk' = None
    ∧ history (storeUpdates id [VNum (Int 1); VNum (Int 1); VNum (Int 2)] (example_mounted, ∅)).1
      = [PassCompleted].
Proof.
  refine (forced_renders_count_selection_changes id (λ state, state)
            [VNum (Int 1); VNum (Int 1); VNum (Int 2)] example_mounted ∅ example_hook
            _ eq_refl example_mounted_wf (list_elem_of_here 1 [])).
  intros state w0. reflexivity.
Defined.

End UseSelector.
